(** * Document structuring and hybrid retrieval: a shallow embedding

    The development follows the Python sources of the ingestion and
    retrieval pipeline:

    - [PyStr]      the Python string operations the code relies on;
    - [Chunking]   [utils/chunking.py] ([naive_chunking]);
    - [PdfUtil]    [ingestor/pdf_util.py] ([extract_table_of_contents],
                   [detect_irrelevant_pages], [stringify_list],
                   [process_pdf]);
    - [Retrieval]  the hybrid query of [coordinator/utils.py]
                   ([generate_sql_query]);
    - [Store]      connection handling of [retrieve_context] and
                   [add_manual_chunks_to_db];
    - [PdfTables]  [get_fullpage_tables] and the head of [process_pdf];
    - [Tickets]    [add_ticket_to_db], [process_ticket] of
                   [app_coordinator_function.py] and [handler] of [app.py];
    - [Relevancy]  [determine_relevancy] of [ingestor/utils.py];
    - [SqlQuery]   the text [generate_sql_query] builds;
    - [HtmlUtil]   [ingestor/html_util.py] ([elements_to_text]);
    - [Ingestor]   the PDF branch of [add_manual] of [ingestor_app.py].

    The first part of the file holds the embedding, one module per source
    file; the second part holds the properties, one module of facts per
    module of definitions. *)

From Stdlib Require Import ZArith QArith Ascii Lia.
From stdpp Require Import base gmap sets list sorting strings pretty.

Local Open Scope Z_scope.

(* ===================================================================== *)
(** * Python string operations *)
(* ===================================================================== *)

(** Strings are Rocq strings: sequences of one-byte characters.  The text
    the pipeline handles is taken to be in the ASCII range, where a byte is
    a character and [len], [lower], [strip] and [split] are as below. *)

Module PyStr.

(** [len(s)] *)
Definition len (s : string) : nat := String.length s.

(** [s[0:1]] *)
Definition first_char (s : string) : string := String.substring 0 1 s.

(** [sep.join(l)] *)
Fixpoint join (sep : string) (l : list string) : string :=
  match l with
  | [] => ""
  | [x] => x
  | x :: l' => x +:+ sep +:+ join sep l'
  end.

(** [c * n] for a one-character string; a negative count gives the
    empty string, as in Python. *)
Definition repeat (s : string) (n : Z) : string :=
  Nat.iter (Z.to_nat n) (String.append s) "".

(** Python's [str.isspace] on the ASCII range: tab, line feed, vertical
    tab, form feed, carriage return, the separators 28 to 31 and the
    space. *)
Definition isspace (c : ascii) : bool :=
  let n := nat_of_ascii c in
  ((9 <=? n)%nat && (n <=? 13)%nat) || ((28 <=? n)%nat && (n <=? 32)%nat).

Fixpoint lstrip (s : string) : string :=
  match s with
  | String c s' => if isspace c then lstrip s' else s
  | EmptyString => EmptyString
  end.

Fixpoint rstrip (s : string) : string :=
  match s with
  | String c s' =>
      match rstrip s' with
      | EmptyString => if isspace c then EmptyString else String c EmptyString
      | r => String c r
      end
  | EmptyString => EmptyString
  end.

(** [s.strip()] *)
Definition strip (s : string) : string := rstrip (lstrip s).

(** [s.lower()] on the ASCII range. *)
Definition lower_char (c : ascii) : ascii :=
  let n := nat_of_ascii c in
  if ((65 <=? n)%nat && (n <=? 90)%nat) then ascii_of_nat (n + 32) else c.

Fixpoint lower (s : string) : string :=
  match s with
  | String c s' => String (lower_char c) (lower s')
  | EmptyString => EmptyString
  end.

(** [len(s.split())]: the number of maximal runs of non-space characters.
    [inword] tells whether the previous character belonged to a word. *)
Fixpoint count_words_go (inword : bool) (s : string) : nat :=
  match s with
  | String c s' =>
      if isspace c then count_words_go false s'
      else if inword then count_words_go true s'
      else S (count_words_go true s')
  | EmptyString => 0%nat
  end.

Definition count_words (s : string) : nat := count_words_go false s.

(** [needle in hay]: substring test. *)
Fixpoint contains (needle hay : string) : bool :=
  String.prefix needle hay ||
  match hay with
  | String _ hay' => contains needle hay'
  | EmptyString => false
  end.

(** [re.search(r'a|b|c', s)] for a pattern that is an alternation of
    literal strings: some alternative occurs in [s]. *)
Definition search_alt (alts : list string) (s : string) : bool :=
  existsb (fun a => contains a s) alts.

End PyStr.

(* ===================================================================== *)
(** * Chunker: [utils/chunking.py] *)
(* ===================================================================== *)

Module Chunking.
Import PyStr.

(** A linearised segment [(t, n)]: text and page number. *)
Definition segment : Type := string * Z.

(** An entry of the returned list: [{"text": k, "page_no": v}]. *)
Record chunk := Chunk { text : string; page_no : option Z }.

(** [output_dict] is a Python [dict] from chunk text to page number.  A
    Python dict keeps its keys in insertion order and assigning to a key
    that is already present replaces the value in place, so it is an
    association list with update in place. *)
Definition dict : Type := list (string * option Z).

Fixpoint dict_set (k : string) (v : option Z) (d : dict) : dict :=
  match d with
  | [] => [(k, v)]
  | (k', v') :: d' =>
      if String.eqb k k' then (k', v) :: d' else (k', v') :: dict_set k v d'
  end.

Definition max_len : nat := 2500.

(** The local variables of [naive_chunking]. *)
Record state := State {
  current_string : string;
  last_str : string;
  page_num : option Z;
  output_dict : dict
}.

Definition init : state :=
  {| current_string := ""; last_str := ""; page_num := None;
     output_dict := [] |}.

(** The test for a header: [len(t) > 1 and t[0:1] == "#"]. *)
Definition is_header (t : string) : bool :=
  (1 <? len t)%nat && String.eqb (first_char t) "#".

(** [if page_num is None or n < page_num: page_num = n] *)
Definition earlier_page (pn : option Z) (n : Z) : option Z :=
  match pn with
  | None => Some n
  | Some p => if n <? p then Some n else Some p
  end.

(** One iteration of [for t, n in text]. *)
Definition step (overlap : bool) (s : state) (seg : segment) : state :=
  let '(t, n) := seg in
  if is_header t then
    {| current_string := t;
       last_str := last_str s;
       page_num := Some n;
       output_dict :=
         match page_num s with
         | Some p => dict_set (current_string s) (Some p) (output_dict s)
         | None => output_dict s
         end |}
  else if (len (current_string s) + len t <=? max_len)%nat then
    {| current_string := current_string s +:+ " " +:+ t;
       last_str := t;
       page_num := earlier_page (page_num s) n;
       output_dict := output_dict s |}
  else
    {| current_string := if overlap then last_str s +:+ " " +:+ t else t;
       last_str := last_str s;
       page_num := Some n;
       output_dict :=
         dict_set (current_string s) (page_num s) (output_dict s) |}.

Definition run_from (overlap : bool) (s : state) (segs : list segment) : state :=
  fold_left (step overlap) segs s.

Definition run (overlap : bool) (segs : list segment) : state :=
  run_from overlap init segs.

(** The statement after the loop, [output_dict[current_string] = page_num],
    and the conversion of the dict to the list of entries. *)
Definition finish (s : state) : list chunk :=
  map (fun kv => Chunk kv.1 kv.2)
      (dict_set (current_string s) (page_num s) (output_dict s)).

Definition naive_chunking (segs : list segment) (overlap : bool) : list chunk :=
  finish (run overlap segs).

(** ** Sealing events

    The assignments [output_dict[k] = v] the function performs, in the
    order it performs them: the accumulators that are sealed. *)

Definition seal_of_step (s : state) (seg : segment) : list (string * option Z) :=
  let '(t, n) := seg in
  if is_header t then
    match page_num s with
    | Some p => [(current_string s, Some p)]
    | None => []
    end
  else if (len (current_string s) + len t <=? max_len)%nat then []
  else [(current_string s, page_num s)].

Fixpoint seals_from (overlap : bool) (s : state) (segs : list segment)
  : list (string * option Z) :=
  match segs with
  | [] => [(current_string s, page_num s)]
  | seg :: segs' =>
      seal_of_step s seg ++ seals_from overlap (step overlap s seg) segs'
  end.

Definition sealed (segs : list segment) (overlap : bool) : list (string * option Z) :=
  seals_from overlap init segs.

(** What a segment contributes to the text of the chunks: the text the
    step puts in front of the segment's own text. *)
Definition lead_of_step (overlap : bool) (s : state) (seg : segment) : string :=
  let '(t, n) := seg in
  if is_header t then ""
  else if (len (current_string s) + len t <=? max_len)%nat then " "
  else if overlap then last_str s +:+ " " else "".

Fixpoint leads_from (overlap : bool) (s : state) (segs : list segment) : list string :=
  match segs with
  | [] => []
  | seg :: segs' =>
      lead_of_step overlap s seg :: leads_from overlap (step overlap s seg) segs'
  end.

Fixpoint concat_str (l : list string) : string :=
  match l with
  | [] => ""
  | x :: l' => x +:+ concat_str l'
  end.

(** ** Notions used in the statements *)

(** Performing a sequence of assignments on a dict. *)
Definition set_all (d : dict) (evs : list (string * option Z)) : dict :=
  fold_left (fun d kv => dict_set kv.1 kv.2 d) evs d.

(** A page is recorded as soon as the accumulator holds text. *)
Definition page_recorded (s : state) : Prop :=
  page_num s = None -> current_string s = "".

(** The shapes a chunk text can have with respect to the bound: short
    enough; last extended under the length test of the loop; a single
    segment longer than the bound; or, with overlap, started from the
    last merged text, a space and a segment. *)
Definition bounded_text (overlap : bool) (segs : list segment) (s : string) : Prop :=
  (len s <= max_len)%nat \/
  (exists acc t, s = acc +:+ " " +:+ t /\ (len acc + len t <= max_len)%nat) \/
  (exists seg, seg ∈ segs /\ s = seg.1 /\ (max_len < len seg.1)%nat) \/
  (overlap = true /\
   exists l seg, seg ∈ segs /\ s = l +:+ " " +:+ seg.1 /\
     (len l <= max_len)%nat /\ (l = "" \/ exists seg0, seg0 ∈ segs /\ l = seg0.1)).

(** The invariant of the loop for the size bound. *)
Definition size_inv (overlap : bool) (segs : list segment) (s : state) : Prop :=
  bounded_text overlap segs (current_string s) /\
  Forall (bounded_text overlap segs) (output_dict s).*1 /\
  (len (last_str s) <= max_len)%nat /\
  (last_str s = "" \/ exists seg0, seg0 ∈ segs /\ last_str s = seg0.1).

(** The size bound as the specification words it: at most [max_len]
    characters, except a chunk that is a single segment longer than
    [max_len]. *)
Definition claimed_size_bound (segs : list segment) (overlap : bool) : Prop :=
  forall c, c ∈ naive_chunking segs overlap ->
    (len (text c) <= max_len)%nat \/
    (exists seg, seg ∈ segs /\ text c = seg.1 /\ (max_len < len seg.1)%nat).

(** The heading rule as the specification words it: every segment whose
    text begins with [#] starts a chunk of the output. *)
Definition starts_chunk (t : string) (out : list chunk) : Prop :=
  exists c, c ∈ out /\ String.prefix t (text c) = true.

Definition claimed_heading_boundary (segs : list segment) (overlap : bool) : Prop :=
  forall seg, seg ∈ segs -> String.prefix "#" seg.1 = true ->
    starts_chunk seg.1 (naive_chunking segs overlap).

(** What may stand in front of a segment's text in the concatenation of
    the chunk texts: nothing, the joining space, or with overlap the
    repeated text of an earlier segment and a space. *)
Definition lead_ok (overlap : bool) (segs : list segment) (l : string) : Prop :=
  l = "" \/ l = " " \/
  (overlap = true /\ exists seg, seg ∈ segs /\ l = seg.1 +:+ " ").

(** The ordering property as the specification words it: one entry per
    sealed accumulator, in sealing order. *)
Definition claimed_one_entry_per_seal (segs : list segment) (overlap : bool) : Prop :=
  text <$> naive_chunking segs overlap = (sealed segs overlap).*1.

(** A segment of [n] copies of a character. *)
Definition filler (c : string) (n : nat) : string := PyStr.repeat c (Z.of_nat n).

End Chunking.

(* ===================================================================== *)
(** * PDF cleaning and linearisation: [ingestor/pdf_util.py] *)
(* ===================================================================== *)

Module PdfUtil.
Import PyStr.

(** ** The document as PyMuPDF presents it *)

(** A span of a text line, with its font size.  Sizes are only compared
    and used as dict keys, never computed with; they are integers here
    (hundredths of a point, say). *)
Record span := Span { span_text : string; span_size : Z }.

Definition line : Type := list span.

(** A block of [page.get_text("dict")["blocks"]]: its lines, or [None]
    for a block without the key ["lines"]. *)
Definition block : Type := option (list line).

Record page := Page {
  get_text : string;          (* page.get_text() *)
  blocks : list block         (* page.get_text("dict")["blocks"] *)
}.

(** [doc.get_toc()] yields [(level, title, page_num)]. *)
Record document := Document {
  get_toc : list (Z * string * Z);
  pages : list page
}.

(** An entry of the extracted table of contents:
    [(section_title, page_number, depth)]. *)
Record toc_entry := TocEntry { title : string; toc_page : Z; depth : Z }.

(** [range(a, b)] as a set. *)
Definition range (a b : Z) : gset Z := list_to_set (seqZ a (b - a)).

(** [enumerate(l)] *)
Definition enumerate {A} (l : list A) : list (Z * A) :=
  zip (seqZ 0 (Z.of_nat (length l))) l.

Definition nl : string := String (ascii_of_nat 10) "".

(** The literal alternations searched with [re.search]. *)
Definition title_page_alts : list string :=
  ["by"; "author"; "copyright"; "all rights reserved"].
Definition notices_alts : list string := ["notices"; "acknowledgments"].
Definition toc_literals : list string := ["contents"; "table of contents"].
Definition denylist : list string :=
  ["other resources"; "additional resources"; "acronyms"; "abbreviations";
   "abstract"; "index"; "recycling"; "specifications"].

(** The remaining entries of [toc_patterns] and [page_number_pattern]
    are proper regular expressions, handed to the regex engine. *)
Definition toc_regexes : list string :=
  ["chapter\s+\d+.*?\.{2,}.*?\d+";
   "^\s*\d+\..*?\.{2,}.*?\d+";
   "^\s*[ivx]+\.";
   "^\s*\d+\s*\.{2,}\s*\d+$"].
Definition page_number_pattern : string := ".*?\.{2,}.*?\d+$".
Definition toc_pattern : string := "^(.*?\S)\s*\.{2,}\s*(\d+)$".

Definition desc (a b : Z) : Prop := b <= a.
#[global] Instance desc_dec : RelDecision desc := fun a b => Z.le_dec b a.

(** The local variables of the page loop of [detect_irrelevant_pages]. *)
Record loop_state := LoopState {
  pages_to_remove : gset Z;
  in_toc_section : bool;
  consecutive_toc_count : nat
}.

Section WithLibraries.
(** The libraries the functions call. *)

(** [langdetect.detect]; [None] when it raises. *)
Variable detect : string -> option string.
(** [bool(re.search(pattern, text, re.MULTILINE))] *)
Variable re_search : string -> string -> bool.
(** [len(re.findall(pattern, text, re.MULTILINE))] *)
Variable re_findall_count : string -> string -> nat.
(** [re.match(toc_pattern, s)]: group 1 and [int] of group 2. *)
Variable re_match_toc : string -> option (string * Z).

(** *** [extract_table_of_contents] *)

(** The loop over the spans of one line; [line_text] grows span by
    span and is matched after each span. *)
Fixpoint scan_spans (line_text : string) (spans : list span)
  : list (string * Z * Z) :=
  match spans with
  | [] => []
  | sp :: spans' =>
      let line_text := line_text +:+ span_text sp in
      match re_match_toc (strip line_text) with
      | Some (g1, page_number) =>
          (strip g1, page_number, span_size sp) :: scan_spans line_text spans'
      | None => scan_spans line_text spans'
      end
  end.

Definition scan_block (b : block) : list (string * Z * Z) :=
  match b with
  | Some lines => concat (map (scan_spans "") lines)
  | None => []
  end.

Definition scan_page (pg : page) : list (string * Z * Z) :=
  concat (map scan_block (blocks pg)).

(** [ebenen_dict]: the distinct font sizes, largest first, numbered
    from 1. *)
Definition ebenen_dict (sizes : list Z) : list (Z * Z) :=
  let sorted := merge_sort desc (remove_dups sizes) in
  zip sorted (seqZ 1 (Z.of_nat (length sorted))).

Definition ebene (d : list (Z * Z)) (size : Z) : Z :=
  match list_find (fun kv => kv.1 = size) d with
  | Some (_, kv) => kv.2
  | None => 0
  end.

Definition extract_table_of_contents (doc : document) : list toc_entry :=
  match get_toc doc with
  | _ :: _ =>
      map (fun '(level, title, page_num) => TocEntry title page_num level)
          (get_toc doc)
  | [] =>
      let table_of_contents := concat (map scan_page (pages doc)) in
      let d := ebenen_dict (map snd table_of_contents) in
      map (fun '(title, page_num, size) => TocEntry title page_num (ebene d size))
          table_of_contents
  end.

(** *** [detect_irrelevant_pages] *)

Definition is_en (lang : option string) : bool :=
  match lang with
  | Some l => String.eqb l "en"
  | None => false
  end.

(** One iteration of [for page_num in range(len(doc))]. *)
Definition page_step (st : loop_state) (ip : Z * page) : loop_state :=
  let '(page_num, pg) := ip in
  let text := lower (get_text pg) in
  let lang := detect text in
  if is_en lang then
    let r := pages_to_remove st in
    let r :=
      if (page_num =? 0) &&
         ((count_words text <? 100)%nat || search_alt title_page_alts text)
      then {[page_num]} ∪ r else r in
    let r :=
      if search_alt notices_alts text && (page_num <=? 10)
      then {[page_num]} ∪ r else r in
    let has_toc_indicators :=
      search_alt toc_literals text ||
      existsb (fun pattern => re_search pattern text) toc_regexes in
    let has_page_numbers :=
      (2 <? re_findall_count page_number_pattern text)%nat in
    if (has_toc_indicators || (in_toc_section st && has_page_numbers))
       && (page_num <? 20)
    then
      {| pages_to_remove :=
           (if in_toc_section st then {[page_num]} ∪ r
            else range 0 page_num ∪ ({[page_num]} ∪ r));
         in_toc_section := true;
         consecutive_toc_count := S (consecutive_toc_count st) |}
    else
      {| pages_to_remove := r;
         in_toc_section := false;
         consecutive_toc_count := 0 |}
  else
    {| pages_to_remove := {[page_num]} ∪ pages_to_remove st;
       in_toc_section := in_toc_section st;
       consecutive_toc_count := consecutive_toc_count st |}.

Definition page_loop (doc : document) : loop_state :=
  fold_left page_step (enumerate (pages doc))
            (LoopState ∅ false 0%nat).

(** The condition of line 149,
    [not toc[j][-1] == item[-1] or toc[j][-1] > item[-1]]. *)
Definition cascades (item e : toc_entry) : bool :=
  negb (depth e =? depth item) || (depth e >? depth item).

(** The inner loop [for j in range(i+1, len(toc))] over the entries
    after [item]. *)
Definition toc_cascade (item : toc_entry) (rest : list toc_entry)
           (r : gset Z) : gset Z :=
  fold_left (fun r e => if cascades item e then {[toc_page e]} ∪ r else r)
            rest r.

(** The body of [for i, item in enumerate(toc)] for a matching
    [item]; [rest] are the entries [toc[i+1:]]. *)
Definition toc_match (ndoc : Z) (item : toc_entry) (rest : list toc_entry)
           (r : gset Z) : gset Z :=
  let r := {[toc_page item]} ∪ r in
  let r := toc_cascade item rest r in
  match rest with
  | [] => range (toc_page item) ndoc ∪ r
  | _ :: _ => r
  end.

Fixpoint toc_rule (ndoc : Z) (toc : list toc_entry) (r : gset Z) : gset Z :=
  match toc with
  | [] => r
  | item :: rest =>
      toc_rule ndoc rest
        (if search_alt denylist (title item)
         then toc_match ndoc item rest r else r)
  end.

Definition detect_irrelevant_pages (doc : document) : gset Z :=
  toc_rule (Z.of_nat (length (pages doc)))
           (extract_table_of_contents doc)
           (pages_to_remove (page_loop doc)).

End WithLibraries.

(** *** [stringify_list] *)

(** An emitted element [(text, page)]; the page is [None] where the
    Python variable holds [None]. *)
Definition element : Type := string * option Z.

Definition stringify_list (current_list : list string)
           (elements : list element) (current_list_page : option Z)
  : list string * list element :=
  let current_list_joined := join nl current_list in
  ([], elements ++ [(current_list_joined, current_list_page)]).

(** *** Sample documents *)

(** A page of English prose: 120 words, without digits, without two
    dots in a row and without any word of the patterns. *)
Definition plain_text : string :=
  "The printer feeds one sheet of paper at a time from the main tray. "
  +:+ "When a sheet stops inside the unit, open the rear door and pull the paper out with both hands. "
  +:+ "Do not use sharp tools, because they can damage the rollers. "
  +:+ "Close the door until you hear a click, then press the power button to start the device again. "
  +:+ "If the problem returns, clean the rollers with a soft dry cloth and check that the paper guides touch the edges of the stack. "
  +:+ "Use only paper of the weight that the manual recommends. "
  +:+ "Keep the device away from direct sunlight and from sources of heat, and leave enough room around it so that air can move freely.".

Definition plain_page : page := Page plain_text [].

(** A page without text. *)
Definition empty_page : page := Page "" [].

(** [langdetect.detect] on these pages: English for the plain page, an
    exception for a text without features. *)
Definition sample_detect (text : string) : option string :=
  if String.eqb text "" then None else Some "en".

(** A detector that never fails, for comparison. *)
Definition always_en (text : string) : option string := Some "en".

(** The regular expressions on these pages: none of them matches. *)
Definition no_search (pattern text : string) : bool := false.
Definition no_findall (pattern text : string) : nat := 0%nat.
Definition no_match (s : string) : option (string * Z) := None.

Definition sample_doc (toc : list (Z * string * Z)) (n : nat) : document :=
  Document toc (replicate n plain_page).

(** [detect_irrelevant_pages] with these libraries. *)
Definition sample_pages : document -> gset Z :=
  detect_irrelevant_pages sample_detect no_search no_findall no_match.

(** The table of contents of the specification's example, and the same
    shape with titles the denylist matches. *)
Definition spec_toc : list (Z * string * Z) :=
  [(1, "Intro", 1); (1, "Resources", 5); (2, "Specs", 8); (1, "Index", 10)].
Definition matching_toc : list (Z * string * Z) :=
  [(1, "intro", 1); (1, "other resources", 5); (2, "details", 8);
   (1, "summary", 10)].

(** *** [process_pdf] *)

(** The classes of docling the function tests with [isinstance].
    [SectionHeaderItem] and [ListItem] are subclasses of [TextItem]. *)
Inductive item_class :=
  | TextItem | SectionHeaderItem | ListItem | TableItem | GroupItem
  | OtherItem.

(** The labels the function compares with ([DocItemLabel], [GroupLabel]);
    every other label is [OTHER_LABEL]. *)
Inductive item_label :=
  | TITLE | SECTION_HEADER | LIST_ITEM | LIST | ORDERED_LIST
  | OTHER_LABEL (name : string).

#[global] Instance item_class_eq_dec : EqDecision item_class.
Proof. solve_decision. Defined.
#[global] Instance item_label_eq_dec : EqDecision item_label.
Proof. solve_decision. Defined.

(** An item of [result.document.iterate_items()], with the attributes
    the function reads. *)
Record doc_item := DocItem {
  cls : item_class;
  label : item_label;
  item_text : string;          (* item.text *)
  prov_page_no : Z;            (* item.prov[0].page_no *)
  enumerated : bool;           (* item.enumerated *)
  marker : string;             (* item.marker *)
  table_markdown : string      (* item.export_to_dataframe().to_markdown() *)
}.

Definition isinstance (item : doc_item) (classes : list item_class) : bool :=
  existsb
    (fun c =>
       bool_decide (cls item = c) ||
       (bool_decide (c = TextItem) &&
        (bool_decide (cls item = SectionHeaderItem) ||
         bool_decide (cls item = ListItem))))
    classes.

(** The local variables of [process_pdf]. *)
Record pdf_state := PdfState {
  list_nesting_level : Z;
  previous_level : Z;
  in_list : bool;
  current_list : list string;
  current_list_page : option Z;
  elements : list element
}.

Definition pdf_init : pdf_state :=
  {| list_nesting_level := 0; previous_level := 0; in_list := false;
     current_list := []; current_list_page := None; elements := [] |}.

Definition indent : Z := 4.

(** The line built for a list item (lines 350 to 356). *)
Definition list_item_line (nesting : Z) (item : doc_item) : string :=
  let list_indent := PyStr.repeat " " (indent * (nesting - 1)) in
  let marker := if enumerated item then marker item +:+ " " else "- " in
  strip (list_indent +:+ marker +:+ item_text item).

(** The marker of a section header (lines 330 to 332). *)
Definition header_marker (level : Z) : string :=
  let marker := PyStr.repeat "#" (Z.min level 6) +:+ " " in
  if (len marker <? 3)%nat then "## " else marker.

(** [if current_list and in_list: stringify_list(...);
     current_list_page = None] followed by [in_list = False]. *)
Definition close_list (st : pdf_state) : pdf_state :=
  match current_list st with
  | _ :: _ =>
      if in_list st then
        let '(cl, els) :=
          stringify_list (current_list st) (elements st) (current_list_page st) in
        {| list_nesting_level := list_nesting_level st;
           previous_level := previous_level st;
           in_list := false;
           current_list := cl;
           current_list_page := None;
           elements := els |}
      else
        {| list_nesting_level := list_nesting_level st;
           previous_level := previous_level st;
           in_list := false;
           current_list := current_list st;
           current_list_page := current_list_page st;
           elements := elements st |}
  | [] =>
      {| list_nesting_level := list_nesting_level st;
         previous_level := previous_level st;
         in_list := false;
         current_list := current_list st;
         current_list_page := current_list_page st;
         elements := elements st |}
  end.

Definition emit (st : pdf_state) (el : element) : pdf_state :=
  {| list_nesting_level := list_nesting_level st;
     previous_level := previous_level st;
     in_list := in_list st;
     current_list := current_list st;
     current_list_page := current_list_page st;
     elements := elements st ++ [el] |}.

Section WithExportLabels.
(** [docling_core]'s constant [DEFAULT_EXPORT_LABELS], as a
    membership test. *)
Variable DEFAULT_EXPORT_LABELS : item_label -> bool.

(** The adjustment of the nesting level when moving up (lines 288 to
    293). *)
Definition adjust_level (st : pdf_state) (level : Z) : pdf_state :=
  {| list_nesting_level :=
       (if level <? previous_level st
        then Z.max 0 (list_nesting_level st - (previous_level st - level))
        else list_nesting_level st);
     previous_level := level;
     in_list := in_list st;
     current_list := current_list st;
     current_list_page := current_list_page st;
     elements := elements st |}.

(** Leaving a list group (lines 296 to 303). *)
Definition exit_list (st : pdf_state) (item : doc_item) : pdf_state :=
  if (0 <? length (elements st))%nat
     && negb (isinstance item [ListItem; GroupItem])
     && in_list st
  then close_list st
  else st.

(** The branches for an item that is exported and not on an ignored
    page (lines 311 to 377). *)
Definition dispatch (tables : bool) (st : pdf_state) (item : doc_item)
           (level : Z) : pdf_state :=
  let page := Some (prov_page_no item) in
  if isinstance item [TextItem] && bool_decide (label item = TITLE) then
    emit (close_list st) ("# " +:+ item_text item, page)
  else if (isinstance item [TextItem] && bool_decide (label item = SECTION_HEADER))
          || isinstance item [SectionHeaderItem] then
    emit (close_list st) (header_marker level +:+ item_text item, page)
  else if isinstance item [GroupItem] then
    if bool_decide (label item = LIST) || bool_decide (label item = ORDERED_LIST)
    then
      {| list_nesting_level := list_nesting_level st + 1;
         previous_level := previous_level st;
         in_list := true;
         current_list := current_list st;
         current_list_page := page;
         elements := elements st |}
    else emit st (item_text item, page)
  else if isinstance item [ListItem] && bool_decide (label item = LIST_ITEM) then
    {| list_nesting_level := list_nesting_level st;
       previous_level := previous_level st;
       in_list := true;
       current_list :=
         current_list st ++ [list_item_line (list_nesting_level st) item];
       current_list_page := page;
       elements := elements st |}
  else if isinstance item [TextItem] then
    emit (close_list st) (item_text item, page)
  else if isinstance item [TableItem] && tables then
    emit (close_list st) (table_markdown item, page)
  else st.

(** One iteration of [for item, level in ...iterate_items()]. *)
Definition process_item (pages_to_ignore : gset Z) (tables : bool)
           (st : pdf_state) (il : doc_item * Z) : pdf_state :=
  let '(item, level) := il in
  let st := adjust_level st level in
  let st := exit_list st item in
  if negb (DEFAULT_EXPORT_LABELS (label item)) then st
  else if bool_decide (prov_page_no item - 1 ∈ pages_to_ignore) then st
  else dispatch tables st item level.

(** The statement after the loop (lines 380 and 381). *)
Definition final_flush (st : pdf_state) : list element :=
  match current_list st with
  | _ :: _ => elements st ++ [(join "" (current_list st), current_list_page st)]
  | [] => elements st
  end.

(** [process_pdf] from line 283 on: [items] is the stream of
    [iterate_items()] of the converted document and [pages_to_ignore]
    the set in force after the full-page-table detection. *)
Definition process_pdf (items : list (doc_item * Z))
           (pages_to_ignore : gset Z) (tables : bool) : list element :=
  final_flush (fold_left (process_item pages_to_ignore tables) items pdf_init).

End WithExportLabels.

(** *** Sample items *)

Definition bullet (t : string) (page : Z) : doc_item :=
  DocItem ListItem LIST_ITEM t page false "" "".
Definition list_group (page : Z) : doc_item :=
  DocItem GroupItem LIST "" page false "" "".
Definition paragraph (t : string) (page : Z) : doc_item :=
  DocItem TextItem (OTHER_LABEL "text") t page false "" "".

(** Every label is exported. *)
Definition export_all (l : item_label) : bool := true.

(** A list of depth two followed by a paragraph, all on page 1. *)
Definition nested_list : list (doc_item * Z) :=
  [(list_group 1, 1); (bullet "a" 1, 2);
   (list_group 1, 2); (bullet "b" 1, 3);
   (paragraph "end" 1, 1)].

(** A document that ends with a list of two items, on pages 1 and 2. *)
Definition trailing_list : list (doc_item * Z) :=
  [(bullet "a" 1, 1); (bullet "b" 2, 1)].

(** The same list followed by a paragraph. *)
Definition inner_list : list (doc_item * Z) :=
  [(paragraph "x" 1, 1); (bullet "a" 1, 1); (bullet "b" 2, 1);
   (paragraph "end" 2, 1)].

End PdfUtil.

(* ===================================================================== *)
(** * Hybrid query: [coordinator/utils.py], [generate_sql_query] *)
(* ===================================================================== *)

Module Retrieval.

(** A row of one branch of the query: the entity [id] and the value of
    [rank() OVER (...)]. *)
Record ranked := Ranked { id : Z; rank : Z }.

(** Modelled from the spec: the SQL function [rrf_score], which the
    query calls and the repository does not define.  The specification
    gives the reciprocal-rank-fusion score [1 / (k + rank)] with a fixed
    constant [k], for example 60. *)
Definition rrf_score (k : Z) (rank : Z) : Q := 1 / inject_Z (k + rank).

Definition rank_asc (a b : ranked) : Prop := rank a <= rank b.
#[global] Instance rank_asc_dec : RelDecision rank_asc :=
  fun a b => Z.le_dec (rank a) (rank b).

(** A branch: [ORDER BY rank LIMIT 40]. *)
Definition branch (rows : list ranked) : list ranked :=
  take 40 (merge_sort rank_asc rows).

(** [(...) UNION ALL (...)]: the rows of both branches, duplicates
    kept. *)
Definition searches (vector lexical : list ranked) : list ranked :=
  branch vector ++ branch lexical.

(** [sum(rrf_score(searches.rank::int))] over the rows of the group of
    [i]. *)
Definition fused_score (k : Z) (rows : list ranked) (i : Z) : Q :=
  foldr Qplus 0%Q
        (map (fun r => rrf_score k (rank r))
             (filter (fun r => id r = i) rows)).

(** [GROUP BY searches.id, ...]: one row per id, with its score. *)
Definition grouped (k : Z) (rows : list ranked) : list (Z * Q) :=
  map (fun i => (i, fused_score k rows i)) (remove_dups (map id rows)).

Definition score_desc (a b : Z * Q) : Prop := Qle_bool b.2 a.2 = true.
#[global] Instance score_desc_dec : RelDecision score_desc :=
  fun a b => decide (Qle_bool b.2 a.2 = true).

(** The whole query: [ORDER BY score DESC LIMIT limit]. *)
Definition hybrid_query (k : Z) (limit : nat) (vector lexical : list ranked)
  : list (Z * Q) :=
  take limit (merge_sort score_desc (grouped k (searches vector lexical))).

End Retrieval.

(* ===================================================================== *)
(** * Store access: [retrieve_context], [add_manual_chunks_to_db] *)
(* ===================================================================== *)

Module Store.

(** The exceptions that occur. *)
Inductive exn :=
  | HTTPException (status_code : Z) (detail : string)
  | LibraryError (what : string)
  | UnboundLocalError (name : string).

Inductive outcome (A : Type) :=
  | Ok (a : A)
  | Raise (e : exn).
Arguments Ok {A} a.
Arguments Raise {A} e.

(** A connection handle. *)
Definition connection : Type := nat.

(** What the functions act on: the connections that are open, the next
    handle, and what was printed. *)
Record world := World {
  open_connections : gset connection;
  next_connection : connection;
  printed : list exn
}.

(** A computation that may raise and that acts on the world. *)
Definition M (A : Type) : Type := world -> outcome A * world.

Definition ret {A} (a : A) : M A := fun w => (Ok a, w).
Definition raise {A} (e : exn) : M A := fun w => (Raise e, w).
Definition bind {A B} (m : M A) (f : A -> M B) : M B :=
  fun w =>
    match m w with
    | (Ok a, w') => f a w'
    | (Raise e, w') => (Raise e, w')
    end.

Declare Scope py_scope.
Delimit Scope py_scope with py.
Notation "x <- m ;; f" := (bind m (fun x => f))
  (at level 100, m at next level, right associativity) : py_scope.
Notation "m ;; f" := (bind m (fun _ => f))
  (at level 100, right associativity) : py_scope.
Local Open Scope py_scope.

(** [try: body except Exception as e: handler(e)] *)
Definition try_except {A} (body : M A) (handler : exn -> M A) : M A :=
  fun w =>
    match body w with
    | (Ok a, w') => (Ok a, w')
    | (Raise e, w') => handler e w'
    end.

(** [try: body finally: fin]: [fin] always runs; if it raises, its
    exception replaces the outcome of [body]. *)
Definition try_finally {A} (body : M A) (fin : M unit) : M A :=
  fun w =>
    let '(r, w') := body w in
    match fin w' with
    | (Ok _, w'') => (r, w'')
    | (Raise e, w'') => (Raise e, w'')
    end.

(** [print(e)] *)
Definition print (e : exn) : M unit :=
  fun w => (Ok tt, {| open_connections := open_connections w;
                      next_connection := next_connection w;
                      printed := printed w ++ [e] |}).

(** [client.close()] *)
Definition close (client : connection) : M unit :=
  fun w => (Ok tt, {| open_connections := open_connections w ∖ {[client]};
                      next_connection := next_connection w;
                      printed := printed w |}).

(** The calls into the database driver and the embedding service. *)
Inductive op :=
  | OpConnect
  | OpCreateExtension
  | OpRegisterVector
  | OpCreateTable
  | OpGenerateEmbeddings (input_text : string)
  | OpCursor
  | OpExecute (query : string)
  | OpFetchall (query : string)
  | OpExecuteMany (query : string).

(** A chunk handed to [add_manual_chunks_to_db]. *)
Record manual_chunk (vector : Type) := ManualChunk {
  chunk_text : string;
  chunk_page_no : option Z;
  chunk_embedding : option vector    (* the key "embedding", if present *)
}.
Arguments chunk_text {vector} _.
Arguments chunk_page_no {vector} _.
Arguments chunk_embedding {vector} _.

Definition insert_query : string :=
  "INSERT INTO manuals (chunk, chunk_embedding, page_number, deviceType, deviceModel_used, url, docType) VALUES (%(chunk)s, %(chunk_embedding)s, %(page_number)s, %(deviceType)s, %(deviceModel_used)s, %(url)s, %(docType)s);".

Section WithEnvironment.
(** The environment of a run. *)
Variables (vector row : Type).
(** Whether a call fails, and with which exception. *)
Variable fault : op -> option exn.
(** The module constant [DB_ENV]. *)
Variable DB_ENV : string.
(** The results of the calls that succeed. *)
Variable embedding_of : string -> vector.
Variable rows_of : string -> list row.
(** [generate_sql_query] and the formatting of a vector as text. *)
Variable generate_sql_query : string -> string -> string -> option string -> string.
Variable format_vector : vector -> string.

(** A call into a library. *)
Definition call (o : op) : M unit :=
  fun w =>
    match fault o with
    | Some e => (Raise e, w)
    | None => (Ok tt, w)
    end.

(** [psycopg.connect(...)] *)
Definition connect : M connection :=
  fun w =>
    match fault OpConnect with
    | Some e => (Raise e, w)
    | None =>
        let c := next_connection w in
        (Ok c, {| open_connections := {[c]} ∪ open_connections w;
                  next_connection := S c;
                  printed := printed w |})
    end.

(** [str(e)] *)
Definition str_exn (e : exn) : string :=
  match e with
  | HTTPException _ _ => ""
  | LibraryError what => what
  | UnboundLocalError name =>
      "cannot access local variable '" +:+ name +:+
      "' where it is not associated with a value"
  end.

Definition is_HTTPException (e : exn) : bool :=
  match e with
  | HTTPException _ _ => true
  | _ => false
  end.

(** [utils_db.get_psycopg_client] *)
Definition get_psycopg_client : M connection :=
  try_except
    (if String.eqb DB_ENV "local" || String.eqb DB_ENV "aws"
     then connect
     else raise (HTTPException 501
            "Invalid db environment specified. Please set DB_ENV to 'aws' or 'local'."))
    (fun e =>
       if is_HTTPException e then raise e
       else raise (HTTPException 500
              ("Error occured connecting to " +:+ DB_ENV +:+
               " db client with psycopg. Error message:" +:+ str_exn e))).

Definition generate_embeddings (input_text : string) : M vector :=
  call (OpGenerateEmbeddings input_text) ;; ret (embedding_of input_text).

(** [retrieve_context] *)
Definition retrieve_body (client : connection) (query_string deviceType : string)
  : M (list row * list row) :=
  call OpRegisterVector ;;
  embedding <- generate_embeddings query_string ;;
  let embedding_str := format_vector embedding in
  let manuals_query :=
    generate_sql_query "manuals" query_string embedding_str (Some deviceType) in
  let ticket_query :=
    generate_sql_query "tickets" query_string embedding_str None in
  call OpCursor ;;
  call (OpExecute manuals_query) ;;
  call (OpFetchall manuals_query) ;;
  let manuals := rows_of manuals_query in
  call (OpExecute ticket_query) ;;
  call (OpFetchall ticket_query) ;;
  let tickets := rows_of ticket_query in
  ret (tickets, manuals).

Definition retrieve_context (query_string deviceType : string)
  : M (list row * list row) :=
  client <- get_psycopg_client ;;
  try_finally
    (try_except (retrieve_body client query_string deviceType)
                (fun e => raise e))
    (close client).

(** [add_manual_chunks_to_db] *)
Fixpoint build_chunk_list (chunks : list (manual_chunk vector)) : M (list string) :=
  match chunks with
  | [] => ret []
  | c :: chunks' =>
      chunk_embedding <-
        match chunk_embedding c with
        | Some v => ret v
        | None => generate_embeddings (chunk_text c)
        end ;;
      dps <- build_chunk_list chunks' ;;
      ret (format_vector chunk_embedding :: dps)
  end.

Definition add_body (client : connection) (chunks : list (manual_chunk vector)) : M unit :=
  call OpCreateExtension ;;
  call OpRegisterVector ;;
  call OpCreateTable ;;
  chunk_list <- build_chunk_list chunks ;;
  call OpCursor ;;
  call (OpExecuteMany insert_query).

(** The assignment [client = get_psycopg_client()] is inside the
    [try]: when it raises, the handler prints and the [finally] clause
    reads the unbound variable [client]. *)
Definition add_manual_chunks_to_db (chunks : list (manual_chunk vector)) : M unit :=
  fun w =>
    match get_psycopg_client w with
    | (Ok client, w') =>
        try_finally
          (try_except (add_body client chunks) (fun e => print e))
          (close client) w'
    | (Raise e, w') =>
        try_finally (print e) (raise (UnboundLocalError "client")) w'
    end.

(** The calls of a run of [retrieve_context] after the connection is
    made, in order. *)
Definition retrieve_ops (query_string deviceType : string) : list op :=
  let embedding_str := format_vector (embedding_of query_string) in
  let manuals_query :=
    generate_sql_query "manuals" query_string embedding_str (Some deviceType) in
  let ticket_query :=
    generate_sql_query "tickets" query_string embedding_str None in
  [OpRegisterVector; OpGenerateEmbeddings query_string; OpCursor;
   OpExecute manuals_query; OpFetchall manuals_query;
   OpExecute ticket_query; OpFetchall ticket_query].

(** What a run of [retrieve_context] returns when no call fails:
    [{"tickets": tickets, "manuals": manuals}]. *)
Definition retrieve_result (query_string deviceType : string)
  : list row * list row :=
  let embedding_str := format_vector (embedding_of query_string) in
  let manuals_query :=
    generate_sql_query "manuals" query_string embedding_str (Some deviceType) in
  let ticket_query :=
    generate_sql_query "tickets" query_string embedding_str None in
  (rows_of ticket_query, rows_of manuals_query).

(** The first call of a list that fails. *)
Fixpoint first_fault (ops : list op) : option exn :=
  match ops with
  | [] => None
  | o :: ops' =>
      match fault o with
      | Some e => Some e
      | None => first_fault ops'
      end
  end.

(** The calls of [add_manual_chunks_to_db] after the connection is
    made: an embedding is requested for the chunks that bring none. *)
Definition embed_ops (chunks : list (manual_chunk vector)) : list op :=
  flat_map
    (fun c =>
       match chunk_embedding c with
       | Some _ => []
       | None => [OpGenerateEmbeddings (chunk_text c)]
       end)
    chunks.

Definition add_ops (chunks : list (manual_chunk vector)) : list op :=
  [OpCreateExtension; OpRegisterVector; OpCreateTable]
    ++ embed_ops chunks ++ [OpCursor; OpExecuteMany insert_query].

(** Propagation as the specification words it, for the insertion: a
    failing call makes the function fail. *)
Definition claimed_insert_propagates (chunks : list (manual_chunk vector))
           (w : world) : Prop :=
  forall e, first_fault (add_ops chunks) = Some e ->
            exists e', (add_manual_chunks_to_db chunks w).1 = Raise e'.

End WithEnvironment.

(** *** A sample run: the bulk insert fails *)

Definition insert_fails (o : op) : option exn :=
  match o with
  | OpExecuteMany _ => Some (LibraryError "server closed the connection")
  | _ => None
  end.

Definition sample_chunks : list (manual_chunk unit) :=
  [ManualChunk unit "text of the chunk" (Some 1) None].

Definition fresh_world : world := World ∅ 0%nat [].

End Store.

(* ===================================================================== *)
(** * Notions for further properties of the chunker *)
(* ===================================================================== *)

Module ChunkingNotions.
Import PyStr Chunking.

(** [t] occurs in [s] as a contiguous piece. *)
Definition occurs_in (t s : string) : Prop :=
  exists pre post, s = pre +:+ t +:+ post.

(** The text of a chunk that merges all of [segs]: every segment preceded
    by a space. *)
Definition joined (segs : list segment) : string :=
  concat_str (map (fun seg => " " +:+ seg.1) segs).

(** The smallest page of a non-empty list of segments. *)
Definition min_page (seg0 : segment) (segs : list segment) : Z :=
  fold_left (fun p seg => Z.min p seg.2) segs seg0.2.

(** [t] is in the accumulator or in a sealed chunk. *)
Definition kept (s : state) (t : string) : Prop :=
  occurs_in t (current_string s) \/
  exists k, k ∈ (output_dict s).*1 /\ occurs_in t k.

(** A recorded page is the page of a segment, and only the empty text is
    sealed without a page. *)
Definition page_ok (segs : list segment) (k : string) (v : option Z) : Prop :=
  match v with
  | Some p => p ∈ segs.*2
  | None => k = ""
  end.

Definition pages_inv (segs : list segment) (s : state) : Prop :=
  page_ok segs (current_string s) (page_num s) /\
  Forall (fun kv => page_ok segs kv.1 kv.2) (output_dict s).

End ChunkingNotions.

(* ===================================================================== *)
(** * Notions for further properties of the page detector *)
(* ===================================================================== *)

Module PdfUtilNotions.
Import PyStr PdfUtil.

(** [has_toc_indicators] of the page loop: some entry of [toc_patterns]
    is found in the text. *)
Definition has_toc_indicators (re_search : string -> string -> bool)
           (text : string) : bool :=
  search_alt toc_literals text ||
  existsb (fun pattern => re_search pattern text) toc_regexes.

(** What the title-page rule and the notices rule add for an English
    page. *)
Definition title_notice_marks (page_num : Z) (text : string) (r : gset Z)
  : gset Z :=
  let r :=
    if (page_num =? 0) &&
       ((count_words text <? 100)%nat || search_alt title_page_alts text)
    then {[page_num]} ∪ r else r in
  if search_alt notices_alts text && (page_num <=? 10)
  then {[page_num]} ∪ r else r.

(** The test of the table-of-contents branch for an English page. *)
Definition takes_toc_branch (re_search : string -> string -> bool)
           (re_findall_count : string -> string -> nat)
           (st : loop_state) (page_num : Z) (text : string) : bool :=
  (has_toc_indicators re_search text ||
   (in_toc_section st &&
    (2 <? re_findall_count page_number_pattern text)%nat))
  && (page_num <? 20).

(** The page loop on a list of pages. *)
Definition pages_loop (detect : string -> option string)
           (re_search : string -> string -> bool)
           (re_findall_count : string -> string -> nat)
           (pages : list page) : loop_state :=
  fold_left (page_step detect re_search re_findall_count) (enumerate pages)
            (LoopState ∅ false 0%nat).

(** No title of the table of contents matches the denylist. *)
Definition no_denylisted (toc : list toc_entry) : Prop :=
  Forall (fun e => search_alt denylist (title e) = false) toc.

End PdfUtilNotions.

(* ===================================================================== *)
(** * Full-page tables: [ingestor/pdf_util.py], [get_fullpage_tables] *)
(* ===================================================================== *)

Module PdfTables.
Import PyStr PdfUtil.

Section WithLibraries.
(** [docling_core]'s constant [DEFAULT_EXPORT_LABELS]. *)
Variable DEFAULT_EXPORT_LABELS : item_label -> bool.
(** The test of lines 221 to 225 on the bounding box of an item and the
    dimensions of the first page: the rounded height ratio is at least 0.7
    and the rounded width ratio is above 0.6.  It is computed in floating
    point and taken as given. *)
Variable is_fullpage : doc_item -> bool.

(** One iteration of the loop of [get_fullpage_tables]; [pti] is the set
    being extended. *)
Definition fullpage_step (pti : gset Z) (il : doc_item * Z) : gset Z :=
  let '(item, level) := il in
  if negb (DEFAULT_EXPORT_LABELS (label item))
     || bool_decide (prov_page_no item - 1 ∈ pti)
  then pti
  else if isinstance item [TableItem] && is_fullpage item
       then {[prov_page_no item - 1]} ∪ pti
       else pti.

(** [get_fullpage_tables(result, pti)]; [n_pages] is
    [len(result.document.pages)] and [items] the stream of
    [iterate_items()]. *)
Definition get_fullpage_tables (n_pages : nat) (items : list (doc_item * Z))
           (pti : gset Z) : gset Z :=
  if (0 <? n_pages)%nat then fold_left fullpage_step items pti else pti.

(** [process_pdf] from the conversion on: the full-page tables are
    ignored unless [big_tables] is set. *)
Definition process_pdf_document (n_pages : nat) (items : list (doc_item * Z))
           (pages_to_ignore : gset Z) (tables big_tables : bool)
  : list element :=
  let pages_to_ignore :=
    if negb big_tables
    then get_fullpage_tables n_pages items pages_to_ignore
    else pages_to_ignore in
  process_pdf DEFAULT_EXPORT_LABELS items pages_to_ignore tables.

(** An exported table that passes the full-page test. *)
Definition fullpage_table (item : doc_item) : Prop :=
  DEFAULT_EXPORT_LABELS (label item) = true /\
  isinstance item [TableItem] = true /\
  is_fullpage item = true.

End WithLibraries.

(** ** Notions for the properties of the lineariser *)

(** The page of an element is known and is not ignored. *)
Definition page_visible (pages_to_ignore : gset Z) (el : element) : Prop :=
  exists p, el.2 = Some p /\ p - 1 ∉ pages_to_ignore.

(** The invariant of the loop of [process_pdf] on pages. *)
Definition pages_visible (pages_to_ignore : gset Z) (st : pdf_state) : Prop :=
  Forall (page_visible pages_to_ignore) (elements st) /\
  (forall p, current_list_page st = Some p -> p - 1 ∉ pages_to_ignore) /\
  (current_list st <> [] -> is_Some (current_list_page st)).

(** Two items that the loop cannot tell apart when their page is
    ignored: same class, label, page and level. *)
Definition same_outline (a b : doc_item * Z) : Prop :=
  cls a.1 = cls b.1 /\ label a.1 = label b.1 /\
  prov_page_no a.1 = prov_page_no b.1 /\ a.2 = b.2.

(** What a single item outside of lists emits. *)
Definition emitted (tables : bool) (item : doc_item) (level : Z)
  : option element :=
  let page := Some (prov_page_no item) in
  if isinstance item [TextItem] && bool_decide (label item = TITLE)
  then Some ("# " +:+ item_text item, page)
  else if (isinstance item [TextItem] && bool_decide (label item = SECTION_HEADER))
          || isinstance item [SectionHeaderItem]
  then Some (header_marker level +:+ item_text item, page)
  else if isinstance item [TextItem] then Some (item_text item, page)
  else if isinstance item [TableItem] && tables
  then Some (table_markdown item, page)
  else None.

(** What an item contributes when no list is open: nothing if its label
    is not exported or its page is ignored. *)
Definition contribution (DEFAULT_EXPORT_LABELS : item_label -> bool)
           (pages_to_ignore : gset Z) (tables : bool) (il : doc_item * Z)
  : option element :=
  if DEFAULT_EXPORT_LABELS (label il.1)
     && negb (bool_decide (prov_page_no il.1 - 1 ∈ pages_to_ignore))
  then emitted tables il.1 il.2
  else None.

(** A line is in the list buffer or inside an emitted segment. *)
Definition line_kept (st : pdf_state) (l : string) : Prop :=
  l ∈ current_list st \/
  exists el, el ∈ elements st /\ ChunkingNotions.occurs_in l el.1.

(** A non-empty list buffer is always in list mode. *)
Definition buffer_open (st : pdf_state) : Prop :=
  current_list st <> [] -> in_list st = true.

(** *** Sample items *)

(** A table on page 2, and a stream in which it stands between two
    paragraphs; every table is taken to fill its page. *)
Definition page_table : doc_item :=
  DocItem TableItem (OTHER_LABEL "table") "" 2 false "" "| a | b |".

Definition every_table (item : doc_item) : bool := isinstance item [TableItem].

Definition table_stream : list (doc_item * Z) :=
  [(paragraph "x" 1, 1); (page_table, 1); (paragraph "y" 2, 1)].

(** *** Streams without group items *)

(** An export set that holds labels of items only, none of the group
    labels [LIST] and [ORDERED_LIST], as the set of [docling_core]. *)
Definition item_labels_only (l : item_label) : bool :=
  match l with
  | LIST | ORDERED_LIST => false
  | _ => true
  end.

(** The items of a list nested in a list, as [iterate_items()] yields
    them: no group items, the inner item at a deeper level. *)
Definition nested_items : list (doc_item * Z) :=
  [(bullet "a" 1, 2); (bullet "b" 1, 3)].

(** The marker and the text of a list item. *)
Definition marked_text (item : doc_item) : string :=
  (if enumerated item then marker item +:+ " " else "- ") +:+ item_text item.

End PdfTables.

(* ===================================================================== *)
(** * Ticket insertion and the request handler:
      [ingestor/utils.py], [app_coordinator_function.py], [app.py] *)
(* ===================================================================== *)

Module Tickets.
Import Store.
Local Open Scope py_scope.

Definition create_tickets_table : string :=
  "CREATE TABLE IF NOT EXISTS tickets (id bigserial PRIMARY KEY, chunk text, chunk_embedding vector(512), deviceType text, ticketID text, created_at timestamp DEFAULT CURRENT_TIMESTAMP );".

Definition insert_ticket : string :=
  "INSERT INTO tickets (chunk, chunk_embedding, deviceType, ticketID) VALUES (%s, %s, %s, %s);".

Section WithEnvironment.
Variable vector : Type.
Variable fault : op -> option exn.
Variable DB_ENV : string.
Variable embedding_of : string -> vector.
Variable format_vector : vector -> string.

(** The body of the [try] of [add_ticket_to_db] after the connection is
    made. *)
Definition add_ticket_body (client : connection) (ticket : string) : M unit :=
  call fault OpCreateExtension ;;
  call fault OpRegisterVector ;;
  call fault (OpExecute create_tickets_table) ;;
  chunk_embedding <- generate_embeddings vector fault embedding_of ticket ;;
  let chunk_embedding := format_vector chunk_embedding in
  call fault (OpExecute insert_ticket).

(** [add_ticket_to_db]; as in [add_manual_chunks_to_db] the connection is
    made inside the [try] and closed in the [finally] clause. *)
Definition add_ticket_to_db (ticket devicetype ticketID : string) : M unit :=
  fun w =>
    match get_psycopg_client fault DB_ENV w with
    | (Ok client, w') =>
        try_finally
          (try_except (add_ticket_body client ticket) (fun e => print e))
          (close client) w'
    | (Raise e, w') =>
        try_finally (print e) (raise (UnboundLocalError "client")) w'
    end.

(** The calls of [add_ticket_to_db] after the connection is made. *)
Definition add_ticket_ops (ticket : string) : list op :=
  [OpCreateExtension; OpRegisterVector; OpExecute create_tickets_table;
   OpGenerateEmbeddings ticket; OpExecute insert_ticket].

End WithEnvironment.

(** ** The request handler *)

(** The calls of [process_ticket]: those of the store, and the steps that
    go to pydantic and to the language model. *)
Inductive app_op :=
  | Lib (o : op)
  | ModelValidate                 (* NewTicket.model_validate *)
  | GenerateSummaryQueryString    (* generate_summary_query_string *)
  | QueryMainLlm                  (* query_main_llm *)
  | ProcessContext.               (* process_context: a missing key *)

(** The answer of the handler: [{"statusCode": ..., "body": ...}]. *)
Record answer (response : Type) := Answer {
  statusCode : Z;
  body : response + string
}.
Arguments Answer {response} _ _.
Arguments statusCode {response} _.
Arguments body {response} _.

Section WithApplication.
Variables (vector row response : Type).
Variable fault : app_op -> option exn.
Variable DB_ENV : string.
Variable embedding_of : string -> vector.
Variable rows_of : string -> list row.
Variable generate_sql_query : string -> string -> string -> option string -> string.
Variable format_vector : vector -> string.
(** [process_description(description, use_min_length=False)] *)
Variable process_description : string -> string.
(** The query string of the summary the model returns for a
    description. *)
Variable query_string_of : string -> string.
(** The response assembled from the description and the context. *)
Variable response_of : string -> list row * list row -> response.

Definition call_app (o : app_op) : M unit :=
  fun w =>
    match fault o with
    | Some e => (Raise e, w)
    | None => (Ok tt, w)
    end.

(** The body of the [try] of [process_ticket]. *)
Definition process_ticket_body (description_org deviceType : string) : M response :=
  call_app ModelValidate ;;
  let description := process_description description_org in
  call_app GenerateSummaryQueryString ;;
  let query_string := query_string_of description in
  retrieved_context <-
    retrieve_context vector row (fun o => fault (Lib o)) DB_ENV embedding_of
                     rows_of generate_sql_query format_vector
                     query_string deviceType ;;
  call_app QueryMainLlm ;;
  call_app ProcessContext ;;
  ret (response_of description retrieved_context).

(** [process_ticket]: an [HTTPException] is raised again, any other
    exception becomes an [HTTPException] with status 500. *)
Definition process_ticket (description_org deviceType : string) : M response :=
  try_except
    (process_ticket_body description_org deviceType)
    (fun e =>
       if is_HTTPException e then raise e
       else raise (HTTPException 500
              ("Unknown error occured while processing. Error message:"
               +:+ str_exn e))).

(** [handler] of [app.py]. *)
Definition handler (description deviceType : string) : M (answer response) :=
  try_except
    (response <- process_ticket description deviceType ;;
     ret (Answer 200 (inl response)))
    (fun e =>
       match e with
       | HTTPException status_code detail => ret (Answer status_code (inr detail))
       | _ => ret (Answer 500 (inr (str_exn e)))
       end).

End WithApplication.

(** *** A sample run: the connection cannot be made *)

Definition connect_fails (o : op) : option exn :=
  match o with
  | OpConnect => Some (LibraryError "connection refused")
  | _ => None
  end.

Definition app_fails_at_main_llm (o : app_op) : option exn :=
  match o with
  | QueryMainLlm => Some (LibraryError "model not found")
  | _ => None
  end.

End Tickets.

(* ===================================================================== *)
(** * Relevance of a manual: [ingestor/utils.py], [determine_relevancy] *)
(* ===================================================================== *)

Module Relevancy.
Import PyStr.

(** The values of the metadata of a manual: a string, a list of strings
    (the documented type of the category names), or anything else. *)
Inductive value :=
  | Str (s : string)
  | StrList (l : list string)
  | Other.

(** The metadata of a manual: a dict with string keys. *)
Definition manual := gmap string value.

Definition relevant_keywords : list string :=
  ["maintenance"; "repair"; "troubleshooting"; "service";
   "diagnostics"; "troubleshoot"].

(** [\d] on the ASCII range. *)
Definition isdigit (c : ascii) : bool :=
  let n := nat_of_ascii c in (48 <=? n)%nat && (n <=? 57)%nat.

Fixpoint skip_digits (s : string) : string :=
  match s with
  | String c s' => if isdigit c then skip_digits s' else s
  | EmptyString => EmptyString
  end.

(** [re.fullmatch(r"\d*", s)] *)
Fixpoint all_digits (s : string) : bool :=
  match s with
  | String c s' => isdigit c && all_digits s'
  | EmptyString => true
  end.

(** What follows a leading [cat]. *)
Definition after_cat (s : string) : option string :=
  match s with
  | String _ (String _ (String _ r)) =>
      if String.prefix "cat" s then Some r else None
  | _ => None
  end.

(** [re.match(r"cat\d*_name", s)]: the pattern matches at the start of
    [s].  The character after the digits is [_], which is no digit, so
    the digits taken are the whole run. *)
Definition match_cat_name (s : string) : bool :=
  match after_cat s with
  | Some r => String.prefix "_name" (skip_digits r)
  | None => false
  end.

(** [re.search(r"cat\d*_name", s)]: the pattern matches somewhere. *)
Fixpoint search_cat_name (s : string) : bool :=
  match_cat_name s ||
  match s with
  | String _ s' => search_cat_name s'
  | EmptyString => false
  end.

(** [manual.keys()] *)
Definition keys (m : manual) : list string := (map_to_list m).*1.

Definition relevant_fields (m : manual) : list string :=
  "contentType" :: filter (fun key => search_cat_name key = true) (keys m).

(** [any(keyword in value.lower() for keyword in relevant_keywords)] *)
Definition has_keyword (v : string) : bool :=
  existsb (fun keyword => contains keyword (lower v)) relevant_keywords.

(** The test of the loop body for one field. *)
Definition field_relevant (m : manual) (field : string) : bool :=
  match m !! field with
  | Some (Str v) => has_keyword v
  | _ => false
  end.

(** [determine_relevancy(manual)]: [True] at the first relevant field. *)
Definition determine_relevancy (m : manual) : bool :=
  existsb (field_relevant m) (relevant_fields m).

(** ** Notions for the properties *)

(** The language of [cat\d*_name], somewhere in the key. *)
Definition cat_name_key (key : string) : Prop :=
  exists pre digits post,
    key = pre +:+ "cat" +:+ digits +:+ "_name" +:+ post /\
    all_digits digits = true.

(** The structure the downloader documents: every category name is a
    list of strings. *)
Definition documented (m : manual) : Prop :=
  forall key v, m !! key = Some v -> cat_name_key key -> exists l, v = StrList l.

(** *** A sample manual *)

Definition service_manual : manual :=
  <["contentType" := Str "Maintenance and Service Guide"]>
  (<["cat1_name" := StrList ["repair"]]>
  (<["url" := Str "https://example.org/guide.pdf"]> ∅)).

End Relevancy.

(* ===================================================================== *)
(** * The text of the hybrid query: [coordinator/utils.py],
      [generate_sql_query] *)
(* ===================================================================== *)

Module SqlQuery.
Import PyStr.

Definition nl_char : ascii := ascii_of_nat 10.
Definition tab_char : ascii := ascii_of_nat 9.
Definition nl : string := String nl_char "".
Definition tab : string := String tab_char "".

(** A string literal that spans several source lines. *)
Definition lines (l : list string) : string := join nl l.

(** The characters [str.maketrans] maps to the empty string: the double
    quote, the backslash, the percent sign, the underscore and the single
    quote. *)
Definition removed : list ascii :=
  [ascii_of_nat 34; ascii_of_nat 92; ascii_of_nat 37; ascii_of_nat 95;
   ascii_of_nat 39].

(** [query_str.translate(translate_table)] *)
Fixpoint translate (s : string) : string :=
  match s with
  | String c s' =>
      if bool_decide (c ∈ removed) then translate s'
      else String c (translate s')
  | EmptyString => EmptyString
  end.

(** [s.replace(a, b)] for one-character strings [a] and [b]. *)
Fixpoint replace (a b : ascii) (s : string) : string :=
  match s with
  | String c s' => String (if Ascii.eqb c a then b else c) (replace a b s')
  | EmptyString => EmptyString
  end.

(** [.replace("\n", " ").replace("\t", " ")] *)
Definition flat (s : string) : string :=
  replace tab_char " " (replace nl_char " " s).

(** [str.format] of the optional device type: [None] prints as
    [None]. *)
Definition format_deviceType (deviceType : option string) : string :=
  match deviceType with
  | Some d => d
  | None => "None"
  end.

(** The columns of the outer [SELECT], of the two inner [SELECT]s and of
    [GROUP BY]: the ticket id for the table [tickets], the columns of a
    manual for every other table name. *)
Definition outer_columns (table_name : string) : string :=
  if String.eqb table_name "tickets" then "searches.ticketID,"
  else lines ["searches.page_number,";
              "        searches.url,";
              "        searches.docType,"].

Definition inner_columns (table_name : string) : string :=
  if String.eqb table_name "tickets" then "ticketID,"
  else lines ["page_number,";
              "        url,";
              "        docType,"].

Definition group_columns (table_name : string) : string :=
  if String.eqb table_name "tickets" then "searches.ticketID "
  else "searches.page_number, searches.url, searches.docType ".

(** The text built by the statements of lines 121 to 179, before the
    line breaks are replaced. *)
Definition sql_text (table_name query_str embedding_str : string) (limit : Z)
           (deviceType : option string) : string :=
  let query_str := translate query_str in
  let sql_query :=
    lines ["SELECT";
           "    searches.id,";
           "    searches.chunk, "] in
  let sql_query := sql_query +:+ outer_columns table_name in
  let sql_query := sql_query +:+
    lines ["sum(rrf_score(searches.rank::int)) AS score";
           "FROM (";
           tab +:+ "(";
           tab +:+ tab +:+ "SELECT";
           "            id,";
           "            chunk,"] in
  let sql_query := sql_query +:+ inner_columns table_name in
  let sql_query := sql_query +:+
    lines ["rank() OVER (ORDER BY " +:+ embedding_str
             +:+ " <=> chunk_embedding)::int AS rank";
           tab +:+ tab +:+ "FROM " +:+ table_name;
           "        "] in
  let sql_query :=
    if String.eqb table_name "manuals"
    then sql_query +:+ "WHERE deviceType = '"
           +:+ format_deviceType deviceType +:+ "' "
    else sql_query in
  let sql_query := sql_query +:+
    lines ["ORDER BY rank";
           tab +:+ tab +:+ "LIMIT 40";
           tab +:+ ")"] in
  let sql_query := sql_query +:+
    lines ["UNION ALL";
           tab +:+ "(";
           tab +:+ tab +:+ "SELECT";
           tab +:+ tab +:+ tab +:+ "id,";
           "            chunk,"] in
  let sql_query := sql_query +:+ inner_columns table_name in
  let sql_query := sql_query +:+
    lines ["rank() OVER (ORDER BY ts_rank_cd(to_tsvector(chunk), plainto_tsquery('"
             +:+ query_str +:+ "')) DESC) AS rank";
           tab +:+ tab +:+ "FROM " +:+ table_name;
           tab +:+ tab +:+ "WHERE"] in
  let sql_query :=
    if String.eqb table_name "manuals"
    then sql_query +:+ " deviceType ='"
           +:+ format_deviceType deviceType +:+ "' AND "
    else sql_query in
  let sql_query := sql_query +:+
    lines [" plainto_tsquery('english', '" +:+ query_str
             +:+ "') @@ to_tsvector('english', chunk)";
           tab +:+ tab +:+ "ORDER BY rank";
           tab +:+ tab +:+ "LIMIT 40";
           tab +:+ ")";
           ") searches "] in
  let sql_query := sql_query +:+ "GROUP BY searches.id, searches.chunk," in
  let sql_query := sql_query +:+ group_columns table_name in
  sql_query +:+
    lines ["ORDER BY score DESC";
           "    LIMIT " +:+ pretty limit +:+ ";"].

(** [generate_sql_query(table_name, query_str, embedding_str, limit,
    deviceType)] *)
Definition generate_sql_query (table_name query_str embedding_str : string)
           (limit : Z) (deviceType : option string) : string :=
  flat (sql_text table_name query_str embedding_str limit deviceType).

(** ** Notions for the properties *)

(** The number of occurrences of a character. *)
Fixpoint count (c : ascii) (s : string) : nat :=
  match s with
  | String a s' => ((if Ascii.eqb a c then 1 else 0) + count c s')%nat
  | EmptyString => 0%nat
  end.

End SqlQuery.

(* ===================================================================== *)
(** * HTML linearisation: [ingestor/html_util.py], [elements_to_text] *)
(* ===================================================================== *)

Module HtmlUtil.
Import PyStr.

(** [el_dict["type"]]: the three types the function tells apart, and any
    other. *)
Inductive el_type :=
  | Title
  | NarrativeText
  | ListItem
  | OtherType (name : string).

(** [el.to_dict()]: the type, the text and, read for a title only,
    [metadata["category_depth"]]. *)
Record html_element := HtmlElement {
  type : el_type;
  text : string;
  category_depth : Z
}.

(** The local variables of [elements_to_text]: the list [text], under the
    name [parts], and the buffer of list items.  The flag [in_list] is
    written and never read. *)
Record html_state := HtmlState {
  parts : list string;
  in_list : bool;
  current_list : list string
}.

Definition nl : string := String (ascii_of_nat 10) "".

(** [if current_list: text.append("\n".join(current_list));
     current_list.clear()] *)
Definition flush (st : html_state) : list string :=
  match current_list st with
  | _ :: _ => parts st ++ [join nl (current_list st)]
  | [] => parts st
  end.

(** [marker = "#" * (category_depth + 1) + " "] *)
Definition marker (el : html_element) : string :=
  PyStr.repeat "#" (category_depth el + 1) +:+ " ".

(** One iteration of [for el in html_elements]. *)
Definition step (st : html_state) (el : html_element) : html_state :=
  match type el with
  | Title =>
      {| parts := flush st ++ [marker el +:+ text el];
         in_list := false; current_list := [] |}
  | NarrativeText =>
      {| parts := flush st ++ [text el];
         in_list := false; current_list := [] |}
  | ListItem =>
      {| parts := parts st;
         in_list := true;
         current_list := current_list st ++ ["- " +:+ text el] |}
  | OtherType _ =>
      {| parts := flush st ++ [text el];
         in_list := false; current_list := [] |}
  end.

Definition html_init : html_state :=
  {| parts := []; in_list := false; current_list := [] |}.

(** [elements_to_text(html_elements)] *)
Definition elements_to_text (html_elements : list html_element) : string :=
  strip (join nl (flush (fold_left step html_elements html_init))).

(** ** Notions for the properties *)

(** The line an element stands for. *)
Definition line (el : html_element) : string :=
  match type el with
  | Title => marker el +:+ text el
  | ListItem => "- " +:+ text el
  | _ => text el
  end.

(** The text so far, as a flush and the final join would give it. *)
Definition text_so_far (st : html_state) : string := join nl (flush st).

End HtmlUtil.

(* ===================================================================== *)
(** * Ingestion of a manual: [ingestor_app.py], [add_manual] *)
(* ===================================================================== *)

Module Ingestor.
Import PyStr Chunking PdfUtil PdfTables.

(** [for t, n in text]: the chunker compares the page numbers it is
    given, so a segment is read as a text and an integer.  A segment
    whose page is [None] is outside of what [Chunking] describes. *)
Definition as_segment (el : element) : option segment :=
  match el.2 with
  | Some n => Some (el.1, n)
  | None => None
  end.

Definition as_segments (els : list element) : option (list segment) :=
  mapM as_segment els.

Section WithLibraries.
Variable detect : string -> option string.
Variable re_search : string -> string -> bool.
Variable re_findall_count : string -> string -> nat.
Variable re_match_toc : string -> option (string * Z).
Variable DEFAULT_EXPORT_LABELS : item_label -> bool.
Variable is_fullpage : doc_item -> bool.

(** Lines 57 to 62 of [add_manual], for a downloaded PDF: [doc] is the
    document as [fitz] opens it, [n_pages] and [items] are the pages and
    the item stream of its conversion.  [process_pdf] is called with its
    defaults, [tables=False] and [big_tables=False], and [naive_chunking]
    with [overlap=True]. *)
Definition manual_chunks (doc : document) (n_pages : nat)
           (items : list (doc_item * Z)) : option (list chunk) :=
  let pages_to_ignore :=
    detect_irrelevant_pages detect re_search re_findall_count re_match_toc doc in
  let elements :=
    process_pdf_document DEFAULT_EXPORT_LABELS is_fullpage n_pages items
                         pages_to_ignore false false in
  segs ← as_segments elements;
  Some (naive_chunking segs true).

End WithLibraries.

End Ingestor.

(* ===================================================================== *)
(** * Properties of the string operations *)
(* ===================================================================== *)

Module PyStrFacts.
Import PyStr.

Lemma str_app_cons c (s1 s2 : string) : String c s1 +:+ s2 = String c (s1 +:+ s2).
Proof. reflexivity. Qed.

Lemma str_app_nil_l (s : string) : "" +:+ s = s.
Proof. reflexivity. Qed.

Lemma len_app (s1 s2 : string) : len (s1 +:+ s2) = (len s1 + len s2)%nat.
Proof.
  unfold len. induction s1 as [|c s1 IH]; [reflexivity|].
  rewrite str_app_cons. cbn [String.length]. now rewrite IH.
Qed.

Lemma str_app_nil_r (s : string) : s +:+ "" = s.
Proof.
  induction s as [|c s IH]; [reflexivity|]. now rewrite str_app_cons, IH.
Qed.

Lemma str_app_assoc (s1 s2 s3 : string) :
  (s1 +:+ s2) +:+ s3 = s1 +:+ (s2 +:+ s3).
Proof.
  induction s1 as [|c s1 IH]; [reflexivity|]. now rewrite !str_app_cons, IH.
Qed.

Lemma prefix_app (s1 s2 : string) : String.prefix s1 (s1 +:+ s2) = true.
Proof.
  induction s1 as [|c s1 IH].
  - now destruct s2.
  - rewrite str_app_cons. cbn [String.prefix].
    destruct (ascii_dec c c); [exact IH|congruence].
Qed.

Lemma prefix_refl (s : string) : String.prefix s s = true.
Proof. pose proof (prefix_app s "") as H. now rewrite str_app_nil_r in H. Qed.

Lemma prefix_app_r (p s1 s2 : string) :
  String.prefix p s1 = true -> String.prefix p (s1 +:+ s2) = true.
Proof.
  revert s1. induction p as [|c p IH]; intros s1.
  - intros _. now destruct (s1 +:+ s2).
  - destruct s1 as [|c1 s1]; [discriminate|].
    rewrite str_app_cons. cbn [String.prefix].
    destruct (ascii_dec c c1); [apply IH|discriminate].
Qed.

(** The first character of a stripped string is never a space. *)
Lemma lstrip_head (s : string) c r : lstrip s = String c r -> isspace c = false.
Proof.
  induction s as [|a s IH]; simpl; [discriminate|].
  destruct (isspace a) eqn:E; [exact IH|].
  intros [= <- <-]. exact E.
Qed.

Lemma rstrip_head (s : string) c r :
  rstrip s = String c r -> exists r', s = String c r'.
Proof.
  destruct s as [|a s]; simpl; [discriminate|].
  destruct (rstrip s).
  - destruct (isspace a); [discriminate|]. intros [= <- <-]. eauto.
  - intros [= <- <-]. eauto.
Qed.

Lemma strip_head (s : string) c r : strip s = String c r -> isspace c = false.
Proof.
  unfold strip. intros H.
  destruct (rstrip_head _ _ _ H) as [r' Hr]. eapply lstrip_head, Hr.
Qed.

End PyStrFacts.

(* ===================================================================== *)
(** * Properties of the chunker *)
(* ===================================================================== *)

Module ChunkingFacts.
Import PyStr PyStrFacts Chunking.

(** Projections of a state that was just built. *)
Ltac state_simpl :=
  cbn [current_string last_str page_num output_dict fst snd].

(** ** The dict *)

Lemma dict_set_keys k v (d : dict) k' :
  k' ∈ (dict_set k v d).*1 <-> k' = k \/ k' ∈ d.*1.
Proof.
  induction d as [|[k0 v0] d IH]; cbn [dict_set].
  - cbn. rewrite list_elem_of_singleton, elem_of_nil. tauto.
  - destruct (String.eqb_spec k k0) as [->|Hne]; cbn.
    + rewrite !elem_of_cons. tauto.
    + rewrite !elem_of_cons, IH. tauto.
Qed.

Lemma dict_set_fresh k v (d : dict) :
  k ∉ d.*1 -> dict_set k v d = d ++ [(k, v)].
Proof.
  induction d as [|[k0 v0] d IH]; cbn [dict_set]; [reflexivity|].
  cbn. rewrite not_elem_of_cons. intros [Hne Hnin].
  destruct (String.eqb_spec k k0) as [->|_]; [congruence|].
  now rewrite IH.
Qed.

Lemma set_all_fresh (evs : list (string * option Z)) (d : dict) :
  NoDup (d.*1 ++ evs.*1) -> set_all d evs = d ++ evs.
Proof.
  revert d. induction evs as [|[k v] evs IH]; intros d Hnd; cbn.
  - now rewrite app_nil_r.
  - cbn in Hnd. apply NoDup_app in Hnd as (Hd & Hdis & Hev).
    apply NoDup_cons in Hev as [Hk Hev].
    rewrite dict_set_fresh by (intros Hin; apply (Hdis k Hin); left).
    unfold set_all in IH. rewrite IH.
    + now rewrite <- app_assoc.
    + rewrite fmap_app. cbn. rewrite <- app_assoc. cbn.
      apply NoDup_app. split; [exact Hd|]. split.
      * intros x Hx. rewrite elem_of_cons. intros [->|Hin].
        -- apply (Hdis k Hx). left.
        -- apply (Hdis x Hx). now right.
      * apply NoDup_cons. split; assumption.
Qed.

(** ** The loop performs exactly the sealing events *)

Lemma step_output_dict overlap s seg :
  output_dict (step overlap s seg) = set_all (output_dict s) (seal_of_step s seg).
Proof.
  destruct seg as [t n]. unfold step, seal_of_step.
  destruct (is_header t).
  - now destruct (page_num s).
  - now destruct (len (current_string s) + len t <=? max_len)%nat.
Qed.

Lemma finish_run_from overlap segs s :
  finish (run_from overlap s segs) =
  map (fun kv => Chunk kv.1 kv.2)
      (set_all (output_dict s) (seals_from overlap s segs)).
Proof.
  revert s. induction segs as [|seg segs IH]; intros s.
  - reflexivity.
  - cbn [run_from fold_left seals_from]. unfold run_from in IH.
    rewrite IH, step_output_dict. unfold set_all.
    now rewrite fold_left_app.
Qed.

Lemma naive_chunking_sealed segs overlap :
  naive_chunking segs overlap =
  map (fun kv => Chunk kv.1 kv.2) (set_all [] (sealed segs overlap)).
Proof. apply finish_run_from. Qed.

(** ** State invariants *)

Lemma step_page_num overlap s seg : is_Some (page_num (step overlap s seg)).
Proof.
  destruct seg as [t n]. unfold step.
  destruct (is_header t); [now eexists|].
  destruct (len (current_string s) + len t <=? max_len)%nat; [|now eexists].
  cbn. unfold earlier_page. destruct (page_num s) as [p|]; [|now eexists].
  destruct (n <? p); now eexists.
Qed.

Lemma step_page_recorded overlap s seg : page_recorded (step overlap s seg).
Proof.
  intros H. destruct (step_page_num overlap s seg) as [p Hp]. congruence.
Qed.

Lemma run_page_recorded overlap segs : page_recorded (run overlap segs).
Proof.
  unfold run, run_from.
  induction segs as [|seg segs IH] using rev_ind.
  - intros _. reflexivity.
  - rewrite fold_left_app. apply step_page_recorded.
Qed.

(** Keys of the dict are never removed. *)
Lemma step_keys overlap s seg k :
  k ∈ (output_dict s).*1 -> k ∈ (output_dict (step overlap s seg)).*1.
Proof.
  intros Hk. destruct seg as [t n]. unfold step.
  destruct (is_header t).
  - cbn. destruct (page_num s); [|exact Hk]. apply dict_set_keys. now right.
  - destruct (len (current_string s) + len t <=? max_len)%nat; cbn.
    + exact Hk.
    + apply dict_set_keys. now right.
Qed.

Lemma run_from_keys overlap segs s k :
  k ∈ (output_dict s).*1 -> k ∈ (output_dict (run_from overlap s segs)).*1.
Proof.
  revert s. induction segs as [|seg segs IH]; intros s Hk; [exact Hk|].
  apply IH, step_keys, Hk.
Qed.

Lemma finish_texts s k :
  k ∈ text <$> finish s <-> k = current_string s \/ k ∈ (output_dict s).*1.
Proof.
  assert (text <$> finish s =
          (dict_set (current_string s) (page_num s) (output_dict s)).*1) as ->.
  { unfold finish. rewrite <- list_fmap_compose.
    apply list_fmap_ext. now intros i [k' v']. }
  apply dict_set_keys.
Qed.

(** ** The size bound *)

Lemma segment_text_bounded overlap segs seg :
  seg ∈ segs -> bounded_text overlap segs seg.1.
Proof.
  intros Hin. destruct (le_lt_dec (len seg.1) max_len) as [Hle|Hgt].
  - now left.
  - right; right; left. now exists seg.
Qed.

Lemma Forall_dict_set (P : string -> Prop) k v (d : dict) :
  P k -> Forall P d.*1 -> Forall P (dict_set k v d).*1.
Proof.
  rewrite !Forall_forall. intros Hk Hd x Hx.
  apply dict_set_keys in Hx as [->|Hx]; auto.
Qed.

Lemma step_size_inv overlap segs s seg :
  seg ∈ segs -> size_inv overlap segs s -> size_inv overlap segs (step overlap s seg).
Proof.
  intros Hin (Hcs & Hd & Hlast & Hfrom).
  pose proof (segment_text_bounded overlap segs seg Hin) as Hseg.
  destruct seg as [t n]. unfold step. cbn [fst] in Hseg.
  destruct (is_header t).
  - split; [|split; [|split]]; state_simpl; [exact Hseg| |exact Hlast|exact Hfrom].
    destruct (page_num s); auto using Forall_dict_set.
  - destruct (Nat.leb_spec (len (current_string s) + len t) max_len) as [Hle|Hgt].
    + split; [|split; [|split]]; state_simpl; [|exact Hd|lia|].
      * right; left. now exists (current_string s), t.
      * right. now exists (t, n).
    + split; [|split; [|split]]; state_simpl;
        [|auto using Forall_dict_set|exact Hlast|exact Hfrom].
      destruct overlap; [|exact Hseg].
      right; right; right. split; [reflexivity|].
      now exists (last_str s), (t, n).
Qed.

Lemma run_from_size_inv overlap segs segs' s :
  (forall seg, seg ∈ segs' -> seg ∈ segs) ->
  size_inv overlap segs s -> size_inv overlap segs (run_from overlap s segs').
Proof.
  revert s. induction segs' as [|seg segs' IH]; intros s Hsub Hs; [exact Hs|].
  apply IH.
  - intros x Hx. apply Hsub. now right.
  - apply step_size_inv; [apply Hsub; left|exact Hs].
Qed.

Lemma init_size_inv overlap segs : size_inv overlap segs init.
Proof.
  split; [|split; [|split]]; cbn.
  - left. cbn. unfold max_len. lia.
  - constructor.
  - unfold max_len. lia.
  - now left.
Qed.

(** C3, as the code has it: every chunk returned by [naive_chunking] has
    one of four shapes.  Its text is at most [max_len] characters long; or
    it was last extended by a segment under the test
    [len(current_string) + len(t) <= max_len] of the loop, which does not
    count the joining space; or it is the text of a single segment that
    alone exceeds [max_len]; or, with [overlap] set, it is the text of the
    segment merged last (empty if there was none), a space and the text of
    a segment. *)
Theorem naive_chunking_size_bound segs overlap c :
  c ∈ naive_chunking segs overlap ->
  (len (text c) <= max_len)%nat \/
  (exists acc t, text c = acc +:+ " " +:+ t /\ (len acc + len t <= max_len)%nat) \/
  (exists seg, seg ∈ segs /\ text c = seg.1 /\ (max_len < len seg.1)%nat) \/
  (overlap = true /\
   exists l seg, seg ∈ segs /\ text c = l +:+ " " +:+ seg.1 /\
     (len l <= max_len)%nat /\ (l = "" \/ exists seg0, seg0 ∈ segs /\ l = seg0.1)).
Proof.
  intros Hc.
  assert (Hin : text c ∈ text <$> naive_chunking segs overlap)
    by (apply list_elem_of_fmap; eauto).
  apply finish_texts in Hin.
  destruct (run_from_size_inv overlap segs segs init (fun _ H => H)
              (init_size_inv overlap segs)) as (Hcs & Hd & _).
  fold (run overlap segs) in Hcs, Hd.
  destruct Hin as [->|Hin]; [exact Hcs|].
  rewrite Forall_forall in Hd. exact (Hd _ Hin).
Qed.

(** With the default [overlap], two segments of 2000 characters give a
    second chunk of 4001 characters although no segment exceeds the
    bound. *)
Lemma naive_chunking_size_bound_counterexample :
  ~ claimed_size_bound [(filler "a" 2000, 1); (filler "b" 2000, 2)] true.
Proof.
  intros H.
  set (c := Chunk (filler "a" 2000 +:+ " " +:+ filler "b" 2000) (Some 2)).
  destruct (H c) as [Hle|(seg & Hin & _ & Hgt)].
  - assert (Hc : naive_chunking [(filler "a" 2000, 1); (filler "b" 2000, 2)] true
                 = [Chunk (" " +:+ filler "a" 2000) (Some 1); c])
      by (vm_compute; reflexivity).
    rewrite Hc. right. left.
  - apply Nat.leb_le in Hle. vm_compute in Hle. discriminate.
  - apply Nat.ltb_lt in Hgt.
    rewrite !elem_of_cons, elem_of_nil in Hin.
    destruct Hin as [->|[->|[]]]; vm_compute in Hgt; discriminate.
Qed.

Lemma naive_chunking_size_bound_witness :
  let segs := [("# A", 1); ("x", 1); ("# B", 2)] in
  let c := Chunk "# A x" (Some 1) in
  c ∈ naive_chunking segs true /\
  ((len (text c) <= max_len)%nat \/
   (exists acc t, text c = acc +:+ " " +:+ t /\ (len acc + len t <= max_len)%nat) \/
   (exists seg, seg ∈ segs /\ text c = seg.1 /\ (max_len < len seg.1)%nat) \/
   (true = true /\
    exists l seg, seg ∈ segs /\ text c = l +:+ " " +:+ seg.1 /\
      (len l <= max_len)%nat /\ (l = "" \/ exists seg0, seg0 ∈ segs /\ l = seg0.1))).
Proof.
  cbv zeta.
  assert (Hin : Chunk "# A x" (Some 1)
                ∈ naive_chunking [("# A", 1); ("x", 1); ("# B", 2)] true)
    by (vm_compute; left).
  split; [exact Hin|].
  exact (naive_chunking_size_bound _ _ _ Hin).
Defined.

(** ** Heading boundary *)

Lemma naive_chunking_app overlap pre seg post :
  naive_chunking (pre ++ seg :: post) overlap =
  finish (run_from overlap (step overlap (run overlap pre) seg) post).
Proof.
  unfold naive_chunking, run, run_from. now rewrite fold_left_app.
Qed.

Lemma sealed_key_survives overlap s post k :
  k ∈ (output_dict s).*1 -> k ∈ text <$> finish (run_from overlap s post).
Proof.
  intros Hk. apply finish_texts. right. now apply run_from_keys.
Qed.

Lemma prefix_survives overlap t post s :
  is_Some (page_num s) -> String.prefix t (current_string s) = true ->
  exists k, k ∈ text <$> finish (run_from overlap s post) /\
            String.prefix t k = true.
Proof.
  revert s. induction post as [|[t' n'] post IH]; intros s [p Hp] Hpre.
  - exists (current_string s). split; [|exact Hpre].
    apply finish_texts. now left.
  - change (run_from overlap s ((t', n') :: post))
      with (run_from overlap (step overlap s (t', n')) post).
    pose proof (step_page_num overlap s (t', n')) as Hs.
    unfold step in *. destruct (is_header t') eqn:Hh.
    + exists (current_string s). split; [|exact Hpre].
      apply sealed_key_survives. state_simpl. rewrite Hp.
      apply dict_set_keys. now left.
    + destruct (len (current_string s) + len t' <=? max_len)%nat eqn:Hle.
      * apply IH; state_simpl; [exact Hs|now apply prefix_app_r].
      * exists (current_string s). split; [|exact Hpre].
        apply sealed_key_survives. state_simpl.
        apply dict_set_keys. now left.
Qed.

(** C4, as the code has it: a segment that passes the header test of the
    loop, [len(t) > 1 and t[0:1] == "#"], starts a new chunk.  The new
    accumulator is exactly the segment's text, so none of it is merged
    into the text accumulated before; that text, if not empty, is a chunk
    of the output on its own; and some chunk of the output begins with
    the heading. *)
Theorem naive_chunking_heading_boundary pre t n post overlap :
  is_header t = true ->
  current_string (step overlap (run overlap pre) (t, n)) = t /\
  (current_string (run overlap pre) <> "" ->
   current_string (run overlap pre)
     ∈ text <$> naive_chunking (pre ++ (t, n) :: post) overlap) /\
  starts_chunk t (naive_chunking (pre ++ (t, n) :: post) overlap).
Proof.
  intros Hh. split; [|split].
  - unfold step. now rewrite Hh.
  - intros Hne. rewrite naive_chunking_app.
    apply sealed_key_survives. unfold step. rewrite Hh. state_simpl.
    destruct (page_num (run overlap pre)) as [p|] eqn:Hp.
    + apply dict_set_keys. now left.
    + now destruct Hne; apply run_page_recorded.
  - rewrite naive_chunking_app.
    destruct (prefix_survives overlap t post (step overlap (run overlap pre) (t, n)))
      as (k & Hk & Hpre).
    + apply step_page_num.
    + unfold step. rewrite Hh. apply prefix_refl.
    + apply list_elem_of_fmap in Hk as (c & -> & Hc). now exists c.
Qed.

Lemma naive_chunking_heading_boundary_witness :
  is_header "# B" = true /\
  current_string (step true (run true [("# A", 1); ("x", 1)]) ("# B", 2)) = "# B" /\
  (current_string (run true [("# A", 1); ("x", 1)]) <> "" ->
   current_string (run true [("# A", 1); ("x", 1)])
     ∈ text <$> naive_chunking ([("# A", 1); ("x", 1)] ++ ("# B", 2) :: [("y", 2)]) true) /\
  starts_chunk "# B"
    (naive_chunking ([("# A", 1); ("x", 1)] ++ ("# B", 2) :: [("y", 2)]) true).
Proof.
  split; [reflexivity|].
  apply (naive_chunking_heading_boundary [("# A", 1); ("x", 1)] "# B" 2 [("y", 2)] true).
  reflexivity.
Defined.

(** The one-character segment [#] begins with [#] but fails the header
    test, so it is appended to the chunk before it. *)
Lemma naive_chunking_heading_boundary_counterexample :
  ~ claimed_heading_boundary [("abc", 1); ("#", 2)] true.
Proof.
  intros H. destruct (H ("#", 2)) as (c & Hc & Hpre).
  - right. left.
  - reflexivity.
  - assert (Hout : naive_chunking [("abc", 1); ("#", 2)] true
                   = [Chunk " abc #" (Some 1)]) by reflexivity.
    rewrite Hout in Hc. apply list_elem_of_singleton in Hc as ->.
    discriminate Hpre.
Qed.

(** ** Document order *)

Lemma concat_seals overlap segs s :
  page_recorded s ->
  concat_str (seals_from overlap s segs).*1 =
  current_string s +:+
    concat_str (zip_with String.append (leads_from overlap s segs) segs.*1).
Proof.
  revert s. induction segs as [|[t n] segs IH]; intros s Hs.
  - reflexivity.
  - cbn [seals_from leads_from fmap list_fmap zip_with concat_str fst].
    rewrite fmap_app.
    assert (Happ : forall l1 l2, concat_str (l1 ++ l2) = concat_str l1 +:+ concat_str l2).
    { induction l1 as [|x l1 IH1]; intros l2; cbn [app concat_str]; [reflexivity|].
      now rewrite IH1, str_app_assoc. }
    rewrite Happ, (IH _ (step_page_recorded overlap s (t, n))).
    unfold seal_of_step, lead_of_step, step.
    destruct (is_header t).
    + state_simpl. destruct (page_num s) eqn:Hp; cbn.
      * now rewrite str_app_nil_r.
      * now rewrite (Hs Hp).
    + destruct (len (current_string s) + len t <=? max_len)%nat; state_simpl; cbn.
      * now rewrite !str_app_assoc.
      * rewrite str_app_nil_r. destruct overlap; [|reflexivity].
        now rewrite !str_app_assoc.
Qed.

Lemma leads_from_length overlap segs s :
  length (leads_from overlap s segs) = length segs.
Proof.
  revert s. induction segs as [|seg segs IH]; intros s; [reflexivity|].
  cbn. now rewrite IH.
Qed.

Lemma leads_from_ok overlap all segs s :
  (forall seg, seg ∈ segs -> seg ∈ all) ->
  (last_str s = "" \/ exists seg0, seg0 ∈ all /\ last_str s = seg0.1) ->
  Forall (lead_ok overlap all) (leads_from overlap s segs).
Proof.
  revert s. induction segs as [|[t n] segs IH]; intros s Hsub Hlast.
  - constructor.
  - cbn [leads_from]. constructor.
    + unfold lead_of_step. destruct (is_header t); [now left|].
      destruct (len (current_string s) + len t <=? max_len)%nat;
        [right; now left|].
      destruct overlap; [|now left].
      destruct Hlast as [->|(seg0 & Hin & ->)]; [right; now left|].
      right; right. split; [reflexivity|]. now exists seg0.
    + apply IH; [intros x Hx; apply Hsub; now right|].
      unfold step. destruct (is_header t); [exact Hlast|].
      destruct (len (current_string s) + len t <=? max_len)%nat;
        [|exact Hlast].
      right. exists (t, n). split; [apply Hsub; left|reflexivity].
Qed.

(** C5, as the code has it: when the texts of the sealed accumulators are
    pairwise distinct, the returned list has one entry per sealed
    accumulator, in sealing order, and the concatenation of the chunk
    texts is the concatenation of the segment texts in document order,
    each preceded by nothing, by the joining space or, with overlap, by
    the repeated text of an earlier segment and a space.  (Accumulators
    sealed with the same text share one key of the dict.) *)
Theorem naive_chunking_order segs overlap :
  NoDup (sealed segs overlap).*1 ->
  naive_chunking segs overlap
    = (fun kv => Chunk kv.1 kv.2) <$> sealed segs overlap /\
  exists leads,
    length leads = length segs /\
    Forall (lead_ok overlap segs) leads /\
    concat_str (text <$> naive_chunking segs overlap)
      = concat_str (zip_with String.append leads segs.*1).
Proof.
  intros Hnd.
  assert (Hout : naive_chunking segs overlap
                 = (fun kv => Chunk kv.1 kv.2) <$> sealed segs overlap).
  { rewrite naive_chunking_sealed, set_all_fresh; [reflexivity|exact Hnd]. }
  split; [exact Hout|].
  exists (leads_from overlap init segs). split; [apply leads_from_length|].
  split; [apply leads_from_ok; [auto|now left]|].
  rewrite Hout, <- list_fmap_compose.
  change (concat_str (sealed segs overlap).*1 =
          concat_str (zip_with String.append (leads_from overlap init segs) segs.*1)).
  unfold sealed. rewrite concat_seals; [reflexivity|].
  intros _. reflexivity.
Qed.

Lemma naive_chunking_order_witness :
  let segs := [("# A", 1); ("x", 2); ("# B", 3)] in
  NoDup (sealed segs true).*1 /\
  naive_chunking segs true
    = (fun kv => Chunk kv.1 kv.2) <$> sealed segs true /\
  exists leads,
    length leads = length segs /\
    Forall (lead_ok true segs) leads /\
    concat_str (text <$> naive_chunking segs true)
      = concat_str (zip_with String.append leads segs.*1).
Proof.
  cbv zeta.
  assert (Hnd : NoDup (sealed [("# A", 1); ("x", 2); ("# B", 3)] true).*1).
  { vm_compute. repeat (apply NoDup_cons; split;
      [rewrite ?elem_of_cons, elem_of_nil; intros H;
       repeat destruct H as [H|H]; (discriminate H || exact H)|]).
    apply NoDup_nil. exact I. }
  split; [exact Hnd|].
  exact (naive_chunking_order _ _ Hnd).
Defined.

(** Two sealed accumulators with the same text are one entry of the
    output: the heading [# A] sealed on page 1 and again on page 2. *)
Lemma naive_chunking_order_counterexample :
  sealed [("# A", 1); ("# A", 2)] true = [("# A", Some 1); ("# A", Some 2)] /\
  naive_chunking [("# A", 1); ("# A", 2)] true = [Chunk "# A" (Some 2)] /\
  ~ claimed_one_entry_per_seal [("# A", 1); ("# A", 2)] true.
Proof.
  split; [reflexivity|]. split; [reflexivity|].
  unfold claimed_one_entry_per_seal. discriminate.
Qed.

End ChunkingFacts.

(* ===================================================================== *)
(** * Properties of the page detector *)
(* ===================================================================== *)

Module PdfUtilFacts.
Import PyStr PyStrFacts PdfUtil.

Lemma elem_of_range a b x : x ∈ range a b <-> a <= x < b.
Proof.
  unfold range. rewrite elem_of_list_to_set, elem_of_seqZ. lia.
Qed.

Lemma cascades_spec item e : cascades item e = true <-> depth e <> depth item.
Proof.
  unfold cascades. rewrite orb_true_iff, negb_true_iff, Z.eqb_neq, Z.gtb_lt.
  lia.
Qed.

Lemma elem_of_toc_cascade item rest r x :
  x ∈ toc_cascade item rest r <->
  x ∈ r \/ exists e, e ∈ rest /\ depth e <> depth item /\ x = toc_page e.
Proof.
  unfold toc_cascade. revert r.
  induction rest as [|e rest IH]; intros r; cbn [fold_left].
  - split; [now left|]. intros [H|(e & He & _)]; [exact H|].
    now apply elem_of_nil in He.
  - rewrite IH. destruct (cascades item e) eqn:Hc.
    + apply cascades_spec in Hc. split.
      * intros [Hx|(e' & He' & Hd & ->)].
        -- apply elem_of_union in Hx as [Hx|Hx]; [|now left].
           apply elem_of_singleton in Hx as ->.
           right. exists e. split; [left|]. now split.
        -- right. exists e'. split; [now right|]. now split.
      * intros [Hx|(e' & He' & Hd & ->)].
        -- left. apply elem_of_union. now right.
        -- apply elem_of_cons in He' as [->|He'].
           ++ left. apply elem_of_union. left. now apply elem_of_singleton.
           ++ right. exists e'. now repeat split.
    + assert (Hd : depth e = depth item).
      { destruct (Z.eq_dec (depth e) (depth item)) as [Heq|Hne]; [exact Heq|].
        apply cascades_spec in Hne. congruence. }
      split.
      * intros [Hx|(e' & He' & Hd' & ->)]; [now left|].
        right. exists e'. split; [now right|]. now split.
      * intros [Hx|(e' & He' & Hd' & ->)]; [now left|].
        apply elem_of_cons in He' as [->|He']; [congruence|].
        right. exists e'. now repeat split.
Qed.

Lemma toc_match_incl ndoc item rest r x :
  x ∈ toc_cascade item rest ({[toc_page item]} ∪ r) -> x ∈ toc_match ndoc item rest r.
Proof.
  unfold toc_match. destruct rest; [|auto].
  intros H. apply elem_of_union. now right.
Qed.

Lemma toc_match_mono ndoc item rest r x :
  x ∈ r -> x ∈ toc_match ndoc item rest r.
Proof.
  intros H. apply toc_match_incl, elem_of_toc_cascade. left.
  apply elem_of_union. now right.
Qed.

Lemma toc_rule_mono ndoc toc r x : x ∈ r -> x ∈ toc_rule ndoc toc r.
Proof.
  revert r. induction toc as [|item rest IH]; intros r Hx; [exact Hx|].
  cbn [toc_rule]. apply IH.
  destruct (search_alt denylist (title item)); [|exact Hx].
  now apply toc_match_mono.
Qed.

Lemma toc_rule_matched ndoc pre item post r x :
  search_alt denylist (title item) = true ->
  (x = toc_page item \/
   exists e, e ∈ post /\ depth e <> depth item /\ x = toc_page e) ->
  x ∈ toc_rule ndoc (pre ++ item :: post) r.
Proof.
  intros Hm Hx. revert r. induction pre as [|p pre IH]; intros r.
  - cbn [app toc_rule]. rewrite Hm.
    apply toc_rule_mono, toc_match_incl, elem_of_toc_cascade.
    destruct Hx as [->|Hx]; [left|now right].
    apply elem_of_union. left. now apply elem_of_singleton.
  - cbn [app toc_rule]. apply IH.
Qed.

(** ** The page loop *)

Lemma page_step_mono detect re_search re_findall_count st ip x :
  x ∈ pages_to_remove st ->
  x ∈ pages_to_remove (page_step detect re_search re_findall_count st ip).
Proof.
  intros Hx. destruct ip as [page_num pg]. unfold page_step.
  destruct (is_en _);
    repeat match goal with
           | |- context [if ?b then _ else _] => destruct b
           end;
    cbn [pages_to_remove]; rewrite ?elem_of_union; tauto.
Qed.

Lemma page_steps_mono detect re_search re_findall_count l st x :
  x ∈ pages_to_remove st ->
  x ∈ pages_to_remove (fold_left (page_step detect re_search re_findall_count) l st).
Proof.
  revert st. induction l as [|ip l IH]; intros st Hx; [exact Hx|].
  cbn [fold_left]. now apply IH, page_step_mono.
Qed.

Lemma page_step_not_en detect re_search re_findall_count st page_num pg :
  is_en (detect (lower (get_text pg))) = false ->
  page_num ∈ pages_to_remove
    (page_step detect re_search re_findall_count st (page_num, pg)).
Proof.
  intros Hl. unfold page_step. rewrite Hl. cbn [pages_to_remove].
  apply elem_of_union. left. now apply elem_of_singleton.
Qed.

Lemma elem_of_enumerate {A} (l : list A) i x :
  l !! i = Some x -> (Z.of_nat i, x) ∈ enumerate l.
Proof.
  intros Hl. unfold enumerate. apply list_elem_of_lookup. exists i.
  apply lookup_zip_with_Some. exists (Z.of_nat i), x.
  split; [reflexivity|]. split; [|exact Hl].
  rewrite lookup_seqZ_lt; [f_equal; lia|].
  apply lookup_lt_Some in Hl. lia.
Qed.

Lemma enumerate_bounds {A} (l : list A) i x :
  (i, x) ∈ enumerate l -> 0 <= i < Z.of_nat (length l).
Proof.
  unfold enumerate. intros H. apply elem_of_zip_l in H.
  apply elem_of_seqZ in H. lia.
Qed.

Lemma page_loop_not_en detect re_search re_findall_count doc i pg :
  pages doc !! i = Some pg ->
  is_en (detect (lower (get_text pg))) = false ->
  Z.of_nat i ∈ pages_to_remove (page_loop detect re_search re_findall_count doc).
Proof.
  intros Hi Hl. unfold page_loop.
  apply elem_of_enumerate, list_elem_of_split in Hi as (l1 & l2 & ->).
  rewrite fold_left_app. cbn [fold_left].
  now apply page_steps_mono, page_step_not_en.
Qed.

Lemma page_step_in_range detect re_search re_findall_count n st page_num pg :
  0 <= page_num < n ->
  (forall x, x ∈ pages_to_remove st -> 0 <= x < n) ->
  forall x,
    x ∈ pages_to_remove
          (page_step detect re_search re_findall_count st (page_num, pg)) ->
    0 <= x < n.
Proof.
  intros Hp Hst x. unfold page_step.
  assert (Hone : forall y, y ∈ ({[page_num]} : gset Z) -> 0 <= y < n)
    by (intros y Hy; apply elem_of_singleton in Hy; lia).
  assert (Hrange : forall y, y ∈ range 0 page_num -> 0 <= y < n)
    by (intros y Hy; apply elem_of_range in Hy; lia).
  destruct (is_en _);
    repeat match goal with
           | |- context [if ?b then _ else _] => destruct b
           end;
    cbn [pages_to_remove]; rewrite ?elem_of_union; intros Hx;
    repeat (destruct Hx as [Hx|Hx]); auto.
Qed.

(** The page loop only marks pages of the document. *)
Lemma page_loop_in_range detect re_search re_findall_count doc x :
  x ∈ pages_to_remove (page_loop detect re_search re_findall_count doc) ->
  0 <= x < Z.of_nat (length (pages doc)).
Proof.
  unfold page_loop.
  assert (Hall : forall ip, ip ∈ enumerate (pages doc) ->
                            0 <= ip.1 < Z.of_nat (length (pages doc)))
    by (intros [i pg] Hip; eapply enumerate_bounds, Hip).
  revert Hall x.
  generalize (Z.of_nat (length (pages doc))) as n.
  generalize (enumerate (pages doc)) as l. intros l n.
  assert (Hinit : forall x, x ∈ pages_to_remove (LoopState ∅ false 0) -> 0 <= x < n)
    by (cbn [pages_to_remove]; intros y Hy; now apply elem_of_empty in Hy).
  revert Hinit. generalize (LoopState ∅ false 0) as st.
  induction l as [|[i pg] l IH]; intros st Hst Hall; [exact Hst|].
  cbn [fold_left]. apply IH.
  - apply page_step_in_range; [|exact Hst].
    apply (Hall (i, pg)). left.
  - intros ip Hip. apply Hall. now right.
Qed.

(** ** The claims on [detect_irrelevant_pages] *)

Section Claims.
Variable detect : string -> option string.
Variable re_search : string -> string -> bool.
Variable re_findall_count : string -> string -> nat.
Variable re_match_toc : string -> option (string * Z).

Let detect_pages :=
  detect_irrelevant_pages detect re_search re_findall_count re_match_toc.

(** C1, as the code has it: a TOC entry whose title contains one of the
    denylist strings (in the case they are written in) puts its own
    page number into the set, and the page number of every later
    entry whose depth differs from its own, deeper or shallower; the
    later entries of the same depth are not added by this rule, and
    nothing ends the scan before the last entry. *)
Theorem toc_entry_exclusion doc pre item post :
  extract_table_of_contents re_match_toc doc = pre ++ item :: post ->
  search_alt denylist (title item) = true ->
  toc_page item ∈ detect_pages doc /\
  (forall e, e ∈ post -> depth e <> depth item ->
             toc_page e ∈ detect_pages doc) /\
  (forall r x,
      x ∈ toc_cascade item post ({[toc_page item]} ∪ r) <->
      x ∈ r \/ x = toc_page item \/
      exists e, e ∈ post /\ depth e <> depth item /\ x = toc_page e).
Proof.
  intros Htoc Hm. unfold detect_pages, detect_irrelevant_pages. rewrite Htoc.
  split; [|split].
  - apply toc_rule_matched; [exact Hm|now left].
  - intros e He Hd. apply toc_rule_matched; [exact Hm|].
    right. now exists e.
  - intros r x. rewrite elem_of_toc_cascade, elem_of_union, elem_of_singleton.
    tauto.
Qed.

(** C2, as the code has it: a page whose language is not detected as
    English is put into the set, whether the detector named another
    language or raised; a detection failure leaves [lang] at [None],
    which takes the same branch. *)
Theorem undetected_language_excluded doc i pg :
  pages doc !! i = Some pg ->
  detect (lower (get_text pg)) <> Some "en" ->
  Z.of_nat i ∈ detect_pages doc.
Proof.
  intros Hi Hl. unfold detect_pages, detect_irrelevant_pages.
  apply toc_rule_mono, page_loop_not_en with (pg := pg); [exact Hi|].
  unfold is_en. destruct (detect _) as [l|]; [|reflexivity].
  destruct (String.eqb_spec l "en") as [->|_]; [congruence|reflexivity].
Qed.

End Claims.

Ltac by_computation := refine (bool_decide_unpack _ _); vm_compute; exact I.

Lemma toc_entry_exclusion_witness :
  let doc := sample_doc matching_toc 12 in
  let item := TocEntry "other resources" 5 1 in
  let pre := [TocEntry "intro" 1 1] in
  let post := [TocEntry "details" 8 2; TocEntry "summary" 10 1] in
  extract_table_of_contents no_match doc = pre ++ item :: post /\
  search_alt denylist (title item) = true /\
  toc_page item ∈ sample_pages doc /\
  (forall e, e ∈ post -> depth e <> depth item -> toc_page e ∈ sample_pages doc) /\
  (forall r x,
      x ∈ toc_cascade item post ({[toc_page item]} ∪ r) <->
      x ∈ r \/ x = toc_page item \/
      exists e, e ∈ post /\ depth e <> depth item /\ x = toc_page e).
Proof.
  cbv zeta. split; [reflexivity|]. split; [reflexivity|].
  apply (toc_entry_exclusion sample_detect no_search no_findall no_match
           (sample_doc matching_toc 12) [TocEntry "intro" 1 1]);
    reflexivity.
Defined.

(** On the table of contents of the specification's example no title
    matches the denylist, so neither page 5 nor page 10 is excluded; with
    titles that match, the deeper entry on page 8 is excluded and the
    entry of the same depth on page 10 is not. *)
Lemma toc_entry_exclusion_counterexample :
  (5 ∉ sample_pages (sample_doc spec_toc 12)) /\
  (10 ∉ sample_pages (sample_doc spec_toc 12)) /\
  (5 ∈ sample_pages (sample_doc matching_toc 12)) /\
  (8 ∈ sample_pages (sample_doc matching_toc 12)) /\
  (10 ∉ sample_pages (sample_doc matching_toc 12)).
Proof. repeat split; by_computation. Qed.

Lemma undetected_language_excluded_witness :
  let doc := Document [] [plain_page; empty_page] in
  pages doc !! 1%nat = Some empty_page /\
  sample_detect (lower (get_text empty_page)) <> Some "en" /\
  Z.of_nat 1 ∈ sample_pages doc.
Proof.
  cbv zeta. split; [reflexivity|]. split; [discriminate|].
  apply (undetected_language_excluded sample_detect no_search no_findall no_match
           (Document [] [plain_page; empty_page]) 1 empty_page);
    [reflexivity|discriminate].
Defined.

(** The second page has no text and the detector raises on it: the page
    is excluded, although with a detector that answers English the same
    page of the same document is kept. *)
Lemma undetected_language_counterexample :
  sample_detect (lower (get_text empty_page)) = None /\
  1 ∈ sample_pages (Document [] [plain_page; empty_page]) /\
  1 ∉ detect_irrelevant_pages always_en no_search no_findall no_match
        (Document [] [plain_page; empty_page]).
Proof. split; [reflexivity|]. split; by_computation. Qed.

(** C10 at a failing input: a document of one page whose table of
    contents lists "index" on page 1.  The page number of the entry is
    put into the set as it is, and 1 is not an index of the document. *)
Theorem toc_page_number_out_of_range :
  length (pages (sample_doc [(1, "index", 1)] 1)) = 1%nat /\
  1 ∈ sample_pages (sample_doc [(1, "index", 1)] 1) /\
  ~ (forall x, x ∈ sample_pages (sample_doc [(1, "index", 1)] 1) ->
               0 <= x < Z.of_nat (length (pages (sample_doc [(1, "index", 1)] 1)))).
Proof.
  split; [reflexivity|].
  assert (H1 : 1 ∈ sample_pages (sample_doc [(1, "index", 1)] 1)) by by_computation.
  split; [exact H1|].
  intros H. specialize (H 1 H1). cbn in H. lia.
Qed.

End PdfUtilFacts.

(* ===================================================================== *)
(** * Properties of the lineariser *)
(* ===================================================================== *)

Module ProcessPdfFacts.
Import PyStr PyStrFacts PdfUtil.

(** A list item is appended as the line [list_item_line] builds at the
    current nesting level. *)
Lemma dispatch_list_item tables st item level :
  cls item = ListItem -> label item = LIST_ITEM ->
  current_list (dispatch tables st item level)
  = current_list st ++ [list_item_line (list_nesting_level st) item].
Proof.
  intros Hc Hl. unfold dispatch, isinstance. rewrite Hc, Hl. reflexivity.
Qed.

Lemma list_item_line_head nesting item c r :
  list_item_line nesting item = String c r -> isspace c = false.
Proof. apply strip_head. Qed.

(** The flush of [stringify_list]: the lines joined by newlines, with
    the recorded page. *)
Lemma stringify_list_spec current_list elements current_list_page :
  stringify_list current_list elements current_list_page
  = ([], elements ++ [(join nl current_list, current_list_page)]).
Proof. reflexivity. Qed.

(** The flush after the loop joins with the empty string. *)
Lemma final_flush_spec st l ls :
  current_list st = l :: ls ->
  final_flush st
  = elements st ++ [(join "" (current_list st), current_list_page st)].
Proof. intros H. unfold final_flush. now rewrite H. Qed.

(** C9 at a failing input: a document that ends with a list of two
    items.  The flush at the end of the stream joins the lines without
    a newline between them; the page of the segment is that of the last
    item, also where [stringify_list] flushes. *)
Theorem final_flush_without_newlines :
  process_pdf export_all trailing_list ∅ false = [("- a- b", Some 2)] /\
  process_pdf export_all inner_list ∅ false
  = [("x", Some 1); ("- a" +:+ nl +:+ "- b", Some 2); ("end", Some 2)].
Proof. split; reflexivity. Qed.

End ProcessPdfFacts.

(* ===================================================================== *)
(** * Properties of the fusion *)
(* ===================================================================== *)

Module RetrievalFacts.
Import Retrieval.

Lemma rrf_score_pos k r : 0 <= k -> 1 <= r -> (0 < rrf_score k r)%Q.
Proof.
  intros Hk Hr. unfold rrf_score, Qdiv. rewrite Qmult_1_l.
  apply Qinv_lt_0_compat. unfold Qlt. cbn. lia.
Qed.

Lemma fused_score_app k l1 l2 i :
  (fused_score k (l1 ++ l2) i == fused_score k l1 i + fused_score k l2 i)%Q.
Proof.
  unfold fused_score. rewrite filter_app, map_app.
  induction (map _ (filter _ l1)) as [|q qs IH]; cbn [app foldr].
  - now rewrite Qplus_0_l.
  - rewrite IH. now rewrite Qplus_assoc.
Qed.

Lemma score_desc_trans : Transitive score_desc.
Proof.
  intros x y z. unfold score_desc. rewrite !Qle_bool_iff.
  intros Hxy Hyz. now apply Qle_trans with (y := y.2).
Qed.

Lemma score_desc_total : Total score_desc.
Proof.
  intros x y. unfold score_desc. rewrite !Qle_bool_iff.
  destruct (Qlt_le_dec x.2 y.2) as [H|H]; [right|left].
  - now apply Qlt_le_weak.
  - exact H.
Qed.

Lemma StronglySorted_lookup {A} (R : relation A) (l : list A) i j x y :
  StronglySorted R l -> l !! i = Some x -> l !! j = Some y -> (i < j)%nat ->
  R x y.
Proof.
  intros Hs. revert i j. induction Hs as [|a l Hs IH Hall]; intros i j Hi Hj Hij.
  - discriminate.
  - destruct j as [|j]; [lia|]. cbn in Hj. destruct i as [|i].
    + cbn in Hi. injection Hi as <-.
      rewrite Forall_forall in Hall. apply Hall.
      now apply list_elem_of_lookup_2 in Hj.
    + cbn in Hi. apply (IH i j); [exact Hi|exact Hj|lia].
Qed.

(** The rows of [GROUP BY]: one row per id of [searches], with the sum
    of the scores of the id. *)
Lemma elem_of_grouped k rows i s :
  (i, s) ∈ grouped k rows <-> i ∈ map id rows /\ s = fused_score k rows i.
Proof.
  unfold grouped. rewrite list_elem_of_fmap. split.
  - intros (i' & [= -> ->] & Hin). rewrite elem_of_remove_dups in Hin.
    now split.
  - intros [Hin ->]. exists i. split; [reflexivity|].
    now apply elem_of_remove_dups.
Qed.

Lemma grouped_ids k rows : (grouped k rows).*1 = remove_dups (map id rows).
Proof.
  unfold grouped. induction (remove_dups (map id rows)) as [|i l IH];
    [reflexivity|]. cbn. now rewrite IH.
Qed.

Lemma filter_singleton_elem (P : ranked -> Prop) `{forall r, Decision (P r)}
      (l : list ranked) r :
  filter P l = [r] -> r ∈ l.
Proof.
  intros Hf. assert (Hin : r ∈ filter P l) by (rewrite Hf; left).
  now apply list_elem_of_filter in Hin as [_ Hin].
Qed.

Lemma hybrid_query_rows k limit vector lexical :
  let rows := searches vector lexical in
  let out := hybrid_query k limit vector lexical in
  (forall i s, (i, s) ∈ out ->
     i ∈ map id rows /\ s = fused_score k rows i) /\
  NoDup out.*1 /\
  length out = Nat.min limit (length (remove_dups (map id rows))).
Proof.
  cbv zeta. unfold hybrid_query.
  set (rows := searches vector lexical).
  pose proof (merge_sort_Permutation score_desc (grouped k rows)) as Hperm.
  split; [|split].
  - intros i s Hin. apply elem_of_grouped. rewrite <- Hperm.
    apply elem_of_take in Hin as (j & Hj & _).
    now apply list_elem_of_lookup_2 in Hj.
  - rewrite fmap_take. eapply sublist_NoDup; [|apply sublist_take].
    rewrite Hperm, grouped_ids. apply NoDup_remove_dups.
  - rewrite length_take, Hperm. unfold grouped. rewrite length_map. lia.
Qed.

Lemma hybrid_query_sorted k limit vector lexical i j x y :
  hybrid_query k limit vector lexical !! i = Some x ->
  hybrid_query k limit vector lexical !! j = Some y ->
  (i < j)%nat -> (y.2 <= x.2)%Q.
Proof.
  unfold hybrid_query. intros Hi Hj Hij.
  apply lookup_take_Some in Hi as [Hi _]. apply lookup_take_Some in Hj as [Hj _].
  apply Qle_bool_iff.
  eapply (StronglySorted_lookup score_desc); [|exact Hi|exact Hj|exact Hij].
  apply (@StronglySorted_merge_sort _ score_desc _ score_desc_trans
           score_desc_total).
Qed.

Lemma hybrid_query_complete k vector lexical x :
  x ∈ grouped k (searches vector lexical) ->
  exists i, merge_sort score_desc (grouped k (searches vector lexical)) !! i = Some x.
Proof.
  intros Hin. apply list_elem_of_lookup_1.
  now rewrite (merge_sort_Permutation score_desc).
Qed.

(** C6: in the ranking the hybrid query returns, the score of a row is
    the sum of [1 / (k + rank)] over the branches the row is in.  A row in
    both branches scores strictly higher than a row that has the same
    rank in the vector branch and is absent from the lexical branch: both
    are rows of the [GROUP BY], the rows returned are rows of the
    [GROUP BY] with their fused scores, one per id, as many as the limit
    allows and in descending order of score, and whenever the row of one
    branch is returned, the row of both branches is returned before
    it. *)
Theorem rrf_both_branches_beat_one k limit vector lexical a b rv rl :
  0 <= k -> 1 <= rl ->
  filter (fun r => id r = a) (branch vector) = [Ranked a rv] ->
  filter (fun r => id r = a) (branch lexical) = [Ranked a rl] ->
  filter (fun r => id r = b) (branch vector) = [Ranked b rv] ->
  filter (fun r => id r = b) (branch lexical) = [] ->
  let rows := searches vector lexical in
  let out := hybrid_query k limit vector lexical in
  let sa := fused_score k rows a in
  let sb := fused_score k rows b in
  (sa == rrf_score k rv + rrf_score k rl)%Q /\
  (sb == rrf_score k rv)%Q /\
  (sb < sa)%Q /\
  (a, sa) ∈ grouped k rows /\
  (b, sb) ∈ grouped k rows /\
  (forall i s, (i, s) ∈ out ->
     (i, s) ∈ grouped k rows /\ s = fused_score k rows i) /\
  NoDup out.*1 /\
  length out = Nat.min limit (length (grouped k rows)) /\
  (forall i j x y, out !! i = Some x -> out !! j = Some y -> (i < j)%nat ->
     (y.2 <= x.2)%Q) /\
  (forall j, out !! j = Some (b, sb) ->
     exists i, (i < j)%nat /\ out !! i = Some (a, sa)) /\
  ((length (grouped k rows) <= limit)%nat ->
     exists i j, (i < j)%nat /\ out !! i = Some (a, sa) /\
                 out !! j = Some (b, sb)).
Proof.
  intros Hk Hrl Hva Hla Hvb Hlb rows out sa sb.
  assert (Ha : (sa == rrf_score k rv + rrf_score k rl)%Q).
  { unfold sa, rows, searches. rewrite fused_score_app. unfold fused_score.
    rewrite Hva, Hla. cbn [map foldr rank]. now rewrite !Qplus_0_r. }
  assert (Hb : (sb == rrf_score k rv)%Q).
  { unfold sb, rows, searches. rewrite fused_score_app. unfold fused_score.
    rewrite Hvb, Hlb. cbn [map foldr rank]. now rewrite !Qplus_0_r. }
  assert (Hlt : (sb < sa)%Q).
  { rewrite Ha, Hb. rewrite <- (Qplus_0_r (rrf_score k rv)) at 1.
    apply Qplus_lt_r, rrf_score_pos; assumption. }
  assert (Hga : (a, sa) ∈ grouped k rows).
  { apply elem_of_grouped. split; [|reflexivity].
    apply list_elem_of_fmap. exists (Ranked a rv). split; [reflexivity|].
    unfold rows, searches. apply elem_of_app. left.
    exact (filter_singleton_elem _ _ _ Hva). }
  assert (Hgb : (b, sb) ∈ grouped k rows).
  { apply elem_of_grouped. split; [|reflexivity].
    apply list_elem_of_fmap. exists (Ranked b rv). split; [reflexivity|].
    unfold rows, searches. apply elem_of_app. left.
    exact (filter_singleton_elem _ _ _ Hvb). }
  destruct (hybrid_query_rows k limit vector lexical) as (Hrows & Hnd & Hlen).
  fold rows out in Hrows, Hnd, Hlen.
  assert (Hbefore : forall i j,
             merge_sort score_desc (grouped k rows) !! i = Some (a, sa) ->
             merge_sort score_desc (grouped k rows) !! j = Some (b, sb) ->
             (i < j)%nat).
  { intros i j Hi Hj.
    destruct (lt_eq_lt_dec i j) as [[Hij|Hij]|Hij]; [exact Hij| |].
    - subst j. rewrite Hi in Hj. injection Hj as Hab Hs.
      rewrite Hs in Hlt. now apply Qlt_irrefl in Hlt.
    - assert (Hle : (sa <= sb)%Q).
      { apply Qle_bool_iff.
        change (score_desc (b, sb) (a, sa)).
        eapply (StronglySorted_lookup score_desc); [|exact Hj|exact Hi|exact Hij].
        apply (@StronglySorted_merge_sort _ score_desc _ score_desc_trans
                 score_desc_total). }
      exfalso. apply (Qlt_not_le _ _ Hlt), Hle. }
  destruct (hybrid_query_complete k vector lexical _ Hga) as [ia Hia].
  destruct (hybrid_query_complete k vector lexical _ Hgb) as [ib Hib].
  fold rows in Hia, Hib.
  pose proof (Hbefore ia ib Hia Hib) as Hab.
  repeat (split; [assumption|]).
  split.
  { intros i s Hin. destruct (Hrows i s Hin) as [Hi Hs].
    split; [|exact Hs]. now apply elem_of_grouped. }
  split; [exact Hnd|].
  split.
  { rewrite Hlen. unfold grouped. now rewrite length_map. }
  split; [exact (hybrid_query_sorted k limit vector lexical)|].
  split.
  - intros j Hj. unfold out, hybrid_query in Hj.
    apply lookup_take_Some in Hj as [Hj Hjl]. fold rows in Hj.
    assert (j = ib) as ->.
    { eapply NoDup_lookup; [|exact Hj|exact Hib].
      rewrite (merge_sort_Permutation score_desc).
      apply (NoDup_fmap_1 fst). rewrite grouped_ids. apply NoDup_remove_dups. }
    exists ia. split; [exact Hab|].
    unfold out, hybrid_query. apply lookup_take_Some. fold rows.
    split; [exact Hia|lia].
  - intros Hlim. exists ia, ib. split; [exact Hab|].
    assert (Hlen' : length (merge_sort score_desc (grouped k rows))
                    = length (grouped k rows))
      by now rewrite (merge_sort_Permutation score_desc).
    apply lookup_lt_Some in Hia as Hia'. apply lookup_lt_Some in Hib as Hib'.
    unfold out, hybrid_query. fold rows.
    split; apply lookup_take_Some; (split; [assumption|lia]).
Qed.

Lemma rrf_both_branches_beat_one_witness :
  let k := 60 in
  let limit := 5%nat in
  let vector := [Ranked 1 1; Ranked 2 1] in
  let lexical := [Ranked 1 1] in
  let rows := searches vector lexical in
  let out := hybrid_query k limit vector lexical in
  let sa := fused_score k rows 1 in
  let sb := fused_score k rows 2 in
  (0 <= k /\ 1 <= 1 /\
   filter (fun r => id r = 1) (branch vector) = [Ranked 1 1] /\
   filter (fun r => id r = 1) (branch lexical) = [Ranked 1 1] /\
   filter (fun r => id r = 2) (branch vector) = [Ranked 2 1] /\
   filter (fun r => id r = 2) (branch lexical) = []) /\
  (sa == rrf_score k 1 + rrf_score k 1)%Q /\
  (sb == rrf_score k 1)%Q /\
  (sb < sa)%Q /\
  (1, sa) ∈ grouped k rows /\
  (2, sb) ∈ grouped k rows /\
  (forall i s, (i, s) ∈ out ->
     (i, s) ∈ grouped k rows /\ s = fused_score k rows i) /\
  NoDup out.*1 /\
  length out = Nat.min limit (length (grouped k rows)) /\
  (forall i j x y, out !! i = Some x -> out !! j = Some y -> (i < j)%nat ->
     (y.2 <= x.2)%Q) /\
  (forall j, out !! j = Some (2, sb) ->
     exists i, (i < j)%nat /\ out !! i = Some (1, sa)) /\
  ((length (grouped k rows) <= limit)%nat ->
     exists i j, (i < j)%nat /\ out !! i = Some (1, sa) /\
                 out !! j = Some (2, sb)).
Proof.
  cbv zeta. split.
  - repeat split; (lia || reflexivity).
  - apply (rrf_both_branches_beat_one 60 5 [Ranked 1 1; Ranked 2 1] [Ranked 1 1]
             1 2 1 1); (lia || reflexivity).
Defined.

(** The query on the sample rows, with the default limit: the row of
    both branches comes first. *)
Lemma hybrid_query_sample :
  hybrid_query 60 5 [Ranked 1 1; Ranked 2 1] [Ranked 1 1]
  = [(1, (122 # 3721)%Q); (2, (1 # 61)%Q)].
Proof. vm_compute. reflexivity. Qed.

End RetrievalFacts.

(* ===================================================================== *)
(** * Properties of the store access *)
(* ===================================================================== *)

Module StoreFacts.
Import Store.
Local Open Scope py_scope.

Section WithEnvironment.
Variables (vector row : Type).
Variable fault : op -> option exn.
Variable DB_ENV : string.
Variable embedding_of : string -> vector.
Variable rows_of : string -> list row.
Variable generate_sql_query : string -> string -> string -> option string -> string.
Variable format_vector : vector -> string.

Let retrieve :=
  retrieve_context vector row fault DB_ENV embedding_of rows_of
                   generate_sql_query format_vector.
Let insert :=
  add_manual_chunks_to_db vector fault DB_ENV embedding_of format_vector.
Let ops_of_retrieve :=
  retrieve_ops vector embedding_of generate_sql_query format_vector.
Let result_of_retrieve :=
  retrieve_result vector row embedding_of rows_of generate_sql_query
                  format_vector.

(** The connection either fails, leaving the world as it is, or yields
    the next handle and opens it. *)
Lemma get_psycopg_client_cases w :
  (exists e, get_psycopg_client fault DB_ENV w = (Raise e, w)) \/
  get_psycopg_client fault DB_ENV w
  = (Ok (next_connection w),
     {| open_connections := {[next_connection w]} ∪ open_connections w;
        next_connection := S (next_connection w);
        printed := printed w |}).
Proof.
  unfold get_psycopg_client, try_except, connect, raise.
  destruct (String.eqb DB_ENV "local" || String.eqb DB_ENV "aws").
  - destruct (fault OpConnect) as [e|]; [left|now right].
    destruct (is_HTTPException e); eauto.
  - left. cbn. eauto.
Qed.

Lemma first_fault_app ops1 ops2 :
  first_fault fault (ops1 ++ ops2)
  = match first_fault fault ops1 with
    | Some e => Some e
    | None => first_fault fault ops2
    end.
Proof.
  induction ops1 as [|o ops1 IH]; cbn [app first_fault]; [reflexivity|].
  now destruct (fault o).
Qed.

(** The calls of the body of [retrieve_context] run in order and stop
    at the first failure; they do not act on the connections. *)
Lemma retrieve_body_spec client query_string deviceType w :
  retrieve_body vector row fault embedding_of rows_of generate_sql_query
                format_vector client query_string deviceType w
  = (match first_fault fault (ops_of_retrieve query_string deviceType) with
     | Some e => Raise e
     | None => Ok (result_of_retrieve query_string deviceType)
     end, w).
Proof.
  unfold result_of_retrieve, retrieve_result, ops_of_retrieve, retrieve_body,
    retrieve_ops, generate_embeddings, bind, call, ret.
  cbn [first_fault].
  repeat match goal with
         | |- context [fault ?o] => destruct (fault o)
         end; reflexivity.
Qed.

Lemma build_chunk_list_spec chunks w :
  exists res,
    build_chunk_list vector fault embedding_of format_vector chunks w
    = (match first_fault fault (embed_ops vector chunks) with
       | Some e => Raise e
       | None => Ok res
       end, w).
Proof.
  induction chunks as [|c chunks [res IH]]; [now eexists|].
  cbn [build_chunk_list embed_ops flat_map].
  fold (embed_ops vector chunks).
  unfold bind at 1. destruct (chunk_embedding c) as [v|].
  - unfold ret at 1. cbn [app]. unfold bind at 1. rewrite IH.
    destruct (first_fault fault (embed_ops vector chunks)); now eexists.
  - unfold generate_embeddings, bind at 1, call. cbn [app first_fault].
    destruct (fault (OpGenerateEmbeddings (chunk_text c))); [now eexists|].
    unfold ret at 1. unfold bind at 1. rewrite IH.
    destruct (first_fault fault (embed_ops vector chunks)); now eexists.
Qed.

Lemma add_body_spec client chunks w :
  add_body vector fault embedding_of format_vector client chunks w
  = (match first_fault fault (add_ops vector chunks) with
     | Some e => Raise e
     | None => Ok tt
     end, w).
Proof.
  unfold add_body, add_ops, bind, call. cbn [app first_fault].
  destruct (fault OpCreateExtension); [reflexivity|].
  destruct (fault OpRegisterVector); [reflexivity|].
  destruct (fault OpCreateTable); [reflexivity|].
  destruct (build_chunk_list_spec chunks w) as [res ->].
  rewrite first_fault_app.
  destruct (first_fault fault (embed_ops vector chunks)); [reflexivity|].
  cbn [first_fault].
  destruct (fault OpCursor); [reflexivity|].
  now destruct (fault (OpExecuteMany insert_query)).
Qed.

Lemma retrieve_context_failed query_string deviceType w e :
  get_psycopg_client fault DB_ENV w = (Raise e, w) ->
  retrieve query_string deviceType w = (Raise e, w).
Proof.
  intros H. unfold retrieve, retrieve_context, bind. now rewrite H.
Qed.

Lemma retrieve_context_connected query_string deviceType w client w1 :
  get_psycopg_client fault DB_ENV w = (Ok client, w1) ->
  retrieve query_string deviceType w
  = (match first_fault fault (ops_of_retrieve query_string deviceType) with
     | Some e => Raise e
     | None => Ok (result_of_retrieve query_string deviceType)
     end,
     {| open_connections := open_connections w1 ∖ {[client]};
        next_connection := next_connection w1;
        printed := printed w1 |}).
Proof.
  intros H. unfold retrieve, retrieve_context, bind. rewrite H.
  unfold try_finally, try_except, close, raise.
  rewrite retrieve_body_spec.
  now destruct (first_fault fault (ops_of_retrieve query_string deviceType)).
Qed.

Lemma add_manual_chunks_connected chunks w client w1 :
  get_psycopg_client fault DB_ENV w = (Ok client, w1) ->
  insert chunks w
  = (Ok tt,
     {| open_connections := open_connections w1 ∖ {[client]};
        next_connection := next_connection w1;
        printed := printed w1 ++ match first_fault fault (add_ops vector chunks) with
                                 | Some e => [e]
                                 | None => []
                                 end |}).
Proof.
  intros H. unfold insert, add_manual_chunks_to_db. rewrite H.
  unfold try_finally, try_except, close, print. rewrite add_body_spec.
  destruct (first_fault fault (add_ops vector chunks)); cbn;
    [reflexivity|now rewrite app_nil_r].
Qed.

(** C7, as the code has it.  When the connection cannot be made,
    [retrieve_context] fails with that exception.  When it is made,
    [retrieve_context] fails with the first exception a call raises
    and returns the rows otherwise, whereas [add_manual_chunks_to_db]
    returns normally in either case and only prints the exception;
    both close the connection they acquired. *)
Theorem store_failure_handling query_string deviceType chunks w :
  match (get_psycopg_client fault DB_ENV w).1 with
  | Raise e => (retrieve query_string deviceType w).1 = Raise e
  | Ok client =>
      (retrieve query_string deviceType w).1
      = match first_fault fault (ops_of_retrieve query_string deviceType) with
        | Some e => Raise e
        | None => Ok (result_of_retrieve query_string deviceType)
        end /\
      (client ∉ open_connections (retrieve query_string deviceType w).2) /\
      (insert chunks w).1 = Ok tt /\
      printed (insert chunks w).2
      = printed w ++ match first_fault fault (add_ops vector chunks) with
                     | Some e => [e]
                     | None => []
                     end /\
      (client ∉ open_connections (insert chunks w).2)
  end.
Proof.
  destruct (get_psycopg_client_cases w) as [[e H]|H]; rewrite H; cbn [fst].
  - now rewrite (retrieve_context_failed _ _ _ _ H).
  - rewrite (retrieve_context_connected query_string deviceType _ _ _ H).
    rewrite (add_manual_chunks_connected chunks _ _ _ H).
    cbn [fst snd open_connections printed].
    assert (Hclosed : forall (c : connection) (o : gset connection),
               c ∉ o ∖ {[c]}).
    { intros c o Hin. apply elem_of_difference in Hin as [_ Hin].
      apply Hin. now apply elem_of_singleton. }
    split; [reflexivity|].
    split; [apply Hclosed|]. split; [reflexivity|]. split; [reflexivity|].
    apply Hclosed.
Qed.

End WithEnvironment.

(** The bulk insert fails and [add_manual_chunks_to_db] returns
    normally: the exception is printed and the caller sees no failure. *)
Lemma store_failure_handling_counterexample :
  first_fault insert_fails (add_ops unit sample_chunks)
    = Some (LibraryError "server closed the connection") /\
  (add_manual_chunks_to_db unit insert_fails "local" (fun _ => tt)
     (fun _ => "[]") sample_chunks fresh_world).1 = Ok tt /\
  ~ claimed_insert_propagates unit insert_fails "local" (fun _ => tt)
      (fun _ => "[]") sample_chunks fresh_world.
Proof.
  split; [reflexivity|]. split; [reflexivity|].
  intros H. destruct (H _ eq_refl) as [e' He']. discriminate He'.
Qed.

End StoreFacts.

(* ===================================================================== *)
(** * Further properties of the chunker *)
(* ===================================================================== *)

Module ChunkingExtra.
Import PyStr PyStrFacts Chunking ChunkingFacts ChunkingNotions.

Lemma dict_set_length k v (d : dict) :
  (1 <= length (dict_set k v d) <= S (length d))%nat.
Proof.
  induction d as [|[k0 v0] d IH]; cbn [dict_set length]; [lia|].
  destruct (String.eqb k k0); cbn [length]; lia.
Qed.

Lemma step_dict_length overlap s seg :
  (length (output_dict (step overlap s seg)) <= S (length (output_dict s)))%nat.
Proof.
  destruct seg as [t n]. unfold step.
  destruct (is_header t); [destruct (page_num s)|
    destruct (len (current_string s) + len t <=? max_len)%nat];
    cbn [output_dict]; try lia; apply dict_set_length.
Qed.

Lemma run_from_dict_length overlap segs s :
  (length (output_dict (run_from overlap s segs))
   <= length (output_dict s) + length segs)%nat.
Proof.
  revert s. induction segs as [|seg segs IH]; intros s; cbn [run_from fold_left length].
  - lia.
  - pose proof (IH (step overlap s seg)) as H. unfold run_from in H.
    pose proof (step_dict_length overlap s seg). lia.
Qed.

(** X1.  The returned list is never empty and has at most one chunk more than
    there are segments. *)
Theorem naive_chunking_count segs overlap :
  (1 <= length (naive_chunking segs overlap) <= S (length segs))%nat.
Proof.
  unfold naive_chunking, finish. rewrite length_map.
  pose proof (dict_set_length (current_string (run overlap segs))
                (page_num (run overlap segs)) (output_dict (run overlap segs))).
  pose proof (run_from_dict_length overlap segs init) as H0.
  fold (run overlap segs) in H0. cbn [init output_dict length] in H0. lia.
Qed.

Lemma dict_set_NoDup k v (d : dict) : NoDup d.*1 -> NoDup (dict_set k v d).*1.
Proof.
  induction d as [|[k0 v0] d IH]; cbn [dict_set]; intros Hnd.
  - cbn. apply NoDup_singleton.
  - destruct (String.eqb_spec k k0) as [->|Hne]; [exact Hnd|].
    cbn in *. apply NoDup_cons in Hnd as [Hnin Hnd].
    apply NoDup_cons. split; [|auto].
    rewrite dict_set_keys. intros [->|Hin]; [congruence|auto].
Qed.

Lemma step_NoDup overlap s seg :
  NoDup (output_dict s).*1 -> NoDup (output_dict (step overlap s seg)).*1.
Proof.
  intros Hnd. destruct seg as [t n]. unfold step.
  destruct (is_header t); [destruct (page_num s)|
    destruct (len (current_string s) + len t <=? max_len)%nat];
    cbn [output_dict]; auto using dict_set_NoDup.
Qed.

Lemma run_from_NoDup overlap segs s :
  NoDup (output_dict s).*1 -> NoDup (output_dict (run_from overlap s segs)).*1.
Proof.
  revert s. induction segs as [|seg segs IH]; intros s Hnd; [exact Hnd|].
  apply IH, step_NoDup, Hnd.
Qed.

Lemma finish_text_keys s :
  text <$> finish s = (dict_set (current_string s) (page_num s) (output_dict s)).*1.
Proof.
  unfold finish. rewrite <- list_fmap_compose.
  apply list_fmap_ext. now intros i [k' v'].
Qed.

(** X2.  No two chunks of the returned list have the same text. *)
Theorem naive_chunking_texts_distinct segs overlap :
  NoDup (text <$> naive_chunking segs overlap).
Proof.
  unfold naive_chunking. rewrite finish_text_keys.
  apply dict_set_NoDup, run_from_NoDup. cbn. apply NoDup_nil_2.
Qed.

(** ** No segment is lost *)

Lemma occurs_in_refl t : occurs_in t t.
Proof. exists "", "". cbn. now rewrite str_app_nil_r. Qed.

Lemma occurs_in_app_l t s s' : occurs_in t s -> occurs_in t (s +:+ s').
Proof.
  intros (pre & post & ->). exists pre, (post +:+ s').
  now rewrite !str_app_assoc.
Qed.

Lemma occurs_in_app_r t s s' : occurs_in t s -> occurs_in t (s' +:+ s).
Proof.
  intros (pre & post & ->). exists (s' +:+ pre), post.
  now rewrite !str_app_assoc.
Qed.

Lemma occurs_in_empty t s : occurs_in t "" -> occurs_in t s.
Proof.
  intros (pre & post & H). destruct pre; [|discriminate].
  cbn in H. destruct t; [|discriminate]. now exists "", s.
Qed.

Lemma step_kept_old overlap s seg t :
  page_recorded s -> kept s t -> kept (step overlap s seg) t.
Proof.
  intros Hrec [Hcur|(k & Hk & Hocc)].
  - destruct seg as [t' n]. unfold step.
    destruct (is_header t').
    + destruct (page_num s) as [p|] eqn:Hp.
      * right. exists (current_string s). split; [|exact Hcur].
        state_simpl. apply dict_set_keys. now left.
      * left. state_simpl. rewrite (Hrec Hp) in Hcur.
        now apply occurs_in_empty.
    + destruct (len (current_string s) + len t' <=? max_len)%nat.
      * left. state_simpl. now apply occurs_in_app_l.
      * right. exists (current_string s). split; [|exact Hcur].
        state_simpl. apply dict_set_keys. now left.
  - right. exists k. split; [|exact Hocc]. now apply step_keys.
Qed.

Lemma step_kept_new overlap s t n : kept (step overlap s (t, n)) t.
Proof.
  left. unfold step. destruct (is_header t); [apply occurs_in_refl|].
  destruct (len (current_string s) + len t <=? max_len)%nat; state_simpl.
  - apply occurs_in_app_r, occurs_in_app_r, occurs_in_refl.
  - destruct overlap; [|apply occurs_in_refl].
    apply occurs_in_app_r, occurs_in_app_r, occurs_in_refl.
Qed.

Lemma run_from_kept overlap segs s t :
  page_recorded s ->
  kept s t \/ t ∈ segs.*1 ->
  kept (run_from overlap s segs) t.
Proof.
  revert s. induction segs as [|[t' n] segs IH]; intros s Hrec H.
  - destruct H as [H|H]; [exact H|]. now apply elem_of_nil in H.
  - change (run_from overlap s ((t', n) :: segs))
      with (run_from overlap (step overlap s (t', n)) segs).
    apply IH; [apply step_page_recorded|].
    destruct H as [H|H]; [left; now apply step_kept_old|].
    cbn in H. apply elem_of_cons in H as [->|H]; [|now right].
    left. apply step_kept_new.
Qed.

(** X3.  No text is dropped: the text of every segment occurs in the text of
    some chunk of the returned list. *)
Theorem naive_chunking_keeps_segments segs overlap seg :
  seg ∈ segs ->
  exists c, c ∈ naive_chunking segs overlap /\ occurs_in seg.1 (text c).
Proof.
  intros Hin.
  assert (Hk : kept (run overlap segs) seg.1).
  { apply run_from_kept; [intros _; reflexivity|].
    right. apply list_elem_of_fmap. eauto. }
  assert (Hkey : exists k, k ∈ text <$> naive_chunking segs overlap
                           /\ occurs_in seg.1 k).
  { destruct Hk as [Hcur|(k & Hkin & Hocc)].
    - exists (current_string (run overlap segs)). split; [|exact Hcur].
      apply finish_texts. now left.
    - exists k. split; [|exact Hocc]. apply finish_texts. now right. }
  destruct Hkey as (k & Hkin & Hocc).
  apply list_elem_of_fmap in Hkin as (c & -> & Hc). eauto.
Qed.

Lemma naive_chunking_keeps_segments_witness :
  ("x", 2) ∈ [("# A", 1); ("x", 2)] /\
  exists c, c ∈ naive_chunking [("# A", 1); ("x", 2)] true
            /\ occurs_in ("x", 2).1 (text c).
Proof.
  assert (H : ("x", 2) ∈ [("# A", 1); ("x", 2)]) by (right; left).
  split; [exact H|].
  exact (naive_chunking_keeps_segments _ true _ H).
Defined.

(** ** Pages *)

Lemma elem_of_dict_set k v (d : dict) kv :
  kv ∈ dict_set k v d -> kv = (k, v) \/ kv ∈ d.
Proof.
  induction d as [|[k0 v0] d IH]; cbn [dict_set].
  - intros H. apply list_elem_of_singleton in H. now left.
  - destruct (String.eqb_spec k k0) as [->|Hne]; rewrite !elem_of_cons.
    + intros [->|H]; [now left|right; now right].
    + intros [->|H]; [right; now left|].
      destruct (IH H) as [->|H']; [now left|right; now right].
Qed.

Lemma Forall_dict_set_pairs (P : string * option Z -> Prop) k v (d : dict) :
  P (k, v) -> Forall P d -> Forall P (dict_set k v d).
Proof.
  rewrite !Forall_forall. intros Hk Hd kv Hin.
  apply elem_of_dict_set in Hin as [->|Hin]; auto.
Qed.

Lemma step_pages_inv overlap segs s seg :
  seg ∈ segs -> pages_inv segs s -> pages_inv segs (step overlap s seg).
Proof.
  intros Hin [Hcur Hd].
  assert (Hn : seg.2 ∈ segs.*2) by (apply list_elem_of_fmap; eauto).
  destruct seg as [t n]. cbn [snd] in Hn. unfold step.
  destruct (is_header t).
  - split; state_simpl; [exact Hn|].
    destruct (page_num s) as [p|] eqn:Hp; [|exact Hd].
    apply Forall_dict_set_pairs; [|exact Hd]. exact Hcur.
  - destruct (len (current_string s) + len t <=? max_len)%nat.
    + split; state_simpl; [|exact Hd].
      unfold earlier_page. destruct (page_num s) as [p|]; [|exact Hn].
      destruct (n <? p); [exact Hn|exact Hcur].
    + split; state_simpl; [exact Hn|].
      apply Forall_dict_set_pairs; [|exact Hd]. exact Hcur.
Qed.

Lemma run_from_pages_inv overlap segs segs' s :
  (forall seg, seg ∈ segs' -> seg ∈ segs) ->
  pages_inv segs s -> pages_inv segs (run_from overlap s segs').
Proof.
  revert s. induction segs' as [|seg segs' IH]; intros s Hsub Hs; [exact Hs|].
  apply IH; [intros x Hx; apply Hsub; now right|].
  apply step_pages_inv; [apply Hsub; left|exact Hs].
Qed.

Lemma init_pages_inv segs : pages_inv segs init.
Proof. split; [reflexivity|constructor]. Qed.

Lemma finish_pages_inv segs s c :
  pages_inv segs s -> c ∈ finish s -> page_ok segs (text c) (page_no c).
Proof.
  intros [Hcur Hd] Hc. unfold finish in Hc.
  apply list_elem_of_fmap in Hc as ([k v] & -> & Hin). cbn [page_no text fst snd].
  apply elem_of_dict_set in Hin as [[= -> ->]|Hin]; [exact Hcur|].
  rewrite Forall_forall in Hd. exact (Hd _ Hin).
Qed.

(** X4.  The page of a chunk is the page of one of the segments; a chunk
    without a page has the empty text. *)
Theorem naive_chunking_pages segs overlap c :
  c ∈ naive_chunking segs overlap ->
  match page_no c with
  | Some p => p ∈ segs.*2
  | None => text c = ""
  end.
Proof.
  intros Hc.
  pose proof (run_from_pages_inv overlap segs segs init (fun _ H => H)
                (init_pages_inv segs)) as Hinv.
  exact (finish_pages_inv segs _ c Hinv Hc).
Qed.

Lemma naive_chunking_pages_witness :
  let c := Chunk "# A x" (Some 1) in
  c ∈ naive_chunking [("# A", 1); ("x", 2)] true /\
  match page_no c with
  | Some p => p ∈ [("# A", 1); ("x", 2)].*2
  | None => text c = ""
  end.
Proof.
  cbv zeta.
  assert (H : Chunk "# A x" (Some 1) ∈ naive_chunking [("# A", 1); ("x", 2)] true)
    by (vm_compute; left).
  split; [exact H|]. exact (naive_chunking_pages _ _ _ H).
Defined.

(** ** Everything fits in one chunk *)

Lemma joined_cons t n segs : joined ((t, n) :: segs) = " " +:+ t +:+ joined segs.
Proof. unfold joined. cbn [map concat_str fst]. now rewrite str_app_assoc. Qed.

Lemma earlier_page_min p n : earlier_page (Some p) n = Some (Z.min p n).
Proof.
  unfold earlier_page. destruct (Z.ltb_spec n p); f_equal; lia.
Qed.

Lemma run_from_all_fit overlap segs s p :
  Forall (fun seg => is_header seg.1 = false) segs ->
  (len (current_string s) + len (joined segs) <= max_len + 1)%nat ->
  page_num s = Some p ->
  current_string (run_from overlap s segs) = current_string s +:+ joined segs /\
  page_num (run_from overlap s segs)
    = Some (fold_left (fun p seg => Z.min p seg.2) segs p) /\
  output_dict (run_from overlap s segs) = output_dict s.
Proof.
  revert s p. induction segs as [|[t n] segs IH]; intros s p Hh Hlen Hp.
  - cbn. now rewrite str_app_nil_r.
  - apply Forall_cons in Hh as [Hh Hhs]. cbn [fst] in Hh.
    rewrite joined_cons, !len_app in Hlen. cbn [len String.length] in Hlen.
    change (run_from overlap s ((t, n) :: segs))
      with (run_from overlap (step overlap s (t, n)) segs).
    assert (Hstep : step overlap s (t, n)
                    = {| current_string := current_string s +:+ " " +:+ t;
                         last_str := t;
                         page_num := Some (Z.min p n);
                         output_dict := output_dict s |}).
    { unfold step. rewrite Hh.
      destruct (Nat.leb_spec (len (current_string s) + len t) max_len) as [_|Hgt];
        [|unfold len in *; lia].
      now rewrite Hp, earlier_page_min. }
    rewrite Hstep.
    destruct (IH (State (current_string s +:+ " " +:+ t) t (Some (Z.min p n))
                        (output_dict s))
                 (Z.min p n) Hhs) as (Hc & Hpn & Hd); state_simpl.
    + rewrite !len_app. cbn [len String.length]. unfold len in *. lia.
    + reflexivity.
    + rewrite Hc, Hpn, Hd. state_simpl. rewrite joined_cons.
      split; [now rewrite !str_app_assoc|]. split; reflexivity.
Qed.

(** X5.  When no segment is a header and the segments, each preceded by a
    space, make at most [max_len + 1] characters together, they are
    merged into a single chunk whose page is the smallest page among
    them. *)
Theorem naive_chunking_single_chunk seg0 rest overlap :
  Forall (fun seg => is_header seg.1 = false) (seg0 :: rest) ->
  (len (joined (seg0 :: rest)) <= max_len + 1)%nat ->
  naive_chunking (seg0 :: rest) overlap
  = [Chunk (joined (seg0 :: rest)) (Some (min_page seg0 rest))].
Proof.
  intros Hh Hlen. destruct seg0 as [t n].
  apply Forall_cons in Hh as [Hh Hhs]. cbn [fst] in Hh.
  rewrite joined_cons in *. rewrite !len_app in Hlen.
  cbn [len String.length] in Hlen.
  unfold naive_chunking, run.
  change (run_from overlap init ((t, n) :: rest))
    with (run_from overlap (step overlap init (t, n)) rest).
  assert (Hstep : step overlap init (t, n)
                  = {| current_string := " " +:+ t; last_str := t;
                       page_num := Some n; output_dict := [] |}).
  { unfold step. rewrite Hh. cbn [init current_string page_num].
    destruct (Nat.leb_spec (len "" + len t) max_len) as [_|Hgt];
      [reflexivity|cbn [len String.length] in Hgt; unfold len in *; lia]. }
  rewrite Hstep.
  destruct (run_from_all_fit overlap rest (State (" " +:+ t) t (Some n) []) n Hhs)
    as (Hc & Hpn & Hd); state_simpl.
  - rewrite !len_app. cbn [len String.length]. unfold len in *. lia.
  - reflexivity.
  - unfold finish. rewrite Hc, Hpn, Hd. state_simpl. cbn [dict_set map fst snd].
    unfold min_page. cbn [snd]. now rewrite !str_app_assoc.
Qed.

Lemma naive_chunking_single_chunk_witness :
  let seg0 : segment := ("b", 3) in
  let rest : list segment := [("a", 2); ("c", 5)] in
  Forall (fun seg => is_header seg.1 = false) (seg0 :: rest) /\
  (len (joined (seg0 :: rest)) <= max_len + 1)%nat /\
  naive_chunking (seg0 :: rest) true
  = [Chunk (joined (seg0 :: rest)) (Some (min_page seg0 rest))].
Proof.
  intros seg0 rest.
  assert (H1 : Forall (fun seg => is_header seg.1 = false) (seg0 :: rest))
    by (repeat constructor).
  assert (H2 : (len (joined (seg0 :: rest)) <= max_len + 1)%nat)
    by (apply Nat.leb_le; vm_compute; reflexivity).
  split; [exact H1|]. split; [exact H2|].
  exact (naive_chunking_single_chunk seg0 rest true H1 H2).
Defined.

End ChunkingExtra.

(* ===================================================================== *)
(** * Further properties of the page detector *)
(* ===================================================================== *)

Module PdfUtilExtra.
Import PyStr PyStrFacts PdfUtil PdfUtilFacts PdfUtilNotions.

Lemma enumerate_snoc {A} (l : list A) x :
  enumerate (l ++ [x]) = enumerate l ++ [(Z.of_nat (length l), x)].
Proof.
  unfold enumerate. rewrite length_app. cbn [length].
  replace (Z.of_nat (length l + 1)) with (Z.of_nat (length l) + 1) by lia.
  rewrite seqZ_app by lia.
  rewrite zip_with_app by (rewrite length_seqZ; lia).
  rewrite Z.add_0_l. reflexivity.
Qed.

Section Loop.
Variable detect : string -> option string.
Variable re_search : string -> string -> bool.
Variable re_findall_count : string -> string -> nat.

Let loop := pages_loop detect re_search re_findall_count.
Let step := page_step detect re_search re_findall_count.

Lemma pages_loop_snoc pages pg :
  loop (pages ++ [pg]) = step (loop pages) (Z.of_nat (length pages), pg).
Proof.
  unfold loop, pages_loop. now rewrite enumerate_snoc, fold_left_app.
Qed.

Lemma pages_loop_app pages1 pages2 x :
  x ∈ pages_to_remove (loop pages1) ->
  x ∈ pages_to_remove (loop (pages1 ++ pages2)).
Proof.
  induction pages2 as [|pg pages2 IH] using rev_ind.
  - now rewrite app_nil_r.
  - intros Hx. rewrite app_assoc, pages_loop_snoc.
    apply page_step_mono. auto.
Qed.

Lemma page_step_en st i pg :
  is_en (detect (lower (get_text pg))) = true ->
  step st (i, pg) =
  let text := lower (get_text pg) in
  let r := title_notice_marks i text (pages_to_remove st) in
  if takes_toc_branch re_search re_findall_count st i text then
    {| pages_to_remove :=
         (if in_toc_section st then {[i]} ∪ r else range 0 i ∪ ({[i]} ∪ r));
       in_toc_section := true;
       consecutive_toc_count := S (consecutive_toc_count st) |}
  else
    {| pages_to_remove := r; in_toc_section := false;
       consecutive_toc_count := 0 |}.
Proof. intros H. unfold step, page_step. now rewrite H. Qed.

Lemma page_step_other st i pg :
  is_en (detect (lower (get_text pg))) = false ->
  step st (i, pg) =
  {| pages_to_remove := {[i]} ∪ pages_to_remove st;
     in_toc_section := in_toc_section st;
     consecutive_toc_count := consecutive_toc_count st |}.
Proof. intros H. unfold step, page_step. now rewrite H. Qed.

Lemma title_notice_marks_spec i text r x :
  x ∈ title_notice_marks i text r -> x ∈ r \/ (x = i /\ i <= 10).
Proof.
  unfold title_notice_marks.
  destruct (_ && (i <=? 10)) eqn:H1; destruct ((i =? 0) && _) eqn:H2;
    rewrite ?elem_of_union, ?elem_of_singleton;
    rewrite ?andb_true_iff, ?Z.eqb_eq, ?Z.leb_le in *; intuition lia.
Qed.

Lemma title_notice_marks_mono i text r x :
  x ∈ r -> x ∈ title_notice_marks i text r.
Proof.
  unfold title_notice_marks.
  destruct (_ && (i <=? 10)); destruct ((i =? 0) && _);
    rewrite ?elem_of_union; tauto.
Qed.

(** While the loop is inside a table of contents, every page seen so far
    is marked. *)
Lemma in_toc_section_all_marked pages j :
  in_toc_section (loop pages) = true ->
  0 <= j < Z.of_nat (length pages) ->
  j ∈ pages_to_remove (loop pages).
Proof.
  revert j. induction pages as [|pg pages IH] using rev_ind; intros j Hin Hj.
  - cbn in Hj. lia.
  - rewrite pages_loop_snoc in *. rewrite length_app in Hj. cbn [length] in Hj.
    set (i := Z.of_nat (length pages)) in *.
    assert (Hold : in_toc_section (loop pages) = true -> j < i ->
                   j ∈ pages_to_remove (loop pages))
      by (intros H1 H2; apply IH; [exact H1|lia]).
    destruct (is_en (detect (lower (get_text pg)))) eqn:Hen.
    + rewrite (page_step_en _ _ _ Hen) in *. cbv zeta in *.
      destruct (takes_toc_branch _ _ _ _ _); [|discriminate Hin].
      cbn [pages_to_remove].
      destruct (Z.eq_dec j i) as [->|Hne].
      * destruct (in_toc_section (loop pages));
          rewrite !elem_of_union, elem_of_singleton; tauto.
      * destruct (in_toc_section (loop pages)) eqn:Hst.
        -- apply elem_of_union. right. apply title_notice_marks_mono.
           apply Hold; [reflexivity|lia].
        -- apply elem_of_union. left. apply elem_of_range. lia.
    + rewrite (page_step_other _ _ _ Hen) in *.
      cbn [in_toc_section pages_to_remove] in *.
      apply elem_of_union. destruct (Z.eq_dec j i) as [->|Hne].
      * left. now apply elem_of_singleton.
      * right. apply Hold; [exact Hin|lia].
Qed.

(** A page the loop marks is one of the first twenty pages or a page
    that is not detected as English. *)
Lemma pages_loop_marks pages x :
  x ∈ pages_to_remove (loop pages) ->
  0 <= x < Z.of_nat (length pages) /\
  (x < 20 \/
   exists pg, pages !! Z.to_nat x = Some pg /\
              is_en (detect (lower (get_text pg))) = false).
Proof.
  revert x. induction pages as [|pg pages IH] using rev_ind; intros x Hx.
  - cbn in Hx. now apply elem_of_empty in Hx.
  - rewrite pages_loop_snoc in Hx. rewrite length_app. cbn [length].
    set (i := Z.of_nat (length pages)) in *.
    assert (Hold : x ∈ pages_to_remove (loop pages) ->
              0 <= x < Z.of_nat (length pages + 1) /\
              (x < 20 \/
               exists pg0, (pages ++ [pg]) !! Z.to_nat x = Some pg0 /\
                           is_en (detect (lower (get_text pg0))) = false)).
    { intros H. destruct (IH x H) as [Hb [Hlt|(pg0 & Hl & He)]].
      - split; [lia|now left].
      - split; [lia|]. right. exists pg0. split; [|exact He].
        now apply lookup_app_l_Some. }
    destruct (is_en (detect (lower (get_text pg)))) eqn:Hen.
    + rewrite (page_step_en _ _ _ Hen) in Hx. cbv zeta in Hx.
      assert (Hmarks : x ∈ title_notice_marks i (lower (get_text pg))
                             (pages_to_remove (loop pages)) ->
                0 <= x < Z.of_nat (length pages + 1) /\
                (x < 20 \/
                 exists pg0, (pages ++ [pg]) !! Z.to_nat x = Some pg0 /\
                             is_en (detect (lower (get_text pg0))) = false)).
      { intros H. apply title_notice_marks_spec in H as [H|[-> Hle]]; [auto|].
        split; [lia|left; lia]. }
      destruct (takes_toc_branch _ _ _ _ _) eqn:Htoc; cbn [pages_to_remove] in Hx;
        [|auto].
      unfold takes_toc_branch in Htoc.
      apply andb_true_iff in Htoc as [_ Hi]. apply Z.ltb_lt in Hi.
      destruct (in_toc_section (loop pages));
        rewrite ?elem_of_union, ?elem_of_singleton, ?elem_of_range in Hx.
      * destruct Hx as [->|Hx]; [split; [lia|left; lia]|auto].
      * destruct Hx as [Hx|[->|Hx]]; [split; [lia|left; lia]| |auto].
        split; [lia|left; lia].
    + rewrite (page_step_other _ _ _ Hen) in Hx. cbn [pages_to_remove] in Hx.
      apply elem_of_union in Hx as [Hx|Hx]; [|auto].
      apply elem_of_singleton in Hx as ->. split; [lia|]. right.
      exists pg. split; [|exact Hen].
      unfold i. rewrite Nat2Z.id. apply list_lookup_middle. reflexivity.
Qed.

Lemma page_loop_pages_loop doc :
  page_loop detect re_search re_findall_count doc = loop (pages doc).
Proof. reflexivity. Qed.

Lemma toc_rule_no_match ndoc toc r :
  no_denylisted toc -> toc_rule ndoc toc r = r.
Proof.
  revert r. induction toc as [|item rest IH]; intros r Hno; [reflexivity|].
  apply Forall_cons in Hno as [Hitem Hrest].
  cbn [toc_rule]. rewrite Hitem. now apply IH.
Qed.

Variable re_match_toc : string -> option (string * Z).

Let detect_pages :=
  detect_irrelevant_pages detect re_search re_findall_count re_match_toc.

(** X6.  An English page among the first twenty that shows a table-of-contents
    indicator is excluded together with every page before it. *)
Theorem toc_page_excludes_front_matter doc (i j : nat) pg :
  pages doc !! i = Some pg ->
  is_en (detect (lower (get_text pg))) = true ->
  has_toc_indicators re_search (lower (get_text pg)) = true ->
  (i < 20)%nat -> (j <= i)%nat ->
  Z.of_nat j ∈ detect_pages doc.
Proof.
  intros Hi Hen Htoc Hlt Hj.
  unfold detect_pages, detect_irrelevant_pages.
  apply toc_rule_mono. rewrite page_loop_pages_loop.
  rewrite <- (take_drop_middle _ _ _ Hi).
  change (pg :: drop (S i) (pages doc)) with ([pg] ++ drop (S i) (pages doc)).
  rewrite app_assoc. apply pages_loop_app.
  assert (Hlen : length (take i (pages doc)) = i).
  { apply length_take_le. apply lookup_lt_Some in Hi. lia. }
  rewrite pages_loop_snoc, Hlen, (page_step_en _ _ _ Hen). cbv zeta.
  unfold takes_toc_branch. rewrite Htoc. cbn [orb andb].
  destruct (Z.ltb_spec (Z.of_nat i) 20) as [_|?]; [|lia].
  cbn [pages_to_remove].
  destruct (Nat.eq_dec j i) as [->|Hne].
  - destruct (in_toc_section _); rewrite !elem_of_union, elem_of_singleton; tauto.
  - destruct (in_toc_section (loop (take i (pages doc)))) eqn:Hst.
    + apply elem_of_union. right. apply title_notice_marks_mono.
      apply in_toc_section_all_marked; [exact Hst|lia].
    + apply elem_of_union. left. apply elem_of_range. lia.
Qed.

(** X7.  When no title of the table of contents matches the denylist, every
    excluded index is a page index of the document, and it is one of the
    first twenty pages or a page not detected as English. *)
Theorem exclusions_without_denylisted_titles doc x :
  no_denylisted (extract_table_of_contents re_match_toc doc) ->
  x ∈ detect_pages doc ->
  0 <= x < Z.of_nat (length (pages doc)) /\
  (x < 20 \/
   exists pg, pages doc !! Z.to_nat x = Some pg /\
              is_en (detect (lower (get_text pg))) = false).
Proof.
  intros Hno. unfold detect_pages, detect_irrelevant_pages.
  rewrite (toc_rule_no_match _ _ _ Hno), page_loop_pages_loop.
  apply pages_loop_marks.
Qed.

Lemma toc_rule_last ndoc pre item r x :
  search_alt denylist (title item) = true ->
  toc_page item <= x < ndoc ->
  x ∈ toc_rule ndoc (pre ++ [item]) r.
Proof.
  intros Hm Hx. revert r. induction pre as [|p pre IH]; intros r.
  - cbn [app toc_rule]. rewrite Hm. unfold toc_match.
    apply elem_of_union. left. apply elem_of_range. lia.
  - cbn [app toc_rule]. apply IH.
Qed.

(** X8.  When the last entry of the table of contents matches the denylist,
    every page index from the entry's page number to the end of the
    document is excluded. *)
Theorem last_toc_entry_excludes_rest doc pre item x :
  extract_table_of_contents re_match_toc doc = pre ++ [item] ->
  search_alt denylist (title item) = true ->
  toc_page item <= x < Z.of_nat (length (pages doc)) ->
  x ∈ detect_pages doc.
Proof.
  intros Htoc Hm Hx. unfold detect_pages, detect_irrelevant_pages.
  rewrite Htoc. now apply toc_rule_last.
Qed.

End Loop.

Lemma toc_page_excludes_front_matter_witness :
  let doc := Document [] [plain_page; plain_page; Page "Table of Contents" []] in
  let pg := Page "Table of Contents" [] in
  pages doc !! 2%nat = Some pg /\
  is_en (sample_detect (lower (get_text pg))) = true /\
  has_toc_indicators no_search (lower (get_text pg)) = true /\
  (2 < 20)%nat /\ (1 <= 2)%nat /\
  Z.of_nat 1 ∈ sample_pages doc.
Proof.
  cbv zeta. repeat (split; [reflexivity || lia|]).
  apply (toc_page_excludes_front_matter sample_detect no_search no_findall no_match
           (Document [] [plain_page; plain_page; Page "Table of Contents" []])
           2 1 (Page "Table of Contents" []));
    (reflexivity || lia).
Defined.

Lemma exclusions_without_denylisted_titles_witness :
  let doc := Document [] [plain_page; empty_page] in
  no_denylisted (extract_table_of_contents no_match doc) /\
  1 ∈ sample_pages doc /\
  0 <= 1 < Z.of_nat (length (pages doc)) /\
  (1 < 20 \/
   exists pg, pages doc !! Z.to_nat 1 = Some pg /\
              is_en (sample_detect (lower (get_text pg))) = false).
Proof.
  cbv zeta.
  assert (H1 : no_denylisted (extract_table_of_contents no_match
                                (Document [] [plain_page; empty_page])))
    by constructor.
  assert (H2 : 1 ∈ sample_pages (Document [] [plain_page; empty_page]))
    by (refine (bool_decide_unpack _ _); vm_compute; exact I).
  split; [exact H1|]. split; [exact H2|].
  exact (exclusions_without_denylisted_titles sample_detect no_search no_findall
           no_match _ 1 H1 H2).
Defined.

Lemma last_toc_entry_excludes_rest_witness :
  let doc := sample_doc [(1, "intro", 1); (1, "index", 3)] 5 in
  let item := TocEntry "index" 3 1 in
  extract_table_of_contents no_match doc = [TocEntry "intro" 1 1] ++ [item] /\
  search_alt denylist (title item) = true /\
  toc_page item <= 4 < Z.of_nat (length (pages doc)) /\
  4 ∈ sample_pages doc.
Proof.
  cbv zeta. split; [reflexivity|]. split; [reflexivity|].
  split; [cbn; lia|].
  apply (last_toc_entry_excludes_rest sample_detect no_search no_findall no_match
           (sample_doc [(1, "intro", 1); (1, "index", 3)] 5)
           [TocEntry "intro" 1 1] (TocEntry "index" 3 1) 4);
    [reflexivity|reflexivity|cbn; lia].
Defined.

(** ** Depths of a synthesised table of contents *)

#[local] Instance desc_total : Total desc.
Proof. intros a b. unfold desc. lia. Qed.

#[local] Instance desc_trans : Transitive desc.
Proof. intros a b c. unfold desc. lia. Qed.

Lemma StronglySorted_lookup_lt (l : list Z) i j x y :
  StronglySorted desc l -> l !! i = Some x -> l !! j = Some y ->
  (i < j)%nat -> desc x y.
Proof.
  intros Hs. revert i j. induction Hs as [|a l Hs IH Hall]; intros i j Hi Hj Hlt.
  - now rewrite lookup_nil in Hi.
  - destruct j as [|j]; [lia|]. cbn in Hj. destruct i as [|i].
    + cbn in Hi. injection Hi as ->.
      rewrite Forall_forall in Hall. apply Hall.
      eapply list_elem_of_lookup_2, Hj.
    + cbn in Hi. apply (IH i j); [assumption..|lia].
Qed.

Lemma ebene_lookup (sorted : list Z) i size :
  NoDup sorted -> sorted !! i = Some size ->
  ebene (zip sorted (seqZ 1 (Z.of_nat (length sorted)))) size = 1 + Z.of_nat i.
Proof.
  intros Hnd Hi. unfold ebene.
  assert (Hz : zip sorted (seqZ 1 (Z.of_nat (length sorted))) !! i
               = Some (size, 1 + Z.of_nat i)).
  { apply lookup_zip_with_Some. exists size, (1 + Z.of_nat i).
    split; [reflexivity|]. split; [exact Hi|].
    apply lookup_seqZ_lt. apply lookup_lt_Some in Hi. lia. }
  assert (Hfind : list_find (fun kv : Z * Z => kv.1 = size)
                    (zip sorted (seqZ 1 (Z.of_nat (length sorted))))
                  = Some (i, (size, 1 + Z.of_nat i))).
  { apply list_find_Some. split; [exact Hz|]. split; [reflexivity|].
    intros j [s d] Hj Hlt Heq. cbn in Heq. subst s.
    apply lookup_zip_with_Some in Hj as (s' & d' & [= <- <-] & Hs & _).
    pose proof (NoDup_lookup _ _ _ _ Hnd Hs Hi). lia. }
  now rewrite Hfind.
Qed.

(** X9.  The depth assigned to the font sizes found in the pages: the larger
    the font, the smaller the depth, starting from 1 and without gaps
    beyond the number of distinct sizes. *)
Theorem ebene_orders_font_sizes (sizes : list Z) s1 s2 :
  s1 ∈ sizes -> s2 ∈ sizes ->
  1 <= ebene (ebenen_dict sizes) s1 <= Z.of_nat (length (remove_dups sizes)) /\
  (s2 < s1 <-> ebene (ebenen_dict sizes) s1 < ebene (ebenen_dict sizes) s2).
Proof.
  intros H1 H2. unfold ebenen_dict.
  set (sorted := merge_sort desc (remove_dups sizes)).
  assert (Hperm : sorted ≡ₚ remove_dups sizes) by apply merge_sort_Permutation.
  assert (Hnd : NoDup sorted)
    by (rewrite Hperm; apply NoDup_remove_dups).
  assert (Hs : StronglySorted desc sorted)
    by (apply StronglySorted_merge_sort; apply _).
  assert (Hin : forall s, s ∈ sizes -> exists i, sorted !! i = Some s).
  { intros s Hsin. apply list_elem_of_lookup. rewrite Hperm.
    now apply elem_of_remove_dups. }
  destruct (Hin s1 H1) as [i1 Hi1]. destruct (Hin s2 H2) as [i2 Hi2].
  rewrite (ebene_lookup sorted i1 s1 Hnd Hi1), (ebene_lookup sorted i2 s2 Hnd Hi2).
  split.
  - apply lookup_lt_Some in Hi1. rewrite <- (Permutation_length Hperm). lia.
  - split.
    + intros Hlt. destruct (Nat.lt_trichotomy i1 i2) as [?|[->|Hgt]]; [lia| |].
      * rewrite Hi1 in Hi2. injection Hi2 as ->. lia.
      * pose proof (StronglySorted_lookup_lt _ _ _ _ _ Hs Hi2 Hi1 Hgt) as Hd.
        unfold desc in Hd. lia.
    + intros Hlt. assert (Hi : (i1 < i2)%nat) by lia.
      pose proof (StronglySorted_lookup_lt _ _ _ _ _ Hs Hi1 Hi2 Hi) as Hd.
      unfold desc in Hd.
      destruct (Z.eq_dec s1 s2) as [->|Hne]; [|lia].
      pose proof (NoDup_lookup _ _ _ _ Hnd Hi1 Hi2). lia.
Qed.

Lemma ebene_orders_font_sizes_witness :
  let sizes := [10; 14; 10; 12] in
  14 ∈ sizes /\ 10 ∈ sizes /\
  1 <= ebene (ebenen_dict sizes) 14 <= Z.of_nat (length (remove_dups sizes)) /\
  (10 < 14 <-> ebene (ebenen_dict sizes) 14 < ebene (ebenen_dict sizes) 10).
Proof.
  intros sizes.
  assert (H1 : 14 ∈ sizes) by (right; left).
  assert (H2 : 10 ∈ sizes) by left.
  split; [exact H1|]. split; [exact H2|].
  exact (ebene_orders_font_sizes sizes 14 10 H1 H2).
Defined.

End PdfUtilExtra.

(* ===================================================================== *)
(** * Further properties of the lineariser *)
(* ===================================================================== *)

Module ProcessPdfExtra.
Import PyStr PyStrFacts PdfUtil PdfTables.

(** ** Section header markers *)

Lemma repeat_succ s (n : Z) :
  0 <= n -> PyStr.repeat s (n + 1) = s +:+ PyStr.repeat s n.
Proof.
  intros Hn. unfold PyStr.repeat.
  replace (Z.to_nat (n + 1)) with (S (Z.to_nat n)) by lia. reflexivity.
Qed.

Lemma len_repeat_hash (n : Z) : len (PyStr.repeat "#" n) = Z.to_nat n.
Proof.
  unfold PyStr.repeat. induction (Z.to_nat n) as [|k IH]; [reflexivity|].
  change (Nat.iter (S k) (String.append "#") "")
    with ("#" +:+ Nat.iter k (String.append "#") "").
  rewrite len_app, IH. reflexivity.
Qed.

(** X10.  The marker of a section header has as many hashes as the level, but
    at least two and at most six, followed by a space. *)
Theorem header_marker_clamped level :
  header_marker level = PyStr.repeat "#" (Z.max 2 (Z.min level 6)) +:+ " ".
Proof.
  unfold header_marker.
  rewrite len_app, len_repeat_hash. cbn [len String.length].
  destruct (Nat.ltb_spec (Z.to_nat (Z.min level 6) + 1) 3) as [Hlt|Hge].
  - replace (Z.max 2 (Z.min level 6)) with 2 by lia. reflexivity.
  - replace (Z.max 2 (Z.min level 6)) with (Z.min level 6) by lia. reflexivity.
Qed.

Lemma is_header_hash s : (1 <= len s)%nat -> Chunking.is_header ("#" +:+ s) = true.
Proof.
  intros H. unfold Chunking.is_header. rewrite len_app.
  cbn [len String.length]. apply andb_true_iff. split.
  - apply Nat.ltb_lt. unfold len in *. lia.
  - unfold first_char. destruct s; reflexivity.
Qed.

(** X11.  The segments emitted for titles and section headers pass the header
    test of the chunker, whatever the text and the level. *)
Theorem headings_are_chunk_headers level t :
  Chunking.is_header ("# " +:+ t) = true /\
  Chunking.is_header (header_marker level +:+ t) = true.
Proof.
  split.
  - change ("# " +:+ t) with ("#" +:+ (" " +:+ t)). apply is_header_hash.
    rewrite len_app. cbn. lia.
  - unfold header_marker. rewrite len_app, len_repeat_hash.
    cbn [len String.length].
    destruct (Nat.ltb_spec (Z.to_nat (Z.min level 6) + 1) 3) as [Hlt|Hge].
    + change ("## " +:+ t) with ("#" +:+ ("# " +:+ t)). apply is_header_hash.
      rewrite len_app. cbn. lia.
    + replace (Z.min level 6) with ((Z.min level 6 - 1) + 1) by lia.
      rewrite repeat_succ by lia. rewrite !str_app_assoc.
      apply is_header_hash. rewrite !len_app. cbn [len String.length]. lia.
Qed.

(** ** Pages of the emitted segments *)

Ltac pdf_simpl :=
  cbn [list_nesting_level previous_level in_list current_list
       current_list_page elements fst snd].

Section Pages.
Variable DEFAULT_EXPORT_LABELS : item_label -> bool.
Variable pages_to_ignore : gset Z.
Variable tables : bool.

Let visible := pages_visible pages_to_ignore.

Lemma close_list_visible st : visible st -> visible (close_list st).
Proof.
  intros (Hel & Hpage & Hlist). unfold close_list.
  destruct (current_list st) as [|l ls] eqn:Hcl.
  - split; [|split]; pdf_simpl; [exact Hel|exact Hpage|exact Hlist].
  - destruct (in_list st).
    + unfold stringify_list. split; [|split]; pdf_simpl.
      * apply Forall_app. split; [exact Hel|]. apply Forall_singleton.
        destruct Hlist as [p Hp]; [discriminate|].
        exists p. split; [exact Hp|auto].
      * discriminate.
      * congruence.
    + split; [|split]; pdf_simpl; [exact Hel|exact Hpage|exact Hlist].
Qed.

Lemma emit_visible st t p :
  p - 1 ∉ pages_to_ignore -> visible st -> visible (emit st (t, Some p)).
Proof.
  intros Hp (Hel & Hpage & Hlist). split; [|split]; pdf_simpl; auto.
  apply Forall_app. split; [exact Hel|]. apply Forall_singleton.
  now exists p.
Qed.

Lemma dispatch_visible st item level :
  prov_page_no item - 1 ∉ pages_to_ignore ->
  visible st -> visible (dispatch tables st item level).
Proof.
  intros Hp Hst. unfold dispatch.
  repeat match goal with
         | |- context [if ?b then _ else _] => destruct b
         end;
    auto using emit_visible, close_list_visible;
    destruct Hst as (Hel & Hpage & Hlist);
    (split; [|split]); pdf_simpl; auto;
    try (intros p [= <-]; exact Hp); try (intros _; now eexists).
Qed.

Lemma process_item_visible st il :
  visible st ->
  visible (process_item DEFAULT_EXPORT_LABELS pages_to_ignore tables st il).
Proof.
  intros Hst. destruct il as [item level]. unfold process_item.
  assert (Hadj : visible (adjust_level st level)) by exact Hst.
  assert (Hexit : visible (exit_list (adjust_level st level) item)).
  { unfold exit_list. destruct (_ && _); [now apply close_list_visible|exact Hadj]. }
  destruct (negb _); [exact Hexit|].
  destruct (bool_decide_reflect (prov_page_no item - 1 ∈ pages_to_ignore));
    [exact Hexit|].
  now apply dispatch_visible.
Qed.

Lemma process_items_visible items :
  visible (fold_left (process_item DEFAULT_EXPORT_LABELS pages_to_ignore tables)
                     items pdf_init).
Proof.
  assert (Hinit : visible pdf_init).
  { split; [constructor|]. split; [discriminate|]. now intros []. }
  revert Hinit. generalize pdf_init.
  induction items as [|il items IH]; intros st Hst; [exact Hst|].
  cbn [fold_left]. now apply IH, process_item_visible.
Qed.

Lemma final_flush_visible st el :
  visible st -> el ∈ final_flush st -> page_visible pages_to_ignore el.
Proof.
  intros (Hel & Hpage & Hlist). unfold final_flush.
  rewrite Forall_forall in Hel.
  destruct (current_list st) as [|l ls] eqn:Hcl; [apply Hel|].
  intros Hin. apply elem_of_app in Hin as [Hin|Hin]; [now apply Hel|].
  apply list_elem_of_singleton in Hin as ->.
  destruct Hlist as [p Hp]; [discriminate|]. exists p. split; [exact Hp|auto].
Qed.

(** X12.  Every emitted segment carries a page number, and never the number of
    an ignored page. *)
Theorem process_pdf_pages_visible items el :
  el ∈ process_pdf DEFAULT_EXPORT_LABELS items pages_to_ignore tables ->
  exists p, el.2 = Some p /\ p - 1 ∉ pages_to_ignore.
Proof.
  unfold process_pdf. intros Hin.
  pose proof (process_items_visible items) as Hst.
  exact (final_flush_visible _ el Hst Hin).
Qed.

End Pages.

Lemma process_pdf_pages_visible_witness :
  let el : element := ("end", Some 1) in
  el ∈ process_pdf export_all nested_list ∅ false /\
  exists p, el.2 = Some p /\ p - 1 ∉ (∅ : gset Z).
Proof.
  intros el.
  assert (H : el ∈ process_pdf export_all nested_list ∅ false)
    by (vm_compute; right; left).
  split; [exact H|].
  exact (process_pdf_pages_visible export_all ∅ false nested_list el H).
Defined.

(** ** Full-page tables *)

Section Tables.
Variable DEFAULT_EXPORT_LABELS : item_label -> bool.
Variable is_fullpage : doc_item -> bool.

Let step := fullpage_step DEFAULT_EXPORT_LABELS is_fullpage.
Let is_table := fullpage_table DEFAULT_EXPORT_LABELS is_fullpage.

Lemma fullpage_step_spec pti item level x :
  x ∈ step pti (item, level) <->
  x ∈ pti \/ (is_table item /\ x = prov_page_no item - 1).
Proof.
  unfold step, fullpage_step, is_table, fullpage_table.
  destruct (DEFAULT_EXPORT_LABELS (label item)); cbn [negb orb].
  - destruct (bool_decide_reflect (prov_page_no item - 1 ∈ pti)) as [Hin|Hnin].
    + split; [now left|]. intros [H|(_ & ->)]; assumption.
    + destruct (isinstance item [TableItem]); cbn [andb].
      * destruct (is_fullpage item).
        -- rewrite elem_of_union, elem_of_singleton. tauto.
        -- split; [now left|]. intros [H|((_ & _ & H) & _)]; [exact H|].
           discriminate H.
      * split; [now left|]. intros [H|((_ & H & _) & _)]; [exact H|].
        discriminate H.
  - split; [now left|]. intros [H|((H & _) & _)]; [exact H|discriminate H].
Qed.

Lemma fullpage_fold_spec items pti x :
  x ∈ fold_left step items pti <->
  x ∈ pti \/ exists item level,
               (item, level) ∈ items /\ is_table item /\ x = prov_page_no item - 1.
Proof.
  revert pti. induction items as [|[item level] items IH]; intros pti;
    cbn [fold_left].
  - split; [now left|]. intros [H|(i & l & Hin & _)]; [exact H|].
    now apply elem_of_nil in Hin.
  - rewrite IH, fullpage_step_spec. split.
    + intros [[H|(Ht & ->)]|(i & l & Hin & Ht & ->)].
      * now left.
      * right. exists item, level. split; [left|]. now split.
      * right. exists i, l. split; [now right|]. now split.
    + intros [H|(i & l & Hin & Ht & ->)]; [left; now left|].
      apply elem_of_cons in Hin as [[= -> ->]|Hin].
      * left. right. now split.
      * right. exists i, l. split; [exact Hin|]. split; [exact Ht|reflexivity].
Qed.

(** X13.  [get_fullpage_tables] keeps the pages it is given and adds exactly the
    pages (as indices) of the exported tables that pass the full-page
    test; for a document without pages it adds nothing. *)
Theorem get_fullpage_tables_spec n_pages items pti x :
  x ∈ get_fullpage_tables DEFAULT_EXPORT_LABELS is_fullpage n_pages items pti <->
  x ∈ pti \/
  ((0 < n_pages)%nat /\
   exists item level,
     (item, level) ∈ items /\ is_table item /\ x = prov_page_no item - 1).
Proof.
  unfold get_fullpage_tables.
  destruct (Nat.ltb_spec 0 n_pages) as [Hpos|Hzero].
  - fold step. rewrite fullpage_fold_spec. intuition.
  - intuition lia.
Qed.

(** X14.  Unless [big_tables] is set, no segment comes from a page that holds
    an exported full-page table, nor from a page the caller asked to
    ignore. *)
Theorem process_pdf_skips_fullpage_tables n_pages items pages_to_ignore tables el :
  (0 < n_pages)%nat ->
  el ∈ process_pdf_document DEFAULT_EXPORT_LABELS is_fullpage n_pages items
         pages_to_ignore tables false ->
  exists p, el.2 = Some p /\ (p - 1 ∉ pages_to_ignore) /\
            forall item level, (item, level) ∈ items -> is_table item ->
                               prov_page_no item <> p.
Proof.
  intros Hpos Hel. unfold process_pdf_document, process_pdf in Hel.
  cbn [negb] in Hel.
  eapply final_flush_visible in Hel as (p & Hp & Hnin);
    [|apply process_items_visible].
  exists p. split; [exact Hp|].
  unfold get_fullpage_tables in Hnin.
  apply Nat.ltb_lt in Hpos. rewrite Hpos in Hnin.
  fold step in Hnin. rewrite fullpage_fold_spec in Hnin. split.
  - intros Hin. apply Hnin. now left.
  - intros item level Hin Ht Heq. apply Hnin. right.
    exists item, level. split; [exact Hin|]. split; [exact Ht|]. lia.
Qed.

End Tables.

Lemma process_pdf_skips_fullpage_tables_witness :
  let el : element := ("x", Some 1) in
  (0 < 2)%nat /\
  el ∈ process_pdf_document export_all every_table 2 table_stream ∅ true false /\
  exists p, el.2 = Some p /\ (p - 1 ∉ (∅ : gset Z)) /\
            forall item level,
              (item, level) ∈ table_stream ->
              fullpage_table export_all every_table item ->
              prov_page_no item <> p.
Proof.
  intros el.
  assert (H : el ∈ process_pdf_document export_all every_table 2 table_stream
                     ∅ true false) by (vm_compute; left).
  split; [lia|]. split; [exact H|].
  exact (process_pdf_skips_fullpage_tables export_all every_table 2 table_stream
           ∅ true el ltac:(lia) H).
Defined.

(** ** Items on ignored pages *)

Section Ignored.
Variable DEFAULT_EXPORT_LABELS : item_label -> bool.
Variable pages_to_ignore : gset Z.
Variable tables : bool.

Let process := process_item DEFAULT_EXPORT_LABELS pages_to_ignore tables.

Lemma process_item_same_outline st a b :
  same_outline a b ->
  (prov_page_no a.1 - 1 ∉ pages_to_ignore -> a = b) ->
  process st a = process st b.
Proof.
  destruct a as [ia la], b as [ib lb].
  intros (Hc & Hl & Hp & Hlevel) Heq. cbn [fst snd] in *. subst lb.
  destruct (decide (prov_page_no ia - 1 ∈ pages_to_ignore)) as [Hin|Hnin];
    [|now rewrite (Heq Hnin)].
  unfold process, process_item.
  assert (Hexit : exit_list (adjust_level st la) ia
                  = exit_list (adjust_level st la) ib).
  { unfold exit_list, isinstance. now rewrite Hc. }
  rewrite Hexit, <- Hl, <- Hp.
  destruct (negb _); [reflexivity|].
  now rewrite (bool_decide_eq_true_2 _ Hin).
Qed.

(** X15.  The text, the marker and the table of an item on an ignored page
    never reach the output: two streams that differ only in items on
    ignored pages, and agree on their class, label, page and level, give the
    same segments. *)
Theorem process_pdf_ignores_hidden_items items1 items2 :
  Forall2 (fun a b => same_outline a b /\
                      (prov_page_no a.1 - 1 ∉ pages_to_ignore -> a = b))
          items1 items2 ->
  process_pdf DEFAULT_EXPORT_LABELS items1 pages_to_ignore tables
  = process_pdf DEFAULT_EXPORT_LABELS items2 pages_to_ignore tables.
Proof.
  intros H. unfold process_pdf. f_equal. fold process.
  generalize pdf_init.
  induction H as [|a b l1 l2 [Hso Heq] _ IH]; intros st; [reflexivity|].
  cbn [fold_left]. rewrite (process_item_same_outline st a b Hso Heq).
  apply IH.
Qed.

(** ** Nesting level *)

Lemma process_item_level st il :
  0 <= list_nesting_level st -> 0 <= list_nesting_level (process st il).
Proof.
  intros Hst. destruct il as [item level]. unfold process, process_item.
  assert (Hadj : 0 <= list_nesting_level (adjust_level st level)).
  { unfold adjust_level. pdf_simpl. destruct (level <? previous_level st); lia. }
  assert (Hclose : forall s, list_nesting_level (close_list s) = list_nesting_level s).
  { intros s. unfold close_list. destruct (current_list s); [reflexivity|].
    now destruct (in_list s). }
  assert (Hexit : 0 <= list_nesting_level (exit_list (adjust_level st level) item)).
  { unfold exit_list. destruct (_ && _); [now rewrite Hclose|exact Hadj]. }
  destruct (negb _); [exact Hexit|].
  destruct (bool_decide _); [exact Hexit|].
  unfold dispatch, emit.
  repeat match goal with
         | |- context [if ?b then _ else _] => destruct b
         end; pdf_simpl; rewrite ?Hclose; lia.
Qed.

(** The nesting level of lists never becomes negative, however the levels
    of the items jump. *)
Lemma list_nesting_level_nonneg items :
  0 <= list_nesting_level (fold_left process items pdf_init).
Proof.
  assert (H : 0 <= list_nesting_level pdf_init) by (cbn; lia).
  revert H. generalize pdf_init.
  induction items as [|il items IH]; intros st Hst; [exact Hst|].
  cbn [fold_left]. now apply IH, process_item_level.
Qed.

End Ignored.

Lemma process_pdf_ignores_hidden_items_witness :
  let items1 := [(paragraph "x" 1, 1); (paragraph "secret" 2, 1)] in
  let items2 := [(paragraph "x" 1, 1); (paragraph "other" 2, 1)] in
  Forall2 (fun a b => same_outline a b /\
                      (prov_page_no a.1 - 1 ∉ ({[1]} : gset Z) -> a = b))
          items1 items2 /\
  process_pdf export_all items1 {[1]} false
  = process_pdf export_all items2 {[1]} false.
Proof.
  intros items1 items2.
  assert (H : Forall2 (fun a b => same_outline a b /\
                         (prov_page_no a.1 - 1 ∉ ({[1]} : gset Z) -> a = b))
                      items1 items2).
  { constructor; [split; [repeat split|reflexivity]|].
    constructor; [|constructor]. split; [repeat split|].
    intros Hnin. exfalso. apply Hnin. cbn. now apply elem_of_singleton. }
  split; [exact H|].
  exact (process_pdf_ignores_hidden_items export_all {[1]} false items1 items2 H).
Defined.

(** ** Streams without lists *)

Section NoLists.
Variable DEFAULT_EXPORT_LABELS : item_label -> bool.
Variable pages_to_ignore : gset Z.
Variable tables : bool.

Let process := process_item DEFAULT_EXPORT_LABELS pages_to_ignore tables.
Let contributes := contribution DEFAULT_EXPORT_LABELS pages_to_ignore tables.

Lemma isinstance_cons item c cs :
  isinstance item (c :: cs) = isinstance item [c] || isinstance item cs.
Proof. unfold isinstance. cbn [existsb]. now rewrite orb_false_r. Qed.

Lemma process_item_no_list st item level :
  isinstance item [ListItem; GroupItem] = false ->
  in_list st = false -> current_list st = [] ->
  in_list (process st (item, level)) = false /\
  current_list (process st (item, level)) = [] /\
  elements (process st (item, level))
  = elements st ++ option_list (contributes (item, level)).
Proof.
  intros Hc Hin Hcl.
  rewrite isinstance_cons in Hc. apply orb_false_iff in Hc as [Hli Hgr].
  unfold process, process_item, contributes, contribution. cbn [fst snd].
  assert (Hexit : exit_list (adjust_level st level) item = adjust_level st level).
  { unfold exit_list. cbn [adjust_level in_list]. rewrite Hin.
    now rewrite andb_false_r. }
  rewrite Hexit.
  assert (Hclose : close_list (adjust_level st level)
                   = {| list_nesting_level := list_nesting_level (adjust_level st level);
                        previous_level := level; in_list := false;
                        current_list := []; current_list_page := current_list_page st;
                        elements := elements st |}).
  { unfold close_list. cbn [adjust_level current_list]. now rewrite Hcl. }
  destruct (DEFAULT_EXPORT_LABELS (label item)); cbn [negb andb];
    [|pdf_simpl; now rewrite app_nil_r].
  destruct (bool_decide _); cbn [negb];
    [pdf_simpl; now rewrite app_nil_r|].
  unfold dispatch, emitted. rewrite Hli, Hgr, Hclose. cbn [andb].
  repeat match goal with
         | |- context [if ?b then _ else _] => destruct b
         end; unfold emit; pdf_simpl; cbn [option_list];
    rewrite ?app_nil_r; auto.
Qed.

(** X16.  In a stream without list items and groups every item contributes at
    most one segment, decided by the item alone, and the segments keep
    the order of the items. *)
Theorem process_pdf_without_lists items :
  Forall (fun il => isinstance il.1 [ListItem; GroupItem] = false) items ->
  process_pdf DEFAULT_EXPORT_LABELS items pages_to_ignore tables
  = omap contributes items.
Proof.
  intros Hall. unfold process_pdf. fold process.
  assert (Hgen : forall st,
             in_list st = false -> current_list st = [] ->
             final_flush (fold_left process items st)
             = elements st ++ omap contributes items).
  { induction Hall as [|[item level] items Hc _ IH]; intros st Hin Hcl.
    - cbn [fold_left omap list_omap]. unfold final_flush.
      now rewrite Hcl, app_nil_r.
    - cbn [fold_left]. cbn [fst] in Hc.
      destruct (process_item_no_list st item level Hc Hin Hcl) as (H1 & H2 & H3).
      rewrite (IH _ H1 H2), H3. cbn [omap list_omap].
      destruct (contributes (item, level)); cbn [option_list];
        now rewrite <- app_assoc. }
  now rewrite Hgen.
Qed.

End NoLists.

Lemma process_pdf_without_lists_witness :
  Forall (fun il => isinstance il.1 [ListItem; GroupItem] = false) table_stream /\
  process_pdf export_all table_stream {[0]} true
  = omap (contribution export_all {[0]} true) table_stream.
Proof.
  assert (H : Forall (fun il => isinstance il.1 [ListItem; GroupItem] = false)
                     table_stream) by (repeat constructor).
  split; [exact H|].
  exact (process_pdf_without_lists export_all {[0]} true table_stream H).
Defined.

(** ** List items reach the output *)

Import ChunkingNotions.

Lemma occurs_in_self t : occurs_in t t.
Proof. exists "", "". cbn. now rewrite str_app_nil_r. Qed.

Lemma occurs_in_join sep (ls : list string) l :
  l ∈ ls -> occurs_in l (join sep ls).
Proof.
  induction ls as [|x ls IH]; intros Hin; [now apply elem_of_nil in Hin|].
  apply elem_of_cons in Hin as [->|Hin].
  - destruct ls as [|y ls]; [apply occurs_in_self|].
    cbn [join]. now exists "", (sep +:+ join sep (y :: ls)).
  - destruct ls as [|y ls]; [now apply elem_of_nil in Hin|].
    destruct (IH Hin) as (pre & post & Heq).
    cbn [join] in *. rewrite Heq. exists (x +:+ sep +:+ pre), post.
    now rewrite !str_app_assoc.
Qed.

Section ListItems.
Variable DEFAULT_EXPORT_LABELS : item_label -> bool.
Variable pages_to_ignore : gset Z.
Variable tables : bool.

Let process := process_item DEFAULT_EXPORT_LABELS pages_to_ignore tables.

Lemma close_list_open st : buffer_open st -> buffer_open (close_list st).
Proof.
  intros Hopen. unfold close_list. destruct (current_list st) eqn:Hcl.
  - intros H. now destruct H.
  - rewrite Hopen by (rewrite Hcl; discriminate).
    unfold stringify_list. intros H. now destruct H.
Qed.

Lemma close_list_kept st l :
  buffer_open st -> line_kept st l -> line_kept (close_list st) l.
Proof.
  intros Hopen Hkept. unfold close_list.
  destruct (current_list st) as [|x xs] eqn:Hcl.
  - destruct Hkept as [Hin|Hel]; [left|right]; pdf_simpl; [|exact Hel].
    now rewrite Hcl in Hin.
  - rewrite Hopen by (rewrite Hcl; discriminate).
    unfold stringify_list.
    right. pdf_simpl. destruct Hkept as [Hin|(el & Hel & Hocc)].
    + exists (join nl (x :: xs), current_list_page st).
      split; [apply elem_of_app; right; left|].
      cbn [fst]. apply occurs_in_join. now rewrite Hcl in Hin.
    + exists el. split; [apply elem_of_app; now left|exact Hocc].
Qed.

Lemma emit_kept st el l : line_kept st l -> line_kept (emit st el) l.
Proof.
  intros [Hin|(el' & Hel & Hocc)]; [now left|right].
  exists el'. split; [|exact Hocc]. pdf_simpl. apply elem_of_app. now left.
Qed.

Lemma process_item_open st il : buffer_open st -> buffer_open (process st il).
Proof.
  intros Hopen. destruct il as [item level]. unfold process, process_item.
  assert (Hexit : buffer_open (exit_list (adjust_level st level) item)).
  { unfold exit_list. destruct (_ && _); [apply close_list_open|]; exact Hopen. }
  destruct (negb _); [exact Hexit|].
  destruct (bool_decide _); [exact Hexit|].
  pose proof (close_list_open _ Hexit) as Hoc.
  unfold dispatch.
  repeat match goal with
         | |- context [if ?b then _ else _] => destruct b
         end; try exact Hoc; try exact Hexit; intros _; reflexivity.
Qed.

Lemma process_item_kept st il l :
  buffer_open st -> line_kept st l -> line_kept (process st il) l.
Proof.
  intros Hopen Hkept. destruct il as [item level].
  unfold process, process_item.
  assert (Ho : buffer_open (exit_list (adjust_level st level) item)).
  { unfold exit_list. destruct (_ && _); [apply close_list_open|]; exact Hopen. }
  assert (Hk : line_kept (exit_list (adjust_level st level) item) l).
  { unfold exit_list. destruct (_ && _); [|exact Hkept].
    apply close_list_kept; [exact Hopen|exact Hkept]. }
  destruct (negb _); [exact Hk|].
  destruct (bool_decide _); [exact Hk|].
  pose proof (close_list_kept _ l Ho Hk) as Hkc.
  unfold dispatch.
  repeat match goal with
         | |- context [if ?b then _ else _] => destruct b
         end;
    try (apply emit_kept; assumption); try exact Hk.
  destruct Hk as [Hin|Hel]; [left|now right].
  pdf_simpl. apply elem_of_app. now left.
Qed.

Lemma process_items_open items st :
  buffer_open st -> buffer_open (fold_left process items st).
Proof.
  revert st. induction items as [|il items IH]; intros st Ho; [exact Ho|].
  cbn [fold_left]. now apply IH, process_item_open.
Qed.

Lemma process_items_kept items st l :
  buffer_open st -> line_kept st l ->
  line_kept (fold_left process items st) l.
Proof.
  revert st. induction items as [|il items IH]; intros st Ho Hk; [exact Hk|].
  cbn [fold_left]. apply IH; [now apply process_item_open|].
  now apply process_item_kept.
Qed.

(** X17.  No list item is dropped: the line of every list item with an
    exported label on a page that is not ignored occurs in a segment of
    the output. *)
Theorem process_pdf_keeps_list_items items item level :
  (item, level) ∈ items ->
  cls item = ListItem -> label item = LIST_ITEM ->
  DEFAULT_EXPORT_LABELS (label item) = true ->
  prov_page_no item - 1 ∉ pages_to_ignore ->
  exists nesting el,
    el ∈ process_pdf DEFAULT_EXPORT_LABELS items pages_to_ignore tables /\
    occurs_in (list_item_line nesting item) el.1.
Proof.
  intros Hin Hc Hl Hexp Hpage.
  apply list_elem_of_split in Hin as (l1 & l2 & ->).
  unfold process_pdf. fold process. rewrite fold_left_app. cbn [fold_left].
  set (st := fold_left process l1 pdf_init).
  assert (Ho : buffer_open st).
  { apply process_items_open. intros H. now destruct H. }
  set (st1 := exit_list (adjust_level st level) item).
  assert (Hstep : process st (item, level)
                  = {| list_nesting_level := list_nesting_level st1;
                       previous_level := previous_level st1;
                       in_list := true;
                       current_list := current_list st1
                                       ++ [list_item_line (list_nesting_level st1) item];
                       current_list_page := Some (prov_page_no item);
                       elements := elements st1 |}).
  { unfold process, process_item. fold st1. rewrite Hexp. cbn [negb].
    rewrite bool_decide_eq_false_2 by exact Hpage.
    unfold dispatch, isinstance. rewrite Hc, Hl. reflexivity. }
  exists (list_nesting_level st1).
  set (line := list_item_line (list_nesting_level st1) item) in *.
  assert (Hk : line_kept (fold_left process l2 (process st (item, level))) line).
  { apply process_items_kept; rewrite Hstep.
    - intros _. reflexivity.
    - left. pdf_simpl. apply elem_of_app. right. left. }
  set (stf := fold_left process l2 (process st (item, level))) in *.
  unfold final_flush.
  destruct Hk as [Hcur|(el & Hel & Hocc)].
  - destruct (current_list stf) as [|x xs] eqn:Hcl;
      [now apply elem_of_nil in Hcur|].
    eexists. split; [apply elem_of_app; right; left|].
    cbn [fst]. now apply occurs_in_join.
  - exists el. split; [|exact Hocc].
    destruct (current_list stf); [exact Hel|]. apply elem_of_app. now left.
Qed.

End ListItems.

Lemma process_pdf_keeps_list_items_witness :
  (bullet "b" 1, 3) ∈ nested_list /\
  cls (bullet "b" 1) = ListItem /\ label (bullet "b" 1) = LIST_ITEM /\
  export_all (label (bullet "b" 1)) = true /\
  (prov_page_no (bullet "b" 1) - 1 ∉ (∅ : gset Z)) /\
  exists nesting el,
    el ∈ process_pdf export_all nested_list ∅ false /\
    occurs_in (list_item_line nesting (bullet "b" 1)) el.1.
Proof.
  assert (H1 : (bullet "b" 1, 3) ∈ nested_list) by (do 3 right; left).
  assert (H2 : prov_page_no (bullet "b" 1) - 1 ∉ (∅ : gset Z))
    by apply not_elem_of_empty.
  split; [exact H1|]. do 3 (split; [reflexivity|]). split; [exact H2|].
  exact (process_pdf_keeps_list_items export_all ∅ false nested_list
           (bullet "b" 1) 3 H1 eq_refl eq_refl eq_refl H2).
Defined.

(** ** The nesting level on the streams of the converter *)

Section NoGroups.
Variable DEFAULT_EXPORT_LABELS : item_label -> bool.
Variable pages_to_ignore : gset Z.
Variable tables : bool.
Hypothesis no_list : DEFAULT_EXPORT_LABELS LIST = false.
Hypothesis no_ordered_list : DEFAULT_EXPORT_LABELS ORDERED_LIST = false.

Let process := process_item DEFAULT_EXPORT_LABELS pages_to_ignore tables.

Lemma close_list_level s : list_nesting_level (close_list s) = list_nesting_level s.
Proof.
  unfold close_list. destruct (current_list s); [reflexivity|].
  now destruct (in_list s).
Qed.

Lemma process_item_level_zero st il :
  list_nesting_level st = 0 -> list_nesting_level (process st il) = 0.
Proof.
  intros Hst. destruct il as [item level]. unfold process, process_item.
  assert (Hadj : list_nesting_level (adjust_level st level) = 0).
  { unfold adjust_level. pdf_simpl. rewrite Hst.
    destruct (level <? previous_level st) eqn:E; [|reflexivity].
    apply Z.ltb_lt in E. lia. }
  assert (Hexit : list_nesting_level (exit_list (adjust_level st level) item) = 0).
  { unfold exit_list. destruct (_ && _); [now rewrite close_list_level|exact Hadj]. }
  destruct (DEFAULT_EXPORT_LABELS (label item)) eqn:Hexp; cbn [negb];
    [|exact Hexit].
  destruct (bool_decide _); [exact Hexit|].
  unfold dispatch, emit.
  destruct (isinstance item [TextItem] && bool_decide (label item = TITLE));
    [pdf_simpl; now rewrite close_list_level|].
  destruct ((isinstance item [TextItem] && bool_decide (label item = SECTION_HEADER))
            || isinstance item [SectionHeaderItem]);
    [pdf_simpl; now rewrite close_list_level|].
  destruct (isinstance item [GroupItem]).
  - destruct (bool_decide_reflect (label item = LIST)) as [Hl|Hl];
      [rewrite Hl, no_list in Hexp; discriminate|].
    destruct (bool_decide_reflect (label item = ORDERED_LIST)) as [Ho|Ho];
      [rewrite Ho, no_ordered_list in Hexp; discriminate|].
    cbn [orb]. pdf_simpl. exact Hexit.
  - repeat match goal with
           | |- context [if ?b then _ else _] => destruct b
           end; pdf_simpl; rewrite ?close_list_level; exact Hexit.
Qed.

Lemma process_items_level_zero items :
  list_nesting_level (fold_left process items pdf_init) = 0.
Proof.
  assert (H : list_nesting_level pdf_init = 0) by reflexivity.
  revert H. generalize pdf_init.
  induction items as [|il items IH]; intros st Hst; [exact Hst|].
  cbn [fold_left]. now apply IH, process_item_level_zero.
Qed.

Lemma list_item_line_zero item : list_item_line 0 item = strip (marked_text item).
Proof. reflexivity. Qed.

(** X30.  When the export set holds no group label, the nesting level is 0
    throughout, whatever the stream: no list item is processed at a
    level of 1 or more.  The line of every list item that is exported
    and on a page that is not ignored is its marker and its text,
    stripped, without indentation. *)
Theorem list_items_not_indented items item level :
  cls item = ListItem -> label item = LIST_ITEM ->
  DEFAULT_EXPORT_LABELS LIST_ITEM = true ->
  prov_page_no item - 1 ∉ pages_to_ignore ->
  let st := fold_left process items pdf_init in
  list_nesting_level st = 0 /\
  list_nesting_level (process st (item, level)) = 0 /\
  current_list (process st (item, level))
  = current_list st ++ [strip (marked_text item)].
Proof.
  intros Hc Hl Hexp Hvis st.
  pose proof (process_items_level_zero items) as H0. fold st in H0.
  split; [exact H0|]. split; [now apply process_item_level_zero|].
  unfold process, process_item.
  rewrite Hl, Hexp. cbn [negb].
  rewrite (bool_decide_eq_false_2 _ Hvis).
  assert (Hexit : exit_list (adjust_level st level) item = adjust_level st level).
  { unfold exit_list, isinstance. rewrite Hc. cbn.
    now rewrite andb_false_r. }
  rewrite Hexit.
  unfold dispatch, isinstance. rewrite Hc, Hl. cbn - [list_item_line].
  f_equal. f_equal. unfold adjust_level. pdf_simpl. rewrite H0.
  replace (if level <? previous_level st then Z.max 0 (0 - (previous_level st - level)) else 0)
    with 0; [reflexivity|].
  destruct (level <? previous_level st) eqn:E; [|reflexivity].
  apply Z.ltb_lt in E. lia.
Qed.

End NoGroups.

Lemma list_items_not_indented_witness :
  let item := bullet "b" 1 in
  let process := process_item item_labels_only ∅ false in
  let st := fold_left process [(bullet "a" 1, 2)] pdf_init in
  (item_labels_only LIST = false /\ item_labels_only ORDERED_LIST = false /\
   cls item = ListItem /\ label item = LIST_ITEM /\
   item_labels_only LIST_ITEM = true /\ (prov_page_no item - 1 ∉ (∅ : gset Z))) /\
  list_nesting_level st = 0 /\
  list_nesting_level (process st (item, 3)) = 0 /\
  current_list (process st (item, 3))
  = current_list st ++ [strip (marked_text item)].
Proof.
  cbv zeta. split.
  - repeat split; apply not_elem_of_empty.
  - apply (list_items_not_indented item_labels_only ∅ false eq_refl eq_refl
             [(bullet "a" 1, 2)] (bullet "b" 1) 3 eq_refl eq_refl eq_refl).
    apply not_elem_of_empty.
Defined.

(** A list nested in a list, as the stream has it: both items are
    appended without indentation. *)
Lemma nested_items_lines :
  current_list (fold_left (process_item item_labels_only ∅ false)
                          nested_items pdf_init)
  = ["- a"; "- b"].
Proof. reflexivity. Qed.

End ProcessPdfExtra.

(* ===================================================================== *)
(** * Further properties of the store access and of the handler *)
(* ===================================================================== *)

Module StoreExtra.
Import Store StoreFacts Tickets.
Local Open Scope py_scope.

Section WithEnvironment.
Variables (vector row : Type).
Variable fault : op -> option exn.
Variable DB_ENV : string.
Variable embedding_of : string -> vector.
Variable rows_of : string -> list row.
Variable generate_sql_query : string -> string -> string -> option string -> string.
Variable format_vector : vector -> string.

(** X18.  [get_psycopg_client] either returns a fresh open handle, which needs
    a valid [DB_ENV] and a successful [psycopg.connect], or raises an
    [HTTPException] and leaves the world as it is; with an invalid
    [DB_ENV] the status is 501. *)
Theorem get_psycopg_client_outcome w :
  match get_psycopg_client fault DB_ENV w with
  | (Ok client, w') =>
      (DB_ENV = "local" \/ DB_ENV = "aws") /\ fault OpConnect = None /\
      client = next_connection w /\
      open_connections w' = {[client]} ∪ open_connections w /\
      printed w' = printed w
  | (Raise e, w') =>
      w' = w /\ is_HTTPException e = true /\
      (DB_ENV <> "local" -> DB_ENV <> "aws" ->
       exists detail, e = HTTPException 501 detail)
  end.
Proof.
  unfold get_psycopg_client, try_except, connect, raise.
  destruct (String.eqb_spec DB_ENV "local") as [Hl|Hl];
    destruct (String.eqb_spec DB_ENV "aws") as [Ha|Ha]; cbn [orb];
    try (destruct (fault OpConnect) as [e|] eqn:Hf;
         [destruct (is_HTTPException e) eqn:He;
          (split; [reflexivity|]); (split; [assumption || reflexivity|]);
          intros; congruence
         |cbn; auto 10]).
  split; [reflexivity|]. split; [reflexivity|]. intros _ _. now eexists.
Qed.

(** X19.  When the connection cannot be made, [add_manual_chunks_to_db] prints
    the exception and then fails in its [finally] clause with an
    [UnboundLocalError] for [client]; no connection is opened. *)
Theorem add_manual_chunks_connection_failure chunks w e :
  (get_psycopg_client fault DB_ENV w).1 = Raise e ->
  add_manual_chunks_to_db vector fault DB_ENV embedding_of format_vector chunks w
  = (Raise (UnboundLocalError "client"),
     {| open_connections := open_connections w;
        next_connection := next_connection w;
        printed := printed w ++ [e] |}).
Proof.
  intros H. unfold add_manual_chunks_to_db.
  destruct (get_psycopg_client_cases fault DB_ENV w) as [[e' He]|He];
    rewrite He in *; cbn [fst] in H; [|discriminate].
  injection H as ->. reflexivity.
Qed.

(** Closing a handle that was fresh when it was opened gives the set of
    open connections back. *)
Lemma open_then_close (c : connection) (o : gset connection) :
  c ∉ o -> ({[c]} ∪ o) ∖ {[c]} = o.
Proof.
  intros Hfresh. apply set_eq. intros x.
  rewrite elem_of_difference, elem_of_union, !elem_of_singleton.
  split; [intros [[->|H] Hne]; [congruence|exact H]|].
  intros H. split; [now right|]. intros ->. contradiction.
Qed.

(** X20.  [retrieve_context] prints no exception and leaves the set of
    open connections as it found it: the connection it opens is closed
    again, whether it returns or raises. *)
Theorem retrieve_context_restores_world query_string deviceType w :
  next_connection w ∉ open_connections w ->
  let w' := (retrieve_context vector row fault DB_ENV embedding_of rows_of
               generate_sql_query format_vector query_string deviceType w).2 in
  open_connections w' = open_connections w /\ printed w' = printed w.
Proof.
  intros Hfresh.
  destruct (get_psycopg_client_cases fault DB_ENV w) as [[e He]|He].
  - rewrite (retrieve_context_failed _ _ _ _ _ _ _ _ _ _ _ _ He). now split.
  - rewrite (retrieve_context_connected _ _ _ _ _ _ _ _ _ _ _ _ _ He).
    cbn [snd open_connections printed]. split; [|reflexivity].
    now apply open_then_close.
Qed.

(** X21.  [add_ticket_to_db] behaves like [add_manual_chunks_to_db]: once the
    connection is made it returns normally whatever fails, printing the
    first exception, and closes the connection; when the connection
    cannot be made it fails with an [UnboundLocalError]. *)
Theorem add_ticket_to_db_outcome ticket devicetype ticketID w :
  let run := add_ticket_to_db vector fault DB_ENV embedding_of format_vector
               ticket devicetype ticketID w in
  match (get_psycopg_client fault DB_ENV w).1 with
  | Ok client =>
      run.1 = Ok tt /\
      printed run.2 = printed w ++ match first_fault fault (add_ticket_ops ticket) with
                                   | Some e => [e]
                                   | None => []
                                   end /\
      (client ∉ open_connections run.2)
  | Raise e =>
      run.1 = Raise (UnboundLocalError "client") /\
      printed run.2 = printed w ++ [e] /\
      open_connections run.2 = open_connections w
  end.
Proof.
  cbv zeta. unfold add_ticket_to_db.
  destruct (get_psycopg_client_cases fault DB_ENV w) as [[e He]|He];
    rewrite He; cbn [fst].
  - split; [reflexivity|]. split; reflexivity.
  - unfold try_finally, try_except, close, print.
    assert (Hbody : forall c w0,
               add_ticket_body vector fault embedding_of format_vector c ticket w0
               = (match first_fault fault (add_ticket_ops ticket) with
                  | Some e => Raise e
                  | None => Ok tt
                  end, w0)).
    { intros c w0. unfold add_ticket_body, add_ticket_ops, generate_embeddings,
        bind, call, ret. cbn [first_fault].
      repeat match goal with
             | |- context [fault ?o] => destruct (fault o)
             end; reflexivity. }
    rewrite Hbody.
    assert (Hclosed : forall (c : connection) (o : gset connection),
               c ∉ o ∖ {[c]}).
    { intros c o Hin. apply elem_of_difference in Hin as [_ Hin].
      apply Hin. now apply elem_of_singleton. }
    destruct (first_fault fault (add_ticket_ops ticket));
      cbn [fst snd printed open_connections];
      (split; [reflexivity|]); (split; [now rewrite ?app_nil_r|apply Hclosed]).
Qed.

End WithEnvironment.

Lemma add_manual_chunks_connection_failure_witness :
  let e := HTTPException 500
             ("Error occured connecting to local db client with psycopg. Error message:"
              +:+ "connection refused") in
  (get_psycopg_client connect_fails "local" fresh_world).1 = Raise e /\
  add_manual_chunks_to_db unit connect_fails "local" (fun _ => tt) (fun _ => "[]")
    sample_chunks fresh_world
  = (Raise (UnboundLocalError "client"),
     {| open_connections := open_connections fresh_world;
        next_connection := next_connection fresh_world;
        printed := printed fresh_world ++ [e] |}).
Proof.
  intros e.
  assert (H : (get_psycopg_client connect_fails "local" fresh_world).1 = Raise e)
    by reflexivity.
  split; [exact H|].
  exact (add_manual_chunks_connection_failure unit connect_fails "local"
           (fun _ => tt) (fun _ => "[]") sample_chunks fresh_world e H).
Defined.

Lemma retrieve_context_restores_world_witness :
  (next_connection fresh_world ∉ open_connections fresh_world) /\
  let w' := (retrieve_context unit unit insert_fails "local" (fun _ => tt)
               (fun _ => []) (fun _ _ _ _ => "") (fun _ => "[]")
               "paper jam" "printer" fresh_world).2 in
  open_connections w' = open_connections fresh_world /\
  printed w' = printed fresh_world.
Proof.
  assert (H : next_connection fresh_world ∉ open_connections fresh_world)
    by apply not_elem_of_empty.
  split; [exact H|].
  exact (retrieve_context_restores_world unit unit insert_fails "local"
           (fun _ => tt) (fun _ => []) (fun _ _ _ _ => "") (fun _ => "[]")
           "paper jam" "printer" fresh_world H).
Defined.

(** ** The request handler *)

Section WithApplication.
Variables (vector row response : Type).
Variable fault : app_op -> option exn.
Variable DB_ENV : string.
Variable embedding_of : string -> vector.
Variable rows_of : string -> list row.
Variable generate_sql_query : string -> string -> string -> option string -> string.
Variable format_vector : vector -> string.
Variable process_description : string -> string.
Variable query_string_of : string -> string.
Variable response_of : string -> list row * list row -> response.

Let body :=
  process_ticket_body vector row response fault DB_ENV embedding_of rows_of
    generate_sql_query format_vector process_description query_string_of
    response_of.
Let process :=
  process_ticket vector row response fault DB_ENV embedding_of rows_of
    generate_sql_query format_vector process_description query_string_of
    response_of.
Let handle :=
  handler vector row response fault DB_ENV embedding_of rows_of
    generate_sql_query format_vector process_description query_string_of
    response_of.

Lemma process_ticket_body_world description deviceType w :
  next_connection w ∉ open_connections w ->
  open_connections (body description deviceType w).2 = open_connections w /\
  printed (body description deviceType w).2 = printed w.
Proof.
  intros Hfresh. unfold body, process_ticket_body, bind, call_app, ret.
  destruct (fault ModelValidate); [now split|].
  destruct (fault GenerateSummaryQueryString); [now split|].
  assert (Hw : let w1 := (retrieve_context vector row (fun o => fault (Lib o))
                            DB_ENV embedding_of rows_of generate_sql_query
                            format_vector
                            (query_string_of (process_description description))
                            deviceType w).2 in
               open_connections w1 = open_connections w /\ printed w1 = printed w).
  { cbv zeta.
    destruct (get_psycopg_client_cases (fun o => fault (Lib o)) DB_ENV w)
      as [[e He]|He].
    - rewrite (retrieve_context_failed _ _ _ _ _ _ _ _ _ _ _ _ He). now split.
    - rewrite (retrieve_context_connected _ _ _ _ _ _ _ _ _ _ _ _ _ He).
      cbn [snd open_connections printed]. split; [|reflexivity].
      now apply open_then_close. }
  cbv zeta in Hw.
  destruct (retrieve_context _ _ _ _ _ _ _ _ _ _ w) as [[r|e] w1];
    cbn [snd] in Hw |- *; [|exact Hw].
  destruct (fault QueryMainLlm); [exact Hw|].
  destruct (fault ProcessContext); exact Hw.
Qed.

Lemma process_ticket_cases description deviceType w :
  process description deviceType w
  = match body description deviceType w with
    | (Ok r, w') => (Ok r, w')
    | (Raise e, w') =>
        (Raise (if is_HTTPException e then e
                else HTTPException 500
                       ("Unknown error occured while processing. Error message:"
                        +:+ str_exn e)), w')
    end.
Proof.
  unfold process, process_ticket, try_except. fold body.
  destruct (body description deviceType w) as [[r|e] w']; [reflexivity|].
  now destruct (is_HTTPException e).
Qed.

(** X22.  The handler never fails.  [process_ticket] only ever raises an
    [HTTPException], any other exception of a step having become one with
    status 500, so the handler answers 200 with the response or the status
    and detail of that exception, and its branch for other exceptions is
    never taken.  The connection of the retrieval is closed either way. *)
Theorem handler_answers description deviceType w :
  next_connection w ∉ open_connections w ->
  exists a w',
    handle description deviceType w = (Ok a, w') /\
    open_connections w' = open_connections w /\
    match (body description deviceType w).1 with
    | Ok r => a = Answer 200 (inl r)
    | Raise (HTTPException status_code detail) =>
        a = Answer status_code (inr detail)
    | Raise e =>
        a = Answer 500
              (inr ("Unknown error occured while processing. Error message:"
                    +:+ str_exn e))
    end.
Proof.
  intros Hfresh.
  destruct (process_ticket_body_world description deviceType w Hfresh) as [Ho _].
  unfold handle, handler, try_except, bind, ret. fold process.
  rewrite process_ticket_cases.
  destruct (body description deviceType w) as [[r|e] w']; cbn [fst snd] in *.
  - now exists (Answer 200 (inl r)), w'.
  - destruct e as [c d|what|name]; cbn [is_HTTPException]; eauto.
Qed.

End WithApplication.

Lemma handler_answers_witness :
  (next_connection fresh_world ∉ open_connections fresh_world) /\
  exists (a : answer unit) w',
    handler unit unit unit app_fails_at_main_llm "local" (fun _ => tt)
      (fun _ => []) (fun _ _ _ _ => "") (fun _ => "[]") (fun d => d)
      (fun d => d) (fun _ _ => tt) "paper jam" "printer" fresh_world
    = (Ok a, w') /\
    open_connections w' = open_connections fresh_world /\
    match (process_ticket_body unit unit unit app_fails_at_main_llm "local"
             (fun _ => tt) (fun _ => []) (fun _ _ _ _ => "") (fun _ => "[]")
             (fun d => d) (fun d => d) (fun _ _ => tt)
             "paper jam" "printer" fresh_world).1 with
    | Ok r => a = Answer 200 (inl r)
    | Raise (HTTPException status_code detail) =>
        a = Answer status_code (inr detail)
    | Raise e =>
        a = Answer 500
              (inr ("Unknown error occured while processing. Error message:"
                    +:+ str_exn e))
    end.
Proof.
  assert (H : next_connection fresh_world ∉ open_connections fresh_world)
    by apply not_elem_of_empty.
  split; [exact H|].
  exact (handler_answers unit unit unit app_fails_at_main_llm "local" (fun _ => tt)
           (fun _ => []) (fun _ _ _ _ => "") (fun _ => "[]") (fun d => d)
           (fun d => d) (fun _ _ => tt) "paper jam" "printer" fresh_world H).
Defined.

End StoreExtra.

(* ===================================================================== *)
(** * Properties of [determine_relevancy] *)
(* ===================================================================== *)

Module RelevancyExtra.
Import PyStr PyStrFacts ChunkingNotions Relevancy.

Lemma prefix_split (p s : string) :
  String.prefix p s = true <-> exists post, s = p +:+ post.
Proof.
  split.
  - revert s. induction p as [|c p IH]; intros s H.
    + exists s. reflexivity.
    + destruct s as [|a s]; [discriminate|].
      cbn [String.prefix] in H. destruct (ascii_dec c a) as [->|]; [|discriminate].
      destruct (IH _ H) as [post ->]. exists post. now rewrite str_app_cons.
  - intros [post ->]. apply prefix_app.
Qed.

(** The substring test decides [occurs_in]. *)
Lemma contains_occurs (t s : string) : contains t s = true <-> occurs_in t s.
Proof.
  split.
  - induction s as [|a s IH]; cbn [contains]; intros H.
    + rewrite orb_false_r in H. apply prefix_split in H as [post H].
      exists "", post. now rewrite str_app_nil_l.
    + apply orb_true_iff in H as [H|H].
      * apply prefix_split in H as [post H].
        exists "", post. now rewrite str_app_nil_l.
      * destruct (IH H) as (pre & post & ->).
        exists (String a pre), post. now rewrite str_app_cons.
  - intros (pre & post & ->).
    induction pre as [|a pre IH].
    + rewrite str_app_nil_l.
      destruct (t +:+ post) eqn:E; cbn [contains]; rewrite <- E;
        now rewrite prefix_app.
    + rewrite str_app_cons. cbn [contains]. rewrite IH. apply orb_true_r.
Qed.

Lemma skip_digits_split (s : string) :
  exists digits, s = digits +:+ skip_digits s /\
    all_digits digits = true.
Proof.
  induction s as [|c s (digits & IH & Hd)].
  - exists "". split; reflexivity.
  - cbn [skip_digits]. destruct (isdigit c) eqn:E.
    + exists (String c digits). split.
      * rewrite str_app_cons. now rewrite <- IH.
      * cbn. now rewrite E, Hd.
    + exists "". split; reflexivity.
Qed.

Lemma skip_digits_run (digits rest : string) :
  all_digits digits = true ->
  skip_digits (digits +:+ "_name" +:+ rest) = "_name" +:+ rest.
Proof.
  induction digits as [|c digits IH]; intros H.
  - reflexivity.
  - cbn in H. apply andb_true_iff in H as [Hc H].
    rewrite str_app_cons. cbn [skip_digits]. rewrite Hc. now apply IH.
Qed.

Lemma after_cat_spec (s r : string) :
  after_cat s = Some r <-> s = "cat" +:+ r.
Proof.
  split.
  - destruct s as [|a [|b [|c s]]]; try discriminate.
    unfold after_cat. destruct (String.prefix _ _) eqn:E; [|discriminate].
    intros [= <-]. apply prefix_split in E as [post E].
    rewrite E. injection E as _ _ _ ->. reflexivity.
  - intros ->. pose proof (prefix_app "cat" r) as H.
    rewrite !str_app_cons, str_app_nil_l in *.
    unfold after_cat. now rewrite H.
Qed.

(** The matcher at the start of a key accepts the language of the
    pattern. *)
Lemma match_cat_name_spec (s : string) :
  match_cat_name s = true <->
  exists digits post,
    s = "cat" +:+ digits +:+ "_name" +:+ post /\
    all_digits digits = true.
Proof.
  unfold match_cat_name. split.
  - destruct (after_cat s) as [r|] eqn:E; [|discriminate].
    apply after_cat_spec in E. intros H.
    apply prefix_split in H as [post H].
    destruct (skip_digits_split r) as (digits & Hr & Hd).
    exists digits, post. split; [|exact Hd].
    rewrite E, Hr at 1. now rewrite H.
  - intros (digits & post & -> & Hd).
    assert (after_cat ("cat" +:+ digits +:+ "_name" +:+ post)
            = Some (digits +:+ "_name" +:+ post)) as -> by now apply after_cat_spec.
    rewrite skip_digits_run by exact Hd. apply prefix_app.
Qed.

Lemma search_cat_name_spec (key : string) :
  search_cat_name key = true <-> cat_name_key key.
Proof.
  unfold cat_name_key. split.
  - induction key as [|a key IH]; cbn [search_cat_name]; intros H.
    + rewrite orb_false_r in H. apply match_cat_name_spec in H as (d & p & H & Hd).
      exists "", d, p. now rewrite str_app_nil_l.
    + apply orb_true_iff in H as [H|H].
      * apply match_cat_name_spec in H as (d & p & H & Hd).
        exists "", d, p. now rewrite str_app_nil_l.
      * destruct (IH H) as (pre & d & p & -> & Hd).
        exists (String a pre), d, p. now rewrite str_app_cons.
  - intros (pre & d & p & -> & Hd).
    induction pre as [|a pre IH].
    + rewrite str_app_nil_l.
      assert (match_cat_name ("cat" +:+ d +:+ "_name" +:+ p) = true) as Hm
        by (apply match_cat_name_spec; eauto).
      destruct ("cat" +:+ d +:+ "_name" +:+ p) eqn:E; cbn [search_cat_name];
        now rewrite Hm.
    + rewrite str_app_cons. cbn [search_cat_name]. rewrite IH. apply orb_true_r.
Qed.

Lemma has_keyword_spec (v : string) :
  has_keyword v = true <->
  exists keyword, keyword ∈ relevant_keywords /\ occurs_in keyword (lower v).
Proof.
  unfold has_keyword. rewrite existsb_exists. split.
  - intros (k & Hin & Hc). exists k. split.
    + now apply list_elem_of_In.
    + now apply contains_occurs.
  - intros (k & Hin & Hc). exists k. split.
    + now apply list_elem_of_In.
    + now apply contains_occurs.
Qed.

Lemma relevant_fields_spec (m : manual) (field : string) :
  is_Some (m !! field) ->
  (field ∈ relevant_fields m <-> field = "contentType" \/ cat_name_key field).
Proof.
  intros [v Hv]. unfold relevant_fields, keys.
  rewrite elem_of_cons, list_elem_of_filter, search_cat_name_spec.
  split.
  - intros [H|[H _]]; auto.
  - intros [H|H]; auto. right. split; [exact H|].
    apply list_elem_of_fmap. exists (field, v). split; [reflexivity|].
    now apply elem_of_map_to_list.
Qed.

(** X23.  [determine_relevancy] answers [True] exactly when some
    field of the manual that is [contentType] or whose key contains
    [cat], a run of digits and [_name] holds a string whose lower-case
    form contains one of the six keywords; fields with other keys and
    values that are not strings never count. *)
Theorem determine_relevancy_spec (m : manual) :
  determine_relevancy m = true <->
  exists field v keyword,
    (field = "contentType" \/ cat_name_key field) /\
    m !! field = Some (Str v) /\
    keyword ∈ relevant_keywords /\
    occurs_in keyword (lower v).
Proof.
  unfold determine_relevancy. rewrite existsb_exists. split.
  - intros (field & Hin & Hrel). apply list_elem_of_In in Hin.
    unfold field_relevant in Hrel.
    destruct (m !! field) as [[v| |]|] eqn:E; try discriminate.
    apply has_keyword_spec in Hrel as (k & Hk & Hocc).
    exists field, v, k. split; [|auto].
    apply (relevant_fields_spec m); [rewrite E; eauto|exact Hin].
  - intros (field & v & k & Hf & E & Hk & Hocc).
    exists field. split.
    + apply list_elem_of_In, relevant_fields_spec; [rewrite E; eauto|exact Hf].
    + unfold field_relevant. rewrite E. apply has_keyword_spec. eauto.
Qed.

(** X24.  For a manual of the documented structure, in which
    every category name is a list of strings, the category names play no
    part: the answer is the keyword test on the string under
    [contentType] alone, and [False] when that field is missing or is no
    string. *)
Theorem determine_relevancy_documented (m : manual) :
  documented m ->
  determine_relevancy m =
    match m !! "contentType" with
    | Some (Str v) => has_keyword v
    | _ => false
    end.
Proof.
  intros Hdoc. unfold determine_relevancy, relevant_fields. cbn [existsb].
  assert (existsb (field_relevant m)
            (filter (fun key => search_cat_name key = true) (keys m)) = false) as ->.
  { apply not_true_iff_false. rewrite existsb_exists. intros (key & Hin & Hrel).
    apply list_elem_of_In, list_elem_of_filter in Hin as [Hcat Hkey].
    apply search_cat_name_spec in Hcat. unfold field_relevant in Hrel.
    destruct (m !! key) as [v|] eqn:E; [|discriminate].
    destruct (Hdoc _ _ E Hcat) as [l ->]. discriminate. }
  rewrite orb_false_r. reflexivity.
Qed.

Lemma service_manual_documented : documented service_manual.
Proof.
  intros key v Hv Hcat. unfold service_manual in Hv.
  apply lookup_insert_Some in Hv as [[<- <-]|[_ Hv]].
  { apply search_cat_name_spec in Hcat. discriminate. }
  apply lookup_insert_Some in Hv as [[<- <-]|[_ Hv]]; [eauto|].
  apply lookup_insert_Some in Hv as [[<- <-]|[_ Hv]].
  { apply search_cat_name_spec in Hcat. discriminate. }
  destruct (lookup_empty_Some _ _ Hv).
Qed.

Lemma determine_relevancy_documented_witness :
  documented service_manual /\
  determine_relevancy service_manual =
    match service_manual !! "contentType" with
    | Some (Str v) => has_keyword v
    | _ => false
    end.
Proof.
  split; [exact service_manual_documented|].
  apply (determine_relevancy_documented service_manual).
  exact service_manual_documented.
Defined.

End RelevancyExtra.

(* ===================================================================== *)
(** * Properties of [generate_sql_query] *)
(* ===================================================================== *)

Module SqlQueryExtra.
Import PyStr PyStrFacts ChunkingNotions ChunkingExtra SqlQuery.

Lemma replace_app a b (s1 s2 : string) :
  replace a b (s1 +:+ s2) = replace a b s1 +:+ replace a b s2.
Proof.
  induction s1 as [|c s1 IH]; [reflexivity|].
  rewrite str_app_cons. cbn [replace]. now rewrite IH, str_app_cons.
Qed.

Lemma flat_app (s1 s2 : string) : flat (s1 +:+ s2) = flat s1 +:+ flat s2.
Proof. unfold flat. now rewrite !replace_app. Qed.

Lemma count_app c (s1 s2 : string) :
  count c (s1 +:+ s2) = (count c s1 + count c s2)%nat.
Proof.
  induction s1 as [|a s1 IH]; [reflexivity|].
  rewrite str_app_cons. cbn [count]. rewrite IH. lia.
Qed.

Lemma count_replace_absent c a b (s : string) :
  c <> b -> count c s = 0%nat -> count c (replace a b s) = 0%nat.
Proof.
  intros Hb. induction s as [|x s IH]; [reflexivity|].
  cbn [count replace]. intros H.
  destruct (Ascii.eqb_spec x c) as [->|Hx]; [lia|].
  rewrite IH by lia.
  destruct (Ascii.eqb x a).
  - destruct (Ascii.eqb_spec b c); [congruence|reflexivity].
  - destruct (Ascii.eqb_spec x c); [congruence|reflexivity].
Qed.

Lemma count_replace_same a b (s : string) :
  a <> b -> count a (replace a b s) = 0%nat.
Proof.
  intros Hab. induction s as [|x s IH]; [reflexivity|].
  cbn [count replace]. rewrite IH.
  destruct (Ascii.eqb_spec x a) as [->|Hx].
  - destruct (Ascii.eqb_spec b a); [congruence|reflexivity].
  - destruct (Ascii.eqb_spec x a); [congruence|reflexivity].
Qed.

Lemma count_replace_other c a b (s : string) :
  c <> a -> c <> b -> count c (replace a b s) = count c s.
Proof.
  intros Ha Hb. induction s as [|x s IH]; [reflexivity|].
  cbn [count replace]. rewrite IH. f_equal.
  destruct (Ascii.eqb_spec x a) as [->|Hx]; [|reflexivity].
  destruct (Ascii.eqb_spec b c); [congruence|].
  destruct (Ascii.eqb_spec a c); [congruence|reflexivity].
Qed.

Lemma count_flat c (s : string) :
  c <> nl_char -> c <> tab_char -> c <> " "%char ->
  count c (flat s) = count c s.
Proof.
  intros Hn Ht Hs. unfold flat. now rewrite !count_replace_other.
Qed.

Lemma count_translate c (s : string) :
  c ∈ removed -> count c (translate s) = 0%nat.
Proof.
  intros Hc. induction s as [|x s IH]; [reflexivity|].
  cbn [translate]. case_bool_decide as Hx; [exact IH|].
  cbn [count]. rewrite IH.
  destruct (Ascii.eqb_spec x c) as [->|]; [contradiction|reflexivity].
Qed.

Lemma removed_not_blank c :
  c ∈ removed -> c <> nl_char /\ c <> tab_char /\ c <> " "%char.
Proof.
  unfold removed. rewrite !elem_of_cons, elem_of_nil.
  intros [->|[->|[->|[->|[->|[]]]]]]; repeat split; discriminate.
Qed.

(** X25.  The statement is a single line: whatever the arguments hold, the
    result has no line feed and no tab. *)
Theorem generate_sql_query_single_line table_name query_str embedding_str
        limit deviceType :
  let statement :=
    generate_sql_query table_name query_str embedding_str limit deviceType in
  count nl_char statement = 0%nat /\ count tab_char statement = 0%nat.
Proof.
  cbv zeta. unfold generate_sql_query, flat. split.
  - apply count_replace_absent; [discriminate|].
    apply count_replace_same. discriminate.
  - apply count_replace_same. discriminate.
Qed.

Ltac count_pieces :=
  unfold sql_text, outer_columns, inner_columns, group_columns, lines;
  cbv zeta; cbn [join];
  repeat match goal with
         | |- context [String.eqb ?a ?b] => destruct (String.eqb a b)
         end;
  rewrite ?count_app.

(** X26.  The search text adds none of the characters the translation table
    removes: the number of double quotes, backslashes, percent signs,
    underscores and single quotes in the statement is the same for every
    search text. *)
Theorem generate_sql_query_search_text table_name query_str embedding_str
        limit deviceType c :
  c ∈ removed ->
  count c (generate_sql_query table_name query_str embedding_str limit deviceType)
  = count c (generate_sql_query table_name "" embedding_str limit deviceType).
Proof.
  intros Hc. destruct (removed_not_blank c Hc) as (Hn & Ht & Hs).
  unfold generate_sql_query. rewrite !count_flat by assumption.
  count_pieces; rewrite !(count_translate c) by exact Hc; reflexivity.
Qed.

Lemma generate_sql_query_search_text_witness :
  "'"%char ∈ removed /\
  count "'" (generate_sql_query "tickets" "printer's jam" "[0.5]" 5 None)
  = count "'" (generate_sql_query "tickets" "" "[0.5]" 5 None).
Proof.
  assert ("'"%char ∈ removed) as H
    by (refine (bool_decide_unpack _ _); vm_compute; exact I).
  split; [exact H|].
  exact (generate_sql_query_search_text "tickets" "printer's jam" "[0.5]" 5 None _ H).
Defined.

(** X27.  The device type is not translated.  For the table [manuals] it
    stands between single quotes in both branches as it was passed, line
    breaks and tabs apart; for every other table name the statement does
    not depend on it. *)
Theorem generate_sql_query_device_type table_name query_str embedding_str
        limit deviceType :
  let statement :=
    generate_sql_query table_name query_str embedding_str limit deviceType in
  if String.eqb table_name "manuals"
  then occurs_in ("WHERE deviceType = '"
                    +:+ flat (format_deviceType deviceType) +:+ "' ") statement /\
       occurs_in (" deviceType ='"
                    +:+ flat (format_deviceType deviceType) +:+ "' AND ") statement
  else statement =
       generate_sql_query table_name query_str embedding_str limit None.
Proof.
  cbv zeta. unfold generate_sql_query, sql_text.
  destruct (String.eqb table_name "manuals"); [|reflexivity].
  cbv beta iota zeta. rewrite !flat_app. split.
  - do 9 apply occurs_in_app_l. apply occurs_in_app_r, occurs_in_refl.
  - do 4 apply occurs_in_app_l. apply occurs_in_app_r, occurs_in_refl.
Qed.

End SqlQueryExtra.

(* ===================================================================== *)
(** * Properties of [elements_to_text] *)
(* ===================================================================== *)

Module HtmlUtilExtra.
Import PyStr PyStrFacts HtmlUtil.

Lemma join_snoc sep (l : list string) x :
  join sep (l ++ [x]) =
  match l with
  | [] => x
  | _ :: _ => join sep l +:+ sep +:+ x
  end.
Proof.
  induction l as [|a l IH]; [reflexivity|].
  destruct l as [|b l].
  - reflexivity.
  - change (join sep ((a :: b :: l) ++ [x]))
      with (a +:+ sep +:+ join sep ((b :: l) ++ [x])).
    rewrite IH.
    change (join sep (a :: b :: l)) with (a +:+ sep +:+ join sep (b :: l)).
    now rewrite !str_app_assoc.
Qed.

Lemma flush_closed p b : flush (HtmlState p b []) = p.
Proof. reflexivity. Qed.

Lemma flush_other st b y :
  let st' := HtmlState (flush st ++ [y]) b [] in
  flush st' <> [] /\
  join nl (flush st') =
  match flush st with
  | [] => y
  | _ :: _ => join nl (flush st) +:+ nl +:+ y
  end.
Proof.
  cbv zeta. rewrite flush_closed. split; [now destruct (flush st)|].
  apply join_snoc.
Qed.

Lemma flush_list_item st b x :
  let st' := HtmlState (parts st) b (current_list st ++ [x]) in
  flush st' <> [] /\
  join nl (flush st') =
  match flush st with
  | [] => x
  | _ :: _ => join nl (flush st) +:+ nl +:+ x
  end.
Proof.
  cbv zeta. unfold flush. cbn [current_list parts].
  destruct (current_list st) as [|l ls] eqn:Hcl.
  - cbn [app]. split; [now destruct (parts st)|]. apply join_snoc.
  - change ((l :: ls) ++ [x]) with (l :: (ls ++ [x])). cbv iota.
    change (l :: (ls ++ [x])) with ((l :: ls) ++ [x]).
    split; [now destruct (parts st)|].
    rewrite (join_snoc nl (l :: ls) x).
    destruct (parts st) as [|p ps].
    + reflexivity.
    + rewrite !(join_snoc nl (p :: ps)).
      change ((p :: ps) ++ [join nl (l :: ls)])
        with (p :: (ps ++ [join nl (l :: ls)])).
      cbv iota. now rewrite !str_app_assoc.
Qed.

(** One step appends the line of the element to the text. *)
Lemma step_text st el :
  flush (step st el) <> [] /\
  text_so_far (step st el) =
  match flush st with
  | [] => line el
  | _ :: _ => text_so_far st +:+ nl +:+ line el
  end.
Proof.
  unfold text_so_far, step, line.
  destruct (type el); first [apply flush_other|apply flush_list_item].
Qed.

Lemma fold_step_text els :
  let st := fold_left step els html_init in
  (flush st = [] <-> els = []) /\
  text_so_far st = join nl (map line els).
Proof.
  induction els as [|el els IH] using rev_ind; cbv zeta in *.
  - split; [tauto|reflexivity].
  - rewrite fold_left_app. cbn [fold_left].
    destruct IH as [Hnil Htext].
    destruct (step_text (fold_left step els html_init) el) as [Hne Hstep].
    split.
    + split; [intros H; contradiction|].
      intros H. now apply app_nil in H as [_ H].
    + rewrite Hstep, map_app. cbn [map]. rewrite join_snoc.
      destruct (flush (fold_left step els html_init)) as [|a r] eqn:Hf.
      * assert (els = []) as -> by now apply Hnil. reflexivity.
      * destruct els as [|e0 els0].
        { destruct Hnil as [_ Hnil]. now specialize (Hnil eq_refl). }
        cbn [map]. cbn [map] in Htext. now rewrite Htext.
Qed.

(** X28.  Buffering the list items changes nothing: the result is the lines of
    the elements, one per element and in their order, joined by line feeds
    and stripped.  A title gives its hashes, a space and its text, a list
    item a dash, a space and its text, every other element its text; the
    buffer left at the end is joined by line feeds like the others. *)
Theorem elements_to_text_lines (html_elements : list html_element) :
  elements_to_text html_elements = strip (join nl (map line html_elements)).
Proof.
  unfold elements_to_text.
  destruct (fold_step_text html_elements) as [_ H].
  unfold text_so_far in H. now rewrite H.
Qed.

End HtmlUtilExtra.

(* ===================================================================== *)
(** * Properties of the ingestion of a manual *)
(* ===================================================================== *)

Module IngestorExtra.
Import PyStr Chunking ChunkingNotions ChunkingExtra PdfUtil PdfTables
       ProcessPdfExtra Ingestor.

Lemma as_segments_visible pages_to_ignore (els : list element) :
  Forall (page_visible pages_to_ignore) els ->
  exists segs,
    as_segments els = Some segs /\
    forall p, p ∈ segs.*2 -> p - 1 ∉ pages_to_ignore.
Proof.
  induction els as [|[t n] els IH]; intros Hall.
  - exists []. split; [reflexivity|]. intros p Hp. now apply elem_of_nil in Hp.
  - apply Forall_cons in Hall as [(p & Hp & Hvis) Hall].
    destruct (IH Hall) as (segs & Hsegs & Hpages).
    cbn [snd] in Hp. subst n. exists ((t, p) :: segs). split.
    + unfold as_segments in *. cbn. now rewrite Hsegs.
    + intros q Hq. cbn in Hq. apply elem_of_cons in Hq as [->|Hq]; auto.
Qed.

Section WithLibraries.
Variable detect : string -> option string.
Variable re_search : string -> string -> bool.
Variable re_findall_count : string -> string -> nat.
Variable re_match_toc : string -> option (string * Z).
Variable DEFAULT_EXPORT_LABELS : item_label -> bool.
Variable is_fullpage : doc_item -> bool.

(** X29.  Every segment [process_pdf] hands to the chunker carries a page
    number, so the chunks of a manual are always produced, and no chunk
    is attributed to a page that [detect_irrelevant_pages] excluded: the
    page number of a chunk, less one, is never in the exclusion set.  Only
    a chunk with the empty text has no page number. *)
Theorem manual_chunks_pages doc n_pages items :
  exists chunks,
    manual_chunks detect re_search re_findall_count re_match_toc
                  DEFAULT_EXPORT_LABELS is_fullpage doc n_pages items
    = Some chunks /\
    forall c, c ∈ chunks ->
      match page_no c with
      | Some p =>
          p - 1 ∉ detect_irrelevant_pages detect re_search re_findall_count
                    re_match_toc doc
      | None => text c = ""
      end.
Proof.
  unfold manual_chunks, process_pdf_document, process_pdf. cbn [negb].
  set (pti := detect_irrelevant_pages _ _ _ _ doc).
  set (pti' := get_fullpage_tables _ _ n_pages items pti).
  set (st := fold_left _ items pdf_init).
  assert (Hall : Forall (page_visible pti') (final_flush st)).
  { apply Forall_forall. intros el Hel.
    apply (final_flush_visible pti' st el);
      [apply process_items_visible|exact Hel]. }
  destruct (as_segments_visible _ _ Hall) as (segs & -> & Hpages).
  exists (naive_chunking segs true). split; [reflexivity|].
  intros c Hc.
  pose proof (run_from_pages_inv true segs segs init (fun _ H => H)
                (init_pages_inv segs)) as Hinv.
  pose proof (finish_pages_inv segs _ c Hinv Hc) as Hok.
  unfold page_ok in Hok. destruct (page_no c) as [p|]; [|exact Hok].
  intros Hin. apply (Hpages p Hok).
  unfold pti', get_fullpage_tables.
  destruct (0 <? n_pages)%nat; [|exact Hin].
  clearbody pti. clear -Hin. revert pti Hin.
  induction items as [|[item level] items IH]; intros pti Hin; [exact Hin|].
  cbn [fold_left]. apply IH. unfold fullpage_step.
  repeat match goal with
         | |- context [if ?b then _ else _] => destruct b
         end; try exact Hin.
  apply elem_of_union. now right.
Qed.

End WithLibraries.

End IngestorExtra.
